(** * WaferDefectDetection: the image-analysis pipeline

    A shallow embedding of the five pipeline functions of the repository
    ([extract_lens_mask], [correct_illumination], [detect_defects],
    [analyze_defects], [build_annotated_display]), of the load and analyse
    handlers of the form with their verdict lines, and of the functions of
    the single-header copy of the program ([Legacy]), whose classifier
    [analyzeDefects] uses other thresholds.

    - 8-bit single-channel images are lists of rows of [Z] samples.
    - [float] is IEEE binary32, taken from the Standard Library's
      [SpecFloat] with precision 24 and exponent bound 128: casts,
      divisions, comparisons and literals are the correctly rounded ones.
    - The OpenCV primitives the pipeline calls are not part of the
      repository.  Thresholding, erosion, dilation, the morphological
      compositions, bitwise and, pixel counting and the contour
      measurements are written out below; the remaining ones (structuring
      elements, CLAHE, contour tracing, rasterisation, the floating-point
      image operations and the drawing calls) are the operations of the
      class [OpenCV], about which nothing is assumed unless a statement
      says so.
    - The [double] results of the contour measurements are sums and
      products of integer coordinates; they are kept exact, areas doubled
      in [Z] and moments in [Q]. *)

From Stdlib Require Import ZArith List Bool Lia String QArith DecimalString.
From Stdlib Require Import Floats.SpecFloat.
Import ListNotations.

Local Open Scope Z_scope.

(** ** IEEE binary32 *)

Module Float32.

Definition prec : Z := 24.
Definition emax : Z := 128.

Definition float : Type := spec_float.

(** [(float) n] for an integer [n]. *)
Definition of_int (n : Z) : float := binary_normalize prec emax n 0 false.

(** [(float) d] for a double [d] that holds the half-integer [n / 2]. *)
Definition of_half (n : Z) : float := binary_normalize prec emax n (-1) false.

Definition div (a b : float) : float := SFdiv prec emax a b.
Definition sqrt (a : float) : float := SFsqrt prec emax a.

Definition ltb (a b : float) : bool := SFltb a b.
Definition leb (a b : float) : bool := SFleb a b.
Definition gtb (a b : float) : bool := SFltb b a.

(** [std::max<float> (a, b)] is [(a < b) ? b : a]. *)
Definition max (a b : float) : float := if ltb a b then b else a.

(** A decimal literal [n / d] with the [f] suffix: the binary32 value
    nearest to the quotient.  [n] and [d] are small enough to be exact,
    and division is correctly rounded. *)
Definition lit (n d : Z) : float := div (of_int n) (of_int d).

(** [(int) a]: truncation toward zero (undefined in C++ for NaN and the
    infinities, 0 here). *)
Definition to_int (a : float) : Z :=
  match a with
  | S754_finite s m e =>
      let v := if 0 <=? e then Zpos m * 2 ^ e else Zpos m / 2 ^ (- e) in
      if s then - v else v
  | _ => 0
  end.

Definition zero : float := S754_zero false.
Definition one : float := of_int 1.

End Float32.

(** ** More of binary32 *)

Module Float32Ops.

Definition sub (a b : Float32.float) : Float32.float := SFsub Float32.prec Float32.emax a b.
Definition add (a b : Float32.float) : Float32.float := SFadd Float32.prec Float32.emax a b.
Definition mul (a b : Float32.float) : Float32.float := SFmul Float32.prec Float32.emax a b.

(** [std::min<float> (a, b)] is [(b < a) ? b : a]. *)
Definition min (a b : Float32.float) : Float32.float := if Float32.ltb b a then b else a.

Definition FLT_MAX : Float32.float := SFmax_float Float32.prec Float32.emax.

(** The binary64 quotient [a / b] of two doubles whose exact quotient
    is [q]: division is correctly rounded. *)
Definition double_of_Q (q : Q) : spec_float :=
  match Qnum q with
  | 0 => S754_zero false
  | Zpos p => SFdiv 53 1024 (S754_finite false p 0) (S754_finite false (Qden q) 0)
  | Zneg p => SFdiv 53 1024 (S754_finite true p 0) (S754_finite false (Qden q) 0)
  end.

(** [(float) a] for a double [a]: rounding to binary32. *)
Definition of_double (a : spec_float) : Float32.float :=
  match a with
  | S754_finite s m e =>
      binary_normalize Float32.prec Float32.emax (if s then Zneg m else Zpos m) e s
  | _ => a
  end.

(** [(float) (a / b)] for two doubles whose exact quotient is [q]: the
    quotient is rounded to binary64 and then to binary32. *)
Definition of_Q (q : Q) : Float32.float := of_double (double_of_Q q).

End Float32Ops.

(** ** The OpenCV primitives that are written out *)

Module Cv.

(** A [CV_8U] single-channel matrix: rows of samples. *)
Definition Mat : Type := list (list Z).

(** [cv::Point]: [(x, y)]. *)
Definition Point : Type := (Z * Z)%type.
Definition Contour : Type := list Point.

Record Rect : Type := mkRect { x : Z; y : Z; width : Z; height : Z }.

(** A structuring element: the offsets [(drow, dcol)] of its non-zero
    entries relative to its anchor. *)
Definition Kernel : Type := list (Z * Z).

Inductive MorphShape : Type := MORPH_RECT | MORPH_CROSS | MORPH_ELLIPSE.

(** [mat.size ()]: the lengths of the rows. *)
Definition size (m : Mat) : list nat := map (@List.length Z) m.

Definition same_size (a b : Mat) : bool :=
  if list_eq_dec Nat.eq_dec (size a) (size b) then true else false.

(** Modelled from the spec: [cv::Mat::zeros (m.size (), CV_8U)], "an
    all-zero mask of the source's dimensions". *)
Definition zeros (m : Mat) : Mat := map (map (fun _ => 0)) m.

(** Modelled from the spec: [cv::threshold (src, dst, thresh, maxval,
    cv::THRESH_BINARY)], "binarize ... (foreground = values above)". *)
Definition threshold (src : Mat) (thresh maxval : Z) : Mat :=
  map (map (fun v => if thresh <? v then maxval else 0)) src.

Definition nonzero (v : Z) : bool := negb (v =? 0).

(** Modelled from the spec: [cv::countNonZero], the "count of foreground
    pixels". *)
Definition countNonZero (m : Mat) : Z :=
  fold_right (fun row acc => Z.of_nat (List.length (filter nonzero row)) + acc) 0 m.

(** The sample at row [r], column [c], when inside the image. *)
Definition pixel (m : Mat) (r c : Z) : option Z :=
  if (r <? 0) || (c <? 0) then None
  else match nth_error m (Z.to_nat r) with
       | Some row => nth_error row (Z.to_nat c)
       | None => None
       end.

(** The samples under the structuring element placed at [(r, c)];
    positions outside the image do not take part (the default border of
    the morphological operations). *)
Definition neighbourhood (k : Kernel) (m : Mat) (r c : Z) : list Z :=
  flat_map (fun d => match pixel m (r + fst d) (c + snd d) with
                     | Some v => [v]
                     | None => []
                     end) k.

Fixpoint imap_from {A B : Type} (i : Z) (f : Z -> A -> B) (l : list A) : list B :=
  match l with
  | [] => []
  | a :: t => f i a :: imap_from (i + 1) f t
  end.

(** A new image of the shape of [m] whose sample at [(r, c)] is [f r c]. *)
Definition build (f : Z -> Z -> Z) (m : Mat) : Mat :=
  imap_from 0 (fun r row => imap_from 0 (fun c _ => f r c) row) m.

Definition minimum (l : list Z) : Z := fold_right Z.min 255 l.
Definition maximum (l : list Z) : Z := fold_right Z.max 0 l.

(** Modelled from the spec: [cv::erode], the minimum of the samples
    under the structuring element (the first half of a "morphological
    opening"). *)
Definition erode (k : Kernel) (m : Mat) : Mat :=
  build (fun r c => minimum (neighbourhood k m r c)) m.

(** Modelled from the spec: [cv::dilate], the maximum of the samples
    under the structuring element. *)
Definition dilate (k : Kernel) (m : Mat) : Mat :=
  build (fun r c => maximum (neighbourhood k m r c)) m.

Fixpoint zip_with {A B C : Type} (f : A -> B -> C) (a : list A) (b : list B) : list C :=
  match a, b with
  | u :: a', v :: b' => f u v :: zip_with f a' b'
  | _, _ => []
  end.

(** Modelled from the spec: the saturating [src1 - src2] on 8-bit
    samples ("subtracting a morphological opening from the original
    image"). *)
Definition subtract (a b : Mat) : Mat :=
  zip_with (zip_with (fun u v => Z.max 0 (u - v))) a b.

(** Modelled from the spec: [cv::morphologyEx] with [MORPH_OPEN], an
    erosion followed by a dilation. *)
Definition morph_open (k : Kernel) (m : Mat) : Mat := dilate k (erode k m).

(** Modelled from the spec: [cv::morphologyEx] with [MORPH_CLOSE], a
    dilation followed by an erosion. *)
Definition morph_close (k : Kernel) (m : Mat) : Mat := erode k (dilate k m).

(** Modelled from the spec: [cv::morphologyEx] with [MORPH_TOPHAT], the
    image minus its opening. *)
Definition morph_tophat (k : Kernel) (m : Mat) : Mat := subtract m (morph_open k m).

(** Modelled from the spec: [cv::bitwise_and (a, b, dst)], the
    sample-wise "bitwise AND"; it raises [cv::Exception] ([None]) when
    the two images differ in size. *)
Definition bitwise_and (a b : Mat) : option Mat :=
  if same_size a b then Some (zip_with (zip_with Z.land) a b) else None.

(** The complement of one 8-bit sample, the NOT of the containment
    property. *)
Definition not8 (v : Z) : Z := Z.lxor v 255.

(** *** Contour measurements

    [cv::contourArea], [cv::boundingRect] and [cv::moments] belong to
    OpenCV, not to the repository.  The spec describes them as the
    polygon-area formula (reported non-negative), the axis-aligned
    integer bounding rectangle, and the raw moments with m00 equal to
    the area.  The accumulations are exact on integer points, so they
    are computed in [Z]; areas are kept doubled. *)

(** The cross products of consecutive vertices, the last vertex being
    the predecessor of the first. *)
Fixpoint cross_terms (prev : Point) (c : Contour) : list (Point * Point) :=
  match c with
  | [] => []
  | p :: t => (prev, p) :: cross_terms p t
  end.

Definition edges (c : Contour) : list (Point * Point) :=
  match c with
  | [] => []
  | p :: _ => cross_terms (last c p) c
  end.

Definition cross (e : Point * Point) : Z :=
  fst (fst e) * snd (snd e) - snd (fst e) * fst (snd e).

Definition sum (l : list Z) : Z := fold_right Z.add 0 l.

(** Modelled from the spec: twice the "signed polygon area", and the
    matching sums of the first moments. *)
Definition a00 (c : Contour) : Z := sum (map cross (edges c)).
Definition a10 (c : Contour) : Z :=
  sum (map (fun e => cross e * (fst (fst e) + fst (snd e))) (edges c)).
Definition a01 (c : Contour) : Z :=
  sum (map (fun e => cross e * (snd (fst e) + snd (snd e))) (edges c)).

(** Modelled from the spec: twice [cv::contourArea (c)], the polygon
    area "always reported non-negative". *)
Definition contourArea2 (c : Contour) : Z := Z.abs (a00 c).

Record Moments : Type := mkMoments { m00 : Q; m10 : Q; m01 : Q }.

(** Modelled from the spec: [cv::moments (c)], "m00 = area, m10/m01 =
    first-order moments". *)
Definition moments (c : Contour) : Moments :=
  let s := Z.sgn (a00 c) in
  {| m00 := inject_Z (contourArea2 c) / 2;
     m10 := inject_Z (s * a10 c) / 6;
     m01 := inject_Z (s * a01 c) / 6 |}.

Definition min_of (d : Z) (l : list Z) : Z := fold_right Z.min d l.
Definition max_of (d : Z) (l : list Z) : Z := fold_right Z.max d l.

(** Modelled from the spec: [cv::boundingRect], the "axis-aligned,
    integer pixel coordinates" rectangle around the points, the extreme
    coordinates both inclusive. *)
Definition boundingRect (c : Contour) : Rect :=
  match c with
  | [] => mkRect 0 0 0 0
  | p :: t =>
      let xs := map fst t in
      let ys := map snd t in
      let x0 := min_of (fst p) xs in
      let y0 := min_of (snd p) ys in
      mkRect x0 y0 (max_of (fst p) xs - x0 + 1) (max_of (snd p) ys - y0 + 1)
  end.

End Cv.

(** ** The OpenCV operations that stay abstract

    [None] stands for a [cv::Exception]. *)

Definition Scalar : Type := (Z * Z * Z)%type.

(** [cv::Point2f] with exact coordinates. *)
Definition Point2f : Type := (Q * Q)%type.

Class OpenCV : Type := {
  (** [CV_32F] matrices and 3-channel 8-bit matrices. *)
  FMat : Type;
  ColorMat : Type;
  (** [cv::getStructuringElement (shape, ksize)]. *)
  getStructuringElement : Cv.MorphShape -> Z * Z -> Cv.Kernel;
  (** [cv::findContours (m, contours, RETR_EXTERNAL, CHAIN_APPROX_SIMPLE)]. *)
  findContours : Cv.Mat -> list Cv.Contour;
  (** [cv::drawContours (image, contours, idx, colour, thickness)]. *)
  drawContours : Cv.Mat -> list Cv.Contour -> Z -> Z -> Z -> Cv.Mat;
  (** [cv::createCLAHE (clip, tiles)->apply (src, dst)]. *)
  clahe_apply : Q -> Z * Z -> Cv.Mat -> Cv.Mat;
  (** [src.convertTo (dst, CV_32F)]. *)
  convertTo32F : Cv.Mat -> FMat;
  (** [m + s] for a float scalar [s]. *)
  add_scalar : FMat -> Float32.float -> FMat;
  (** [cv::GaussianBlur (src, dst, ksize, sigma)]. *)
  GaussianBlur : FMat -> Z * Z -> Z -> option FMat;
  (** [cv::divide (a, b, dst)]. *)
  divide : FMat -> FMat -> FMat;
  (** [cv::normalize (src, dst, lo, hi, NORM_MINMAX, CV_8U, mask)]. *)
  normalize_minmax : FMat -> Z -> Z -> Cv.Mat -> Cv.Mat;
  (** [cv::cvtColor (src, dst, COLOR_GRAY2BGR)]. *)
  cvtColorGray2Bgr : Cv.Mat -> ColorMat;
  (** [cv::drawContours] on a colour image. *)
  drawContoursColor : ColorMat -> list Cv.Contour -> Z -> Scalar -> Z -> ColorMat;
  (** [cv::circle (image, centre, radius, colour, thickness)]. *)
  circle : ColorMat -> option Point2f -> Z -> Scalar -> Z -> ColorMat;
  (** [cv::putText (image, text, origin, FONT_HERSHEY_SIMPLEX, scale, colour, thickness)]. *)
  putText : ColorMat -> string -> Z * Z -> Q -> Scalar -> Z -> ColorMat
}.

(** ** The pipeline (defect_processing) *)

Import Cv.

Definition FILLED : Z := -1.

(** The loop of [extract_lens_mask] that looks for the largest contour:
    the state is [(largest, max_area)], [i] the index of the contour at
    the head of [cs].  Areas are doubled, which does not change [>]. *)
Fixpoint largest_loop (cs : list Contour) (i : Z) (largest max_area : Z) : Z * Z :=
  match cs with
  | [] => (largest, max_area)
  | c :: rest =>
      let a := contourArea2 c in
      if max_area <? a
      then largest_loop rest (i + 1) i a
      else largest_loop rest (i + 1) largest max_area
  end.

Definition extract_lens_mask `{OpenCV} (gray : Mat) : Mat :=
  let mask := threshold gray 8 255 in
  let kernel := getStructuringElement MORPH_ELLIPSE (15, 15) in
  let mask := morph_close kernel mask in
  let mask := morph_open kernel mask in
  let contours := findContours mask in
  let clean_mask := zeros gray in
  match contours with
  | [] => clean_mask
  | _ :: _ =>
      let largest := fst (largest_loop contours 0 0 0) in
      drawContours clean_mask contours largest 255 FILLED
  end.

(** [blur_size % 2] is the truncated remainder of C++. *)
Definition correct_illumination `{OpenCV} (gray mask : Mat) (blur_size : Z) : option Mat :=
  let blur_size := if Z.rem blur_size 2 =? 0 then blur_size + 1 else blur_size in
  let float_gray := convertTo32F gray in
  match GaussianBlur float_gray (blur_size, blur_size) 0 with
  | None => None
  | Some background =>
      let corrected := divide (add_scalar float_gray Float32.one)
                              (add_scalar background Float32.one) in
      Some (normalize_minmax corrected 0 255 mask)
  end.

Definition detect_defects `{OpenCV} (corrected mask : Mat) (threshold : Z) : option Mat :=
  let enhanced := clahe_apply 3 (8, 8) corrected in
  let kernel := getStructuringElement MORPH_ELLIPSE (7, 7) in
  let tophat := morph_tophat kernel enhanced in
  let defect_mask := Cv.threshold tophat threshold 255 in
  let noise_kernel := getStructuringElement MORPH_ELLIPSE (3, 3) in
  let defect_mask := morph_open noise_kernel defect_mask in
  bitwise_and defect_mask mask.

Record Defect : Type := mkDefect {
  center : option Point2f;   (* [None]: the quotient 0/0, NaN in C++ *)
  boundingBox : Rect;
  area : Float32.float;
  ar : Float32.float;
  type : string
}.

(** [(m10 / m00, m01 / m00)]. *)
Definition centroid (m : Moments) : option Point2f :=
  if Qeq_bool (m00 m) 0 then None
  else Some (Qdiv (m10 m) (m00 m), Qdiv (m01 m) (m00 m)).

(** [d.center.x] and [d.center.y], the floats the record stores:
    [(float) (moments.m10 / moments.m00)] for the moments of [moments];
    NaN for the quotient 0/0. *)
Definition center_x (d : Defect) : Float32.float :=
  match center d with
  | Some (cx, _) => Float32Ops.of_Q cx
  | None => S754_nan
  end.

Definition center_y (d : Defect) : Float32.float :=
  match center d with
  | Some (_, cy) => Float32Ops.of_Q cy
  | None => S754_nan
  end.

Definition f2_0 : Float32.float := Float32.lit 2 1.
Definition f2_5 : Float32.float := Float32.lit 25 10.
Definition f0_70 : Float32.float := Float32.lit 70 100.
Definition f0_40 : Float32.float := Float32.lit 40 100.
Definition f5_0 : Float32.float := Float32.lit 5 1.
Definition f20_0 : Float32.float := Float32.lit 20 1.
Definition f150_0 : Float32.float := Float32.lit 150 1.
Definition f0_000005 : Float32.float := Float32.lit 5 1000000.

(** The body of the loop of [analyze_defects] for one contour: nothing on
    [continue], else the record that is pushed. *)
Definition analyze_contour (c : Contour) : list Defect :=
  let area := Float32.of_half (contourArea2 c) in
  if Float32.ltb area f2_0 then []
  else
    let boundingBox := boundingRect c in
    let moments := Cv.moments c in
    let center := centroid moments in
    let w := Float32.of_int (width boundingBox) in
    let h := Float32.of_int (height boundingBox) in
    let ar := Float32.div w (Float32.max h Float32.one) in
    let is_elongated := Float32.gtb ar f2_5 || Float32.leb ar f0_70 in
    let is_large_enough := Float32.gtb area f5_0 in
    let type :=
      if is_elongated && is_large_enough then "scratch"%string
      else if Float32.gtb area f150_0 then "cluster"%string
      else "speck"%string in
    [mkDefect center boundingBox area ar type].

Definition analyze_defects `{OpenCV} (defect_mask : Mat) : list Defect :=
  flat_map analyze_contour (findContours defect_mask).

(** [std::to_string] of an [int]. *)
Definition to_string (n : Z) : string :=
  DecimalString.NilZero.string_of_int (Z.to_int n).

Definition marker_colour (d : Defect) : Scalar :=
  if String.eqb (type d) "scratch" then (0, 0, 255)
  else if String.eqb (type d) "cluster" then (0, 165, 255)
  else (255, 0, 255).

(** The marker loop of [build_annotated_display]; [i] is the index of the
    defect at the head of [defects]. *)
Fixpoint draw_markers `{OpenCV} (display : ColorMat) (defects : list Defect) (i : Z)
  : ColorMat :=
  match defects with
  | [] => display
  | d :: rest =>
      let color := marker_colour d in
      let radius :=
        Float32.to_int
          (Float32.max (Float32.of_int 8)
             (Float32.of_int (Float32.to_int (Float32.sqrt (area d)) + 4))) in
      let display := circle display (center d) radius color 2 in
      let origin := (Float32.to_int (center_x d) + radius + 2,
                     Float32.to_int (center_y d) + 4) in
      let display := putText display (to_string (i + 1)) origin (4 # 10) color 1 in
      draw_markers display rest (i + 1)
  end.

Definition build_annotated_display `{OpenCV} (corrected mask : Mat)
    (defects : list Defect) (pass : bool) (ratio : Float32.float) : ColorMat :=
  let display := cvtColorGray2Bgr corrected in
  let contours := findContours mask in
  let display := drawContoursColor display contours (-1) (0, 255, 0) 3 in
  draw_markers display defects 0.

(** ** The state of the form (UI) *)

Record Verdict : Type := mkVerdict {
  pass : bool;
  defectAreaRatio : Float32.float;
  defectCount : nat
}.

(** The PASS / FAIL lines of [btn_analyze_click], with the number of
    defects the verdict label prints. *)
Definition verdict (stored_mask defect_mask : Mat) (stored_defects : list Defect) : Verdict :=
  let lens_pixels := Float32.of_int (countNonZero stored_mask) in
  let defect_pixels := Float32.of_int (countNonZero defect_mask) in
  let ratio := Float32.div defect_pixels (Float32.max lens_pixels Float32.one) in
  let pass := Float32.ltb ratio f0_000005 in
  mkVerdict pass ratio (List.length stored_defects).

Record Ui `{OpenCV} : Type := mkUi {
  has_image_ : bool;
  stored_gray_ : Mat;
  stored_mask_ : Mat;
  stored_corrected_ : option Mat;
  stored_defects_ : list Defect;
  stored_display_ : option ColorMat;
  lbl_verdict_ : option Verdict
}.

Arguments mkUi {_} _ _ _ _ _ _ _.

(** ** The inspection handlers (UI) *)

(** [m.cols] and [m.rows]. *)
Definition cols (m : Mat) : Z := Z.of_nat (List.length (hd [] m)).
Definition rows (m : Mat) : Z := Z.of_nat (List.length m).

(** The rectangle that [select_defect] (padding 50) and
    [populate_defect_list] (padding 30) cut around a defect. *)
Definition crop_rect (corrected : Mat) (d : Defect) (padding : Z) : Rect :=
  let x := Float32.to_int
             (Float32.max (Float32.of_int 0)
                (Float32.of_int (Float32.to_int (center_x d) - padding))) in
  let y := Float32.to_int
             (Float32.max (Float32.of_int 0)
                (Float32.of_int (Float32.to_int (center_y d) - padding))) in
  let w := Float32.to_int
             (Float32Ops.min (Float32.of_int (cols corrected - x))
                (Float32.of_int (padding * 2))) in
  let h := Float32.to_int
             (Float32Ops.min (Float32.of_int (rows corrected - y))
                (Float32.of_int (padding * 2))) in
  mkRect x y w h.

(** [m (rect)] followed by [cv::resize]: the rectangle has to lie inside
    the image and to be non-empty, else OpenCV raises. *)
Definition roi_ok (m : Mat) (r : Rect) : bool :=
  (0 <=? x r) && (0 <? width r) && (x r + width r <=? cols m)
  && (0 <=? y r) && (0 <? height r) && (y r + height r <=? rows m).

Record Zoom : Type := mkZoom {
  crop : Rect;          (* the part of the corrected image that is enlarged *)
  marker : Z * Z;       (* where the cross is drawn in the 320 x 320 view *)
  info_number : Z       (* the number the info label shows *)
}.

(** [select_defect]: nothing ([None]) for an index outside the list (where
    the C++ indexing is undefined), without a corrected image, or when
    OpenCV raises. *)
Definition select_defect `{OpenCV} (ui : Ui) (idx : Z) : option Zoom :=
  if idx <? 0 then None
  else
    match nth_error (stored_defects_ ui) (Z.to_nat idx), stored_corrected_ ui with
    | Some d, Some corrected =>
        let padding := 50 in
        let r := crop_rect corrected d padding in
        if roi_ok corrected r then
          let cx := Float32.to_int
                      (Float32Ops.mul
                         (Float32Ops.sub (center_x d) (Float32.of_int (x r)))
                         (Float32.div (Float32.lit 320 1) (Float32.of_int (width r)))) in
          let cy := Float32.to_int
                      (Float32Ops.mul
                         (Float32Ops.sub (center_y d) (Float32.of_int (y r)))
                         (Float32.div (Float32.lit 320 1) (Float32.of_int (height r)))) in
          Some (mkZoom r (cx, cy) (idx + 1))
        else None
    | _, _ => None
    end.

Record Card : Type := mkCard {
  card_tag : Z;               (* [Tag] of the card, its thumbnail and its label *)
  thumb : Rect;
  type_color : Z * Z * Z;     (* [Color::FromArgb (r, g, b)] of the label *)
  card_number : Z             (* the number the label shows *)
}.

Definition card_colour (d : Defect) : Z * Z * Z :=
  if String.eqb (type d) "scratch" then (255, 80, 80)
  else if String.eqb (type d) "cluster" then (255, 165, 0)
  else (220, 80, 220).

(** The loop of [populate_defect_list]; [i] is the index of the defect at
    the head of [defects].  [None] when OpenCV raises at a thumbnail. *)
Fixpoint populate_loop (corrected : Mat) (defects : list Defect) (i : Z)
  : option (list Card) :=
  match defects with
  | [] => Some []
  | d :: rest =>
      let pad := 30 in
      let r := crop_rect corrected d pad in
      if roi_ok corrected r then
        match populate_loop corrected rest (i + 1) with
        | Some cards => Some (mkCard i r (card_colour d) (i + 1) :: cards)
        | None => None
        end
      else None
  end.

Definition populate_defect_list `{OpenCV} (ui : Ui) : option (list Card) :=
  match stored_corrected_ ui with
  | Some corrected => populate_loop corrected (stored_defects_ ui) 0
  | None => None
  end.

(** [defect_card_click] on a control that carries [tag]. *)
Definition defect_card_click `{OpenCV} (ui : Ui) (tag : Z) : option Zoom :=
  select_defect ui tag.

(** ** The load and analyse handlers (UI) *)

(** The state the constructor leaves: no image, every pointer null. *)
Definition initial_ui `{OpenCV} : Ui := mkUi false [] [] None [] None None.

(** [btn_load_click] once the file is decoded and turned to grey: the
    grey image and the lens mask are replaced and the verdict label is
    cleared; what an earlier analysis stored is left as it is. *)
Definition btn_load_click `{OpenCV} (ui : Ui) (gray : Mat) : Ui :=
  mkUi true gray (extract_lens_mask gray)
       (stored_corrected_ ui) (stored_defects_ ui) (stored_display_ ui) None.

(** [btn_analyze_click]; [None] when OpenCV raises, in the pipeline or
    at a thumbnail of the closing [populate_defect_list]. *)
Definition btn_analyze_click `{OpenCV} (ui : Ui) (blur_size threshold : Z) : option Ui :=
  if negb (has_image_ ui) then Some ui
  else
    match correct_illumination (stored_gray_ ui) (stored_mask_ ui) blur_size with
    | None => None
    | Some corrected =>
        match detect_defects corrected (stored_mask_ ui) threshold with
        | None => None
        | Some defect_mask =>
            let defects := analyze_defects defect_mask in
            let v := verdict (stored_mask_ ui) defect_mask defects in
            let display :=
              build_annotated_display corrected (stored_mask_ ui) defects
                (pass v) (defectAreaRatio v) in
            let ui := mkUi true (stored_gray_ ui) (stored_mask_ ui) (Some corrected)
                           defects (Some display) (Some v) in
            match populate_defect_list ui with
            | None => None
            | Some _ => Some ui
            end
        end
    end.

(** ** The single-header program

    Its classifier has other thresholds and its markers are drawn with a
    thinner circle; the other functions have the bodies of the pipeline
    above, and so do the verdict lines of its [btnAnalyze_Click]. *)

Module Legacy.

Record Defect : Type := mkDefect {
  center : option Point2f;
  boundingBox : Rect;
  area : Float32.float;
  type : string
}.

Definition center_x (d : Defect) : Float32.float :=
  match center d with
  | Some (cx, _) => Float32Ops.of_Q cx
  | None => S754_nan
  end.

Definition center_y (d : Defect) : Float32.float :=
  match center d with
  | Some (_, cy) => Float32Ops.of_Q cy
  | None => S754_nan
  end.

Definition analyze_contour (c : Contour) : list Defect :=
  let area := Float32.of_half (contourArea2 c) in
  if Float32.ltb area f2_0 then []
  else
    let boundingBox := boundingRect c in
    let M := Cv.moments c in
    let center := centroid M in
    let w := Float32.of_int (width boundingBox) in
    let h := Float32.of_int (height boundingBox) in
    let ar := Float32.div w (Float32.max h Float32.one) in
    let isElongated := Float32.gtb ar f2_5 || Float32.ltb ar f0_40 in
    let isLargeEnough := Float32.gtb area f20_0 in
    let type :=
      if isElongated && isLargeEnough then "scratch"%string
      else if Float32.gtb area f150_0 then "cluster"%string
      else "speck"%string in
    [mkDefect center boundingBox area type].

Definition analyzeDefects `{OpenCV} (defectMask : Mat) : list Defect :=
  flat_map analyze_contour (findContours defectMask).

Definition extractLensMask `{OpenCV} (gray : Mat) : Mat :=
  let mask := threshold gray 8 255 in
  let kernel := getStructuringElement MORPH_ELLIPSE (15, 15) in
  let mask := morph_close kernel mask in
  let mask := morph_open kernel mask in
  let contours := findContours mask in
  let cleanMask := zeros gray in
  match contours with
  | [] => cleanMask
  | _ :: _ =>
      let largest := fst (largest_loop contours 0 0 0) in
      drawContours cleanMask contours largest 255 FILLED
  end.

Definition correctIllumination `{OpenCV} (gray mask : Mat) (blurSize : Z) : option Mat :=
  let blurSize := if Z.rem blurSize 2 =? 0 then blurSize + 1 else blurSize in
  let floatGray := convertTo32F gray in
  match GaussianBlur floatGray (blurSize, blurSize) 0 with
  | None => None
  | Some background =>
      let corrected := divide (add_scalar floatGray Float32.one)
                              (add_scalar background Float32.one) in
      Some (normalize_minmax corrected 0 255 mask)
  end.

Definition detectDefects `{OpenCV} (corrected mask : Mat) (threshold : Z) : option Mat :=
  let enhanced := clahe_apply 3 (8, 8) corrected in
  let kernel := getStructuringElement MORPH_ELLIPSE (7, 7) in
  let tophat := morph_tophat kernel enhanced in
  let defectMask := Cv.threshold tophat threshold 255 in
  let noiseKernel := getStructuringElement MORPH_ELLIPSE (3, 3) in
  let defectMask := morph_open noiseKernel defectMask in
  bitwise_and defectMask mask.

Definition marker_colour (d : Defect) : Scalar :=
  if String.eqb (type d) "scratch" then (0, 0, 255)
  else if String.eqb (type d) "cluster" then (0, 165, 255)
  else (255, 0, 255).

Fixpoint draw_markers `{OpenCV} (display : ColorMat) (defects : list Defect) (i : Z)
  : ColorMat :=
  match defects with
  | [] => display
  | d :: rest =>
      let color := marker_colour d in
      let radius :=
        Float32.to_int
          (Float32.max (Float32.of_int 8)
             (Float32.of_int (Float32.to_int (Float32.sqrt (area d)) + 4))) in
      let display := circle display (center d) radius color 1 in
      let origin := (Float32.to_int (center_x d) + radius + 2,
                     Float32.to_int (center_y d) + 4) in
      let display := putText display (to_string (i + 1)) origin (4 # 10) color 1 in
      draw_markers display rest (i + 1)
  end.

Definition buildAnnotatedDisplay `{OpenCV} (corrected mask : Mat)
    (defects : list Defect) (pass : bool) (ratio : Float32.float) : ColorMat :=
  let display := cvtColorGray2Bgr corrected in
  let contours := findContours mask in
  let display := drawContoursColor display contours (-1) (0, 255, 0) 3 in
  draw_markers display defects 0.

End Legacy.

(** ** Vocabulary of the properties *)

(** The three labels a defect can carry. *)
Definition one_label (t : string) : Prop :=
  (t = "scratch"%string /\ t <> "cluster"%string /\ t <> "speck"%string) \/
  (t = "cluster"%string /\ t <> "scratch"%string /\ t <> "speck"%string) \/
  (t = "speck"%string /\ t <> "scratch"%string /\ t <> "cluster"%string).

(** The rule of [analyze_defects], read off its conditions in order. *)
Definition rule (ar area : Float32.float) : string :=
  if (Float32.gtb ar f2_5 || Float32.leb ar f0_70) && Float32.gtb area f5_0
  then "scratch"
  else if Float32.gtb area f150_0 then "cluster" else "speck".

(** ** A small concrete backend

    Used to run the definitions on examples: one rectangular contour
    around the whole image when any sample is set, rectangular
    structuring elements, and identities for the rest. *)

Definition demo_findContours (m : Mat) : list Contour :=
  if countNonZero m =? 0 then []
  else
    let h := Z.of_nat (List.length m) in
    let w := Z.of_nat (List.length (hd [] m)) in
    [[(0, 0); (0, h - 1); (w - 1, h - 1); (w - 1, 0)]].

Definition demo_kernel (ksize : Z * Z) : Kernel :=
  let rows := map (fun i => Z.of_nat i - snd ksize / 2) (seq 0 (Z.to_nat (snd ksize))) in
  let cols := map (fun i => Z.of_nat i - fst ksize / 2) (seq 0 (Z.to_nat (fst ksize))) in
  flat_map (fun r => map (fun c => (r, c)) cols) rows.

Definition demo_cv : OpenCV := {|
  FMat := Mat;
  ColorMat := list (list Scalar);
  getStructuringElement := fun _ ksize => demo_kernel ksize;
  findContours := demo_findContours;
  drawContours := fun image _ _ colour _ => map (map (fun _ => colour)) image;
  clahe_apply := fun _ _ m => m;
  convertTo32F := fun m => m;
  add_scalar := fun m _ => m;
  GaussianBlur := fun m _ _ => Some m;
  divide := fun a _ => a;
  normalize_minmax := fun m _ _ _ => m;
  cvtColorGray2Bgr := map (map (fun v => (v, v, v)));
  drawContoursColor := fun image _ _ _ _ => image;
  circle := fun image _ _ _ _ => image;
  putText := fun image _ _ _ _ _ => image
|}.

(** A 5 x 5 image with every sample set, and a 3 x 10 bar as a contour. *)
Definition full5 : Mat := repeat (repeat 255 5%nat) 5%nat.
Definition bar_3x10 : Contour := [(0, 0); (0, 9); (2, 9); (2, 0)].

(** A 7 x 7 image at grey level 50 with a 3 x 3 block at 200 in its
    middle, and the 7 x 7 mask with every sample set. *)
Definition speck7 : Mat :=
  let dark := repeat 50 7%nat in
  let lit := [50; 50; 200; 200; 200; 50; 50] in
  [dark; dark; lit; lit; lit; dark; dark].
Definition full7 : Mat := repeat (repeat 255 7%nat) 7%nat.

(** A second backend, with several contours: in any image with a sample
    set it finds four rectangles, of areas 4, 8, 8 and 4 in this order (a
    square at the top left, a bar of 8 x 1 at the top, a block of 4 x 2 at
    the left and a square at the bottom right), and it draws a contour by
    filling its bounding rectangle. *)
Definition rect_contour (x0 y0 w h : Z) : Contour :=
  [(x0, y0); (x0, y0 + h); (x0 + w, y0 + h); (x0 + w, y0)].

Definition blobs (m : Mat) : list Contour :=
  [ rect_contour 0 0 2 2;
    rect_contour (cols m / 2 - 3) 0 8 1;
    rect_contour 0 (rows m / 2) 4 2;
    rect_contour (cols m - 3) (rows m - 3) 2 2 ].

Definition blobs_findContours (m : Mat) : list Contour :=
  if countNonZero m =? 0 then [] else blobs m.

Definition fill_rect (r : Rect) (colour : Z) (image : Mat) : Mat :=
  build (fun row col =>
           if (x r <=? col) && (col <? x r + width r)
              && (y r <=? row) && (row <? y r + height r)
           then colour
           else match pixel image row col with Some v => v | None => 0 end)
        image.

Definition blobs_drawContours (image : Mat) (contours : list Contour)
    (idx colour thickness : Z) : Mat :=
  if idx <? 0
  then fold_left (fun im c => fill_rect (boundingRect c) colour im) contours image
  else match nth_error contours (Z.to_nat idx) with
       | Some c => fill_rect (boundingRect c) colour image
       | None => image
       end.

Definition blobs_cv : OpenCV := {|
  FMat := Mat;
  ColorMat := list (list Scalar);
  getStructuringElement := fun _ ksize => demo_kernel ksize;
  findContours := blobs_findContours;
  drawContours := blobs_drawContours;
  clahe_apply := fun _ _ m => m;
  convertTo32F := fun m => m;
  add_scalar := fun m _ => m;
  GaussianBlur := fun m _ _ => Some m;
  divide := fun a _ => a;
  normalize_minmax := fun m _ _ _ => m;
  cvtColorGray2Bgr := map (map (fun v => (v, v, v)));
  drawContoursColor := fun image _ _ _ _ => image;
  circle := fun image _ _ _ _ => image;
  putText := fun image _ _ _ _ _ => image
|}.

(** Images of 12 x 12 and of 200 x 200 with every sample set. *)
Definition full12 : Mat := repeat (repeat 255 12%nat) 12%nat.
Definition full200 : Mat := repeat (repeat 255 200%nat) 200%nat.

(** A lens mask of 449 x 449 = 201601 samples, all set, and a candidate
    mask of that size with one sample set. *)
Definition lens449 : Mat := repeat (repeat 255 449%nat) 449%nat.
Definition dot449 : Mat :=
  (255 :: repeat 0 448%nat) :: repeat (repeat 0 449%nat) 448%nat.

(** What the loop of [extract_lens_mask] has established once the
    contours [seen] are behind it. *)
Definition largest_inv (seen : list Contour) (largest max_area : Z) : Prop :=
  0 <= max_area /\ 0 <= largest /\
  (forall c, In c seen -> contourArea2 c <= max_area) /\
  (forall j c, (j < Z.to_nat largest)%nat -> nth_error seen j = Some c ->
               contourArea2 c < max_area) /\
  (seen = [] -> largest = 0 /\ max_area = 0) /\
  (seen <> [] -> exists c, nth_error seen (Z.to_nat largest) = Some c /\
                           contourArea2 c = max_area).

(** Two images of one shape whose samples at equal positions are related. *)
Definition rel2 (R : Z -> Z -> Prop) (a b : Mat) : Prop :=
  Forall2 (Forall2 R) a b.

(** Every sample satisfies [P]. *)
Definition all_pixels (P : Z -> Prop) (m : Mat) : Prop :=
  Forall (Forall P) m.

Definition is_binary (v : Z) : Prop := v = 0 \/ v = 255.
Definition is_zero (v : Z) : Prop := v = 0.

(** ** Vocabulary of the rounding lemmas *)

(** The record reached after [j] right shifts of the number whose
    mantissa, round bit and sticky bit make up [x = 4 m + 2 r + s]. *)
Definition shifted (x j : Z) : shr_record :=
  Build_shr_record (x / 2 ^ (j + 2)) (Z.odd (x / 2 ^ (j + 1)))
                   (negb (x mod 2 ^ (j + 1) =? 0)).

(** The round and sticky bits of a location, as a number below 4. *)
Definition loc_bits (l : location) : Z :=
  match l with
  | loc_Exact => 0
  | loc_Inexact Lt => 1
  | loc_Inexact Eq => 2
  | loc_Inexact Gt => 3
  end.

(** The mantissa [q], of [24 + sh] digits, rounded to 24 digits: [q] is
    followed by the round and sticky bits of [l]. *)
Definition round_up (q : Z) (l : location) (sh : Z) : bool :=
  let x := 4 * q + loc_bits l in
  Z.odd (x / 2 ^ (sh + 1)) && (negb (x mod 2 ^ (sh + 1) =? 0) || Z.odd (q / 2 ^ sh)).

(** The mantissa after rounding to nearest, ties to even. *)
Definition rounded (q : Z) (l : location) (sh : Z) : Z :=
  if round_up q l sh then q / 2 ^ sh + 1 else q / 2 ^ sh.

(** [n] rounded to 24 significant bits: mantissa and exponent. *)
Definition nearest (n : Z) : Z * Z :=
  let d := Zdigits2 n in
  if d <=? 24 then (n * 2 ^ (24 - d), d - 24)
  else
    let sh := d - 24 in
    if rounded n loc_Exact sh <? 2 ^ 24 then (rounded n loc_Exact sh, sh)
    else (2 ^ 23, sh + 1).

(** The order of two positive binary32 values with 24-bit mantissas. *)
Definition lex_le (a b : Z * Z) : Prop :=
  snd a < snd b \/ (snd a = snd b /\ fst a <= fst b).

(** The largest [int], the result type of [cv::countNonZero]. *)
Definition INT_MAX : Z := 2 ^ 31 - 1.

(** The ratio of [verdict] as a function of the two counts. *)
Definition ratio_of (lens defect : Z) : Float32.float :=
  Float32.div (Float32.of_int defect) (Float32.max (Float32.of_int lens) Float32.one).


(** ** Vocabulary of the further properties *)

(** The test of [analyze_defects] that lets a contour through. *)
Definition retained (c : Contour) : bool :=
  negb (Float32.ltb (Float32.of_half (contourArea2 c)) f2_0).

(** A sample of an 8-bit image. *)
Definition is_byte (v : Z) : Prop := 0 <= v <= 255.

(** [correct_illumination] from the blur on, for the kernel size [k] that
    the parity step has settled. *)
Definition illumination_with_kernel `{OpenCV} (gray mask : Mat) (k : Z) : option Mat :=
  let float_gray := convertTo32F gray in
  match GaussianBlur float_gray (k, k) 0 with
  | None => None
  | Some background =>
      let corrected := divide (add_scalar float_gray Float32.one)
                              (add_scalar background Float32.one) in
      Some (normalize_minmax corrected 0 255 mask)
  end.



(** The distance of [pb_analyzed_click] between a defect and the clicked
    point of the image. *)
Definition click_distance (d : Defect) (img_x img_y : Float32.float) : Float32.float :=
  let dx := Float32Ops.sub (center_x d) img_x in
  let dy := Float32Ops.sub (center_y d) img_y in
  Float32.sqrt (Float32Ops.add (Float32Ops.mul dx dx) (Float32Ops.mul dy dy)).

(** The search loop of [pb_analyzed_click]; the state is
    [(nearest_idx, nearest_dist)]. *)
Fixpoint nearest_loop (img_x img_y : Float32.float) (defects : list Defect)
    (i nearest_idx : Z) (nearest_dist : Float32.float) : Z * Float32.float :=
  match defects with
  | [] => (nearest_idx, nearest_dist)
  | d :: rest =>
      let dist := click_distance d img_x img_y in
      if Float32.ltb dist nearest_dist
      then nearest_loop img_x img_y rest (i + 1) i dist
      else nearest_loop img_x img_y rest (i + 1) nearest_idx nearest_dist
  end.

(** The point of the image under a click at [(me_X, me_Y)] in a picture
    box of [box_w] x [box_h] that shows an image of [img_w] x [img_h]. *)
Definition click_to_image (img_w img_h box_w box_h me_X me_Y : Z)
  : Float32.float * Float32.float :=
  let scale := Float32Ops.min (Float32.div (Float32.of_int box_w) (Float32.of_int img_w))
                              (Float32.div (Float32.of_int box_h) (Float32.of_int img_h)) in
  let off_x := Z.quot (box_w - Float32.to_int (Float32Ops.mul (Float32.of_int img_w) scale)) 2 in
  let off_y := Z.quot (box_h - Float32.to_int (Float32Ops.mul (Float32.of_int img_h) scale)) 2 in
  let img_x := Float32.div (Float32.of_int (me_X - off_x)) scale in
  let img_y := Float32Ops.sub (Float32.div (Float32.of_int (me_Y - off_y)) scale)
                              (Float32.of_int 70) in
  (img_x, img_y).

(** The index [pb_analyzed_click] hands to [select_defect]; [None] when
    it returns at its guard.  [img_w] and [img_h] are the dimensions of
    the stored display. *)
Definition pb_analyzed_target `{OpenCV} (ui : Ui) (img_w img_h box_w box_h me_X me_Y : Z)
  : option Z :=
  match stored_defects_ ui with
  | [] => None
  | _ :: _ =>
      if negb (has_image_ ui) then None
      else
        let '(img_x, img_y) := click_to_image img_w img_h box_w box_h me_X me_Y in
        Some (fst (nearest_loop img_x img_y (stored_defects_ ui) 0 0 Float32Ops.FLT_MAX))
  end.

Definition pb_analyzed_click `{OpenCV} (ui : Ui) (img_w img_h box_w box_h me_X me_Y : Z)
  : option Zoom :=
  match pb_analyzed_target ui img_w img_h box_w box_h me_X me_Y with
  | Some idx => select_defect ui idx
  | None => None
  end.

(** ** The display bitmap (defect_utils) *)

(** A matrix of three channels: the rows of its pixels, each with its
    channels in the order of the memory. *)
Definition Mat3 : Type := list (list (Z * Z * Z)).

(** A matrix handed to [mat_to_bitmap], by [mat.channels ()]. *)
Inductive AnyMat : Type :=
  | Gray (m : Mat)
  | Bgr (m : Mat3).

(** The two conversions of [cv::cvtColor] that [mat_to_bitmap] calls. *)
Class CvtColor : Type := {
  cvtColor_GRAY2BGR : Mat -> Mat3;
  cvtColor_BGR2RGB : Mat3 -> Mat3
}.

(** The matrix [rgb] of [mat_to_bitmap]. *)
Definition to_rgb `{CvtColor} (mat : AnyMat) : Mat3 :=
  let bgr := match mat with
             | Gray m => cvtColor_GRAY2BGR m
             | Bgr m => m
             end in
  cvtColor_BGR2RGB bgr.

(** The [rgb.cols * 3] bytes at [rgb.ptr (y)]. *)
Definition row_bytes (row : list (Z * Z * Z)) : list Z :=
  flat_map (fun p => match p with (c0, c1, c2) => [c0; c1; c2] end) row.

(** [memcpy (buf + off, src, n)] for the [n] bytes of [src], inside the
    buffer. *)
Definition memcpy (buf : list Z) (off : nat) (src : list Z) : list Z :=
  firstn off buf ++ src ++ skipn (off + List.length src) buf.

(** The copy loop of [mat_to_bitmap]; [y] is the index of the row at the
    head of [rws]. *)
Fixpoint copy_rows (buf : list Z) (stride : nat) (rws : Mat3) (y : nat) : list Z :=
  match rws with
  | [] => buf
  | row :: rest => copy_rows (memcpy buf (y * stride) (row_bytes row)) stride rest (S y)
  end.

(** [mat_to_bitmap]: the locked bytes of the bitmap after the copy, from
    the bytes [scan0] the new bitmap had and its stride. *)
Definition mat_to_bitmap `{CvtColor} (mat : AnyMat) (scan0 : list Z) (stride : nat)
  : list Z :=
  copy_rows scan0 stride (to_rgb mat) 0.

(** The two conversions on 8-bit samples, for the small backend. *)
#[export] Instance demo_cvtColor : CvtColor := {
  cvtColor_GRAY2BGR := map (map (fun v => (v, v, v)));
  cvtColor_BGR2RGB := map (map (fun p => match p with (b, g, r) => (r, g, b) end))
}.

(** ** Vocabulary of the inspection properties *)

(** The integer part of the centre of [d] lies in the image [m]. *)
Definition centre_inside (m : Mat) (d : Defect) : Prop :=
  0 <= Float32.to_int (center_x d) < cols m /\
  0 <= Float32.to_int (center_y d) < rows m.

(** What the search loop of [pb_analyzed_click] has established once the
    distances [seen] are behind it. *)
Definition nearest_inv (seen : list Float32.float) (idx : Z) (dist : Float32.float) : Prop :=
  (dist = Float32Ops.FLT_MAX /\ idx = 0 /\
   forall e, In e seen -> Float32.ltb e Float32Ops.FLT_MAX = false)
  \/
  (0 <= idx /\ nth_error seen (Z.to_nat idx) = Some dist /\
   Float32.ltb dist Float32Ops.FLT_MAX = true /\
   (forall e, In e seen -> Float32.ltb e dist = false) /\
   (forall j e, (j < Z.to_nat idx)%nat -> nth_error seen j = Some e ->
                Float32.leb e dist = false)).

(** A state after an analysis of the 5 x 5 image that found the one
    defect of the small backend. *)
Definition demo_ui : @Ui demo_cv :=
  @mkUi demo_cv true full5 full5 (Some full5) (@analyze_defects demo_cv full5) None None.

(** A state after an analysis of the 200 x 200 image that found the four
    defects of the second backend. *)
Definition blobs_ui : @Ui blobs_cv :=
  @mkUi blobs_cv true full200 full200 (Some full200) (@analyze_defects blobs_cv full200)
        None None.

(** * Properties *)

(** ** The float literals are the expected binary32 values *)

Example f0_70_bits : f0_70 = S754_finite false 11744051 (-24).
Proof. reflexivity. Qed.

Example f0_40_bits : f0_40 = S754_finite false 13421773 (-25).
Proof. reflexivity. Qed.

Example f2_5_bits : f2_5 = S754_finite false 10485760 (-22).
Proof. reflexivity. Qed.

Example f0_000005_bits : f0_000005 = S754_finite false 10995116 (-41).
Proof. reflexivity. Qed.

Example one_bits : Float32.one = S754_finite false 8388608 (-23).
Proof. reflexivity. Qed.

Example f2_0_bits : f2_0 = S754_finite false 8388608 (-22).
Proof. reflexivity. Qed.

Example f5_0_bits : f5_0 = S754_finite false 10485760 (-21).
Proof. reflexivity. Qed.

Example f20_0_bits : f20_0 = S754_finite false 10485760 (-19).
Proof. reflexivity. Qed.

Example f150_0_bits : f150_0 = S754_finite false 9830400 (-16).
Proof. reflexivity. Qed.

(** ** Comparison of binary32 values *)

Lemma compare_cont_antisym_eq (m1 m2 : positive) :
  Pos.compare_cont Eq m2 m1 = CompOpp (Pos.compare_cont Eq m1 m2).
Proof. exact (Pos.compare_antisym m1 m2). Qed.

Lemma SFcompare_antisym (a b : spec_float) (c : comparison) :
  SFcompare a b = Some c -> SFcompare b a = Some (CompOpp c).
Proof.
  destruct a as [sa|sa| |sa ma ea], b as [sb|sb| |sb mb eb]; simpl;
    try discriminate; intros E; inversion E as [E']; clear E E'; f_equal;
    try reflexivity;
    try (destruct sa; reflexivity);
    try (destruct sb; reflexivity);
    try (destruct sa, sb; reflexivity).
  rewrite (Z.compare_antisym ea eb), compare_cont_antisym_eq.
  destruct sa, sb; simpl; try reflexivity;
    destruct (ea ?= eb); simpl; try reflexivity;
    destruct (Pos.compare_cont Eq ma mb); reflexivity.
Qed.

Lemma leb_not_ltb (a b : Float32.float) :
  Float32.leb a b = true -> Float32.ltb b a = false.
Proof.
  unfold Float32.leb, Float32.ltb, SFleb, SFltb.
  destruct (SFcompare a b) as [c|] eqn:E; [|discriminate].
  rewrite (SFcompare_antisym _ _ _ E). destruct c; simpl; congruence.
Qed.

Lemma not_ltb_leb (a b : Float32.float) :
  a <> S754_nan -> b <> S754_nan ->
  Float32.ltb a b = false -> Float32.leb b a = true.
Proof.
  unfold Float32.leb, Float32.ltb, SFleb, SFltb. intros Ha Hb.
  destruct (SFcompare a b) as [c|] eqn:E.
  - rewrite (SFcompare_antisym _ _ _ E). destruct c; simpl; congruence.
  - destruct a, b; simpl in E; try discriminate; congruence.
Qed.

(** ** The decision rule *)

Lemma rule_one_label (ar area : Float32.float) : one_label (rule ar area).
Proof.
  unfold rule, one_label.
  destruct ((Float32.gtb ar f2_5 || Float32.leb ar f0_70) && Float32.gtb area f5_0);
    [|destruct (Float32.gtb area f150_0)].
  - left. repeat split; discriminate.
  - right; left. repeat split; discriminate.
  - right; right. repeat split; discriminate.
Qed.

Lemma analyze_contour_retained (c : Contour) :
  Float32.ltb (Float32.of_half (contourArea2 c)) f2_0 = false ->
  exists d, analyze_contour c = [d] /\
            area d = Float32.of_half (contourArea2 c) /\
            ar d = Float32.div (Float32.of_int (width (boundingRect c)))
                     (Float32.max (Float32.of_int (height (boundingRect c))) Float32.one) /\
            type d = rule (ar d) (area d).
Proof.
  intros Hlt. unfold analyze_contour. rewrite Hlt.
  eexists; split; [reflexivity|]. repeat split.
Qed.

(** C1: a contour found in the mask whose area is at least 2.0 is turned
    into exactly one record of the result; the record carries the area
    and the aspect ratio width / max (height, 1) of the contour, its type
    is the one the rule gives, in the order scratch, cluster, speck, and
    it is exactly one of the three labels. *)
Theorem C1_classification_total_exclusive `{OpenCV} (defect_mask : Mat) (c : Contour) :
  In c (findContours defect_mask) ->
  Float32.leb f2_0 (Float32.of_half (contourArea2 c)) = true ->
  exists d,
    analyze_contour c = [d] /\
    In d (analyze_defects defect_mask) /\
    area d = Float32.of_half (contourArea2 c) /\
    ar d = Float32.div (Float32.of_int (width (boundingRect c)))
             (Float32.max (Float32.of_int (height (boundingRect c))) Float32.one) /\
    type d =
      (if (Float32.gtb (ar d) f2_5 || Float32.leb (ar d) f0_70)
          && Float32.gtb (area d) f5_0
       then "scratch"%string
       else if Float32.gtb (area d) f150_0 then "cluster"%string
       else "speck"%string) /\
    one_label (type d).
Proof.
  intros Hin Hge.
  destruct (analyze_contour_retained c (leb_not_ltb _ _ Hge)) as (d & Hd & Ha & Hr & Ht).
  exists d. split; [exact Hd|]. split.
  - unfold analyze_defects. apply in_flat_map. exists c. split; [exact Hin|].
    rewrite Hd. left; reflexivity.
  - split; [exact Ha|]. split; [exact Hr|]. split; [exact Ht|].
    rewrite Ht. apply rule_one_label.
Qed.

Lemma C1_classification_total_exclusive_witness :
  exists d,
    analyze_contour [(0, 0); (0, 4); (4, 4); (4, 0)] = [d] /\
    In d (analyze_defects (H := demo_cv) full5) /\
    type d = "speck"%string.
Proof.
  destruct (C1_classification_total_exclusive (H := demo_cv) full5
              [(0, 0); (0, 4); (4, 4); (4, 0)]) as (d & Hd & Hin & _ & _ & Ht & _).
  - left; reflexivity.
  - reflexivity.
  - exists d. split; [exact Hd|]. split; [exact Hin|].
    vm_compute in Hd. inversion Hd. reflexivity.
Defined.

(** C2: the two classifiers are not the same function.  The 3 x 10 bar of
    area 18 is a scratch for [analyze_defects] (aspect ratio 0.3 is at
    most 0.70 and the area is above 5) and a speck for the older
    [analyzeDefects] (the area is not above 20). *)
Theorem C2_variants_differ :
  exists c : Contour,
    map type (analyze_contour c) = ["scratch"%string] /\
    map Legacy.type (Legacy.analyze_contour c) = ["speck"%string] /\
    map type (analyze_contour c) <> map Legacy.type (Legacy.analyze_contour c).
Proof.
  exists bar_3x10. split; [reflexivity|]. split; [reflexivity|].
  vm_compute. discriminate.
Qed.

(** ** Blur size *)

Lemma rem2_even (b : Z) : Z.even b = true -> Z.rem b 2 = 0.
Proof.
  intros E. apply Z.even_spec in E. destruct E as [k ->].
  rewrite Z.mul_comm. apply Z.rem_mul. discriminate.
Qed.

Lemma rem2_succ_even (b : Z) : Z.even b = true -> Z.rem (b + 1) 2 <> 0.
Proof.
  intros E. apply Z.even_spec in E. destruct E as [k ->]. intros R.
  pose proof (Z.quot_rem' (2 * k + 1) 2) as Q. rewrite R in Q. lia.
Qed.

(** C8: an even blur size gives the output of the next odd one; 100 and
    101 in particular. *)
Theorem C8_even_blur_size_incremented `{OpenCV} (gray mask : Mat) (blur_size : Z) :
  Z.even blur_size = true ->
  correct_illumination gray mask blur_size
  = correct_illumination gray mask (blur_size + 1)
  /\ correct_illumination gray mask 100 = correct_illumination gray mask 101.
Proof.
  intros E. split; [|reflexivity].
  unfold correct_illumination.
  rewrite (rem2_even _ E). simpl (0 =? 0).
  destruct (Z.eqb_spec (Z.rem (blur_size + 1) 2) 0) as [R|R].
  - destruct (rem2_succ_even _ E R).
  - reflexivity.
Qed.

Lemma C8_even_blur_size_incremented_witness :
  correct_illumination (H := demo_cv) full5 full5 100
  = correct_illumination (H := demo_cv) full5 full5 (100 + 1)
  /\ correct_illumination (H := demo_cv) full5 full5 100
     = correct_illumination (H := demo_cv) full5 full5 101.
Proof.
  apply (C8_even_blur_size_incremented (H := demo_cv) full5 full5 100).
  reflexivity.
Defined.

(** ** The annotated display *)

(** C10: [build_annotated_display] does not read [pass] and [ratio], and
    neither does the older [buildAnnotatedDisplay]. *)
Theorem C10_display_ignores_verdict `{OpenCV} (corrected mask : Mat)
    (defects : list Defect) (defects' : list Legacy.Defect)
    (pass1 pass2 : bool) (ratio1 ratio2 : Float32.float) :
  build_annotated_display corrected mask defects pass1 ratio1
  = build_annotated_display corrected mask defects pass2 ratio2
  /\ Legacy.buildAnnotatedDisplay corrected mask defects' pass1 ratio1
     = Legacy.buildAnnotatedDisplay corrected mask defects' pass2 ratio2.
Proof. split; reflexivity. Qed.

(** ** The single-header program runs the same segmentation, correction
    and extraction *)

Lemma legacy_same_bodies `{OpenCV} (gray mask : Mat) (n : Z) :
  Legacy.extractLensMask gray = extract_lens_mask gray /\
  Legacy.correctIllumination gray mask n = correct_illumination gray mask n /\
  Legacy.detectDefects gray mask n = detect_defects gray mask n.
Proof. repeat split. Qed.

(** ** The largest contour *)

Lemma contourArea2_nonneg (c : Contour) : 0 <= contourArea2 c.
Proof. unfold contourArea2. apply Z.abs_nonneg. Qed.

Ltac split_largest_inv :=
  unfold largest_inv; refine (conj _ (conj _ (conj _ (conj _ (conj _ _))))).

Lemma largest_inv_step (seen : list Contour) (c : Contour) (largest max_area : Z) :
  largest_inv seen largest max_area ->
  largest_inv (seen ++ [c])
    (if max_area <? contourArea2 c then Z.of_nat (List.length seen) else largest)
    (if max_area <? contourArea2 c then contourArea2 c else max_area).
Proof.
  intros (Hmx & Hlg & Hall & Hbefore & Hnil & Hcons).
  pose proof (contourArea2_nonneg c) as Hc.
  destruct (Z.ltb_spec max_area (contourArea2 c)) as [Hlt|Hge].
  - split_largest_inv.
    + lia.
    + lia.
    + intros c' Hin. apply in_app_or in Hin. destruct Hin as [Hin|[<-|[]]].
      * specialize (Hall _ Hin). lia.
      * lia.
    + intros j c'. rewrite Nat2Z.id. intros Hj Hnth.
      rewrite nth_error_app1 in Hnth by exact Hj.
      apply nth_error_In in Hnth. specialize (Hall _ Hnth). lia.
    + intros E. destruct seen; discriminate.
    + intros _. exists c. split; [|reflexivity].
      rewrite Nat2Z.id, nth_error_app2 by lia.
      rewrite Nat.sub_diag. reflexivity.
  - destruct seen as [|c0 seen'].
    + destruct (Hnil eq_refl) as [-> ->].
      split_largest_inv.
      * lia.
      * lia.
      * intros c' [<-|[]]. lia.
      * intros j c' Hj. simpl in Hj. lia.
      * intros E; discriminate.
      * intros _. exists c. split; [reflexivity|lia].
    + destruct Hcons as (cl & Hnth & Harea); [discriminate|].
      assert (Hin : (Z.to_nat largest < List.length (c0 :: seen'))%nat).
      { apply nth_error_Some. rewrite Hnth. discriminate. }
      split_largest_inv.
      * lia.
      * lia.
      * intros c' Hc'. apply in_app_or in Hc'. destruct Hc' as [Hc'|[<-|[]]].
        -- apply Hall, Hc'.
        -- lia.
      * intros j c' Hj Hn. rewrite nth_error_app1 in Hn by lia.
        apply (Hbefore j c' Hj Hn).
      * intros E; discriminate.
      * intros _. exists cl. split; [|exact Harea].
        rewrite nth_error_app1 by exact Hin. exact Hnth.
Qed.

Lemma largest_loop_inv (cs seen : list Contour) (largest max_area : Z) :
  largest_inv seen largest max_area ->
  largest_inv (seen ++ cs)
    (fst (largest_loop cs (Z.of_nat (List.length seen)) largest max_area))
    (snd (largest_loop cs (Z.of_nat (List.length seen)) largest max_area)).
Proof.
  revert seen largest max_area.
  induction cs as [|c rest IH]; intros seen largest max_area Hinv.
  - rewrite app_nil_r. exact Hinv.
  - pose proof (largest_inv_step seen c largest max_area Hinv) as Hstep.
    specialize (IH (seen ++ [c]) _ _ Hstep).
    rewrite <- app_assoc in IH. simpl app in IH.
    rewrite length_app in IH. simpl List.length in IH.
    replace (Z.of_nat (List.length seen + 1)) with (Z.of_nat (List.length seen) + 1) in IH by lia.
    simpl largest_loop.
    destruct (max_area <? contourArea2 c); exact IH.
Qed.

Lemma largest_inv_init : largest_inv [] 0 0.
Proof.
  split_largest_inv.
  - lia.
  - lia.
  - intros c [].
  - intros j c Hj. simpl in Hj. lia.
  - intros _. split; reflexivity.
  - intros E; destruct (E eq_refl).
Qed.

(** C9: with at least one contour, the mask is the filled drawing of one
    contour of the list; no contour has a larger area, and every contour
    before it in the traversal order has a strictly smaller one.  When
    every area is zero the drawn contour is the first. *)
Theorem C9_largest_contour_first_wins `{OpenCV} (gray : Mat) :
  let kernel := getStructuringElement MORPH_ELLIPSE (15, 15) in
  let contours :=
    findContours (morph_open kernel (morph_close kernel (threshold gray 8 255))) in
  contours <> [] ->
  exists (largest : Z) (c : Contour),
    extract_lens_mask gray = drawContours (zeros gray) contours largest 255 FILLED /\
    0 <= largest /\
    nth_error contours (Z.to_nat largest) = Some c /\
    (forall c', In c' contours -> contourArea2 c' <= contourArea2 c) /\
    (forall j c', (j < Z.to_nat largest)%nat -> nth_error contours j = Some c' ->
                  contourArea2 c' < contourArea2 c) /\
    ((forall c', In c' contours -> contourArea2 c' = 0) -> largest = 0).
Proof.
  intros kernel contours Hne.
  pose proof (largest_loop_inv contours [] 0 0 largest_inv_init) as Hinv.
  simpl in Hinv.
  destruct Hinv as (_ & Hlg & Hall & Hbefore & _ & Hcons).
  destruct (Hcons Hne) as (c & Hnth & Harea).
  exists (fst (largest_loop contours 0 0 0)), c.
  split.
  - unfold extract_lens_mask. fold kernel. fold contours.
    destruct contours; [destruct (Hne eq_refl)|reflexivity].
  - split; [exact Hlg|]. split; [exact Hnth|]. rewrite Harea.
    split; [exact Hall|]. split; [exact Hbefore|].
    intros Hzero.
    destruct (Z.eq_dec (fst (largest_loop contours 0 0 0)) 0) as [E|NE]; [exact E|].
    destruct contours as [|c0 rest]; [destruct (Hne eq_refl)|].
    assert (Hlt := Hbefore 0%nat c0 ltac:(lia) eq_refl).
    pose proof (contourArea2_nonneg c0).
    apply nth_error_In in Hnth. rewrite <- Harea, (Hzero _ Hnth) in Hlt. lia.
Qed.

Lemma C9_largest_contour_first_wins_witness :
  let contours :=
    @findContours blobs_cv
      (morph_open (demo_kernel (15, 15))
         (morph_close (demo_kernel (15, 15)) (threshold full12 8 255))) in
  map contourArea2 contours = [8; 16; 16; 8] /\
  exists (largest : Z) (c : Contour),
    largest = 1 /\
    @extract_lens_mask blobs_cv full12
    = @drawContours blobs_cv (zeros full12) contours largest 255 FILLED /\
    0 <= largest /\
    nth_error contours (Z.to_nat largest) = Some c /\
    (forall c', In c' contours -> contourArea2 c' <= contourArea2 c) /\
    (forall j c', (j < Z.to_nat largest)%nat -> nth_error contours j = Some c' ->
                  contourArea2 c' < contourArea2 c) /\
    ((forall c', In c' contours -> contourArea2 c' = 0) -> largest = 0).
Proof.
  intros contours.
  assert (E : contours = [rect_contour 0 0 2 2; rect_contour 3 0 8 1;
                          rect_contour 0 6 4 2; rect_contour 9 9 2 2])
    by (vm_compute; reflexivity).
  assert (Hne : contours <> []) by (rewrite E; discriminate).
  split; [rewrite E; reflexivity|].
  destruct (@C9_largest_contour_first_wins blobs_cv full12 Hne)
    as (largest & c & Hm & H0 & Hn & Hall & Hbefore & Hz).
  exists largest, c.
  split; [|split; [exact Hm|split; [exact H0|split; [exact Hn|
            split; [exact Hall|split; [exact Hbefore|exact Hz]]]]]].
  change (nth_error contours (Z.to_nat largest) = Some c) in Hn.
  change (forall c', In c' contours -> contourArea2 c' <= contourArea2 c) in Hall.
  change (forall j c', (j < Z.to_nat largest)%nat -> nth_error contours j = Some c' ->
                       contourArea2 c' < contourArea2 c) in Hbefore.
  rewrite E in Hn, Hall, Hbefore.
  pose proof (eq_refl : Z.to_nat largest = Z.to_nat largest) as En.
  set (n := Z.to_nat largest) in Hn, Hbefore, En at 1. clearbody n.
  destruct n as [|[|[|[|n]]]]; cbn [nth_error] in Hn.
  - injection Hn as <-.
    specialize (Hall (rect_contour 3 0 8 1) (or_intror (or_introl eq_refl))).
    vm_compute in Hall. destruct (Hall eq_refl).
  - lia.
  - injection Hn as <-.
    specialize (Hbefore 1%nat (rect_contour 3 0 8 1) ltac:(lia) eq_refl).
    vm_compute in Hbefore. discriminate Hbefore.
  - injection Hn as <-.
    specialize (Hall (rect_contour 3 0 8 1) (or_intror (or_introl eq_refl))).
    vm_compute in Hall. destruct (Hall eq_refl).
  - destruct n; discriminate Hn.
Defined.

(** ** Images *)

Section ImageLemmas.

Lemma imap_from_Forall2 {A B C D : Type} (P : A -> B -> Prop) (Q : C -> D -> Prop)
    (f : Z -> A -> C) (g : Z -> B -> D) (l : list A) (l' : list B) :
  Forall2 P l l' ->
  (forall i a b, P a b -> Q (f i a) (g i b)) ->
  forall s, Forall2 Q (imap_from s f l) (imap_from s g l').
Proof.
  intros HF Hfg. induction HF as [|a b l l' Hab _ IH]; intros s; simpl.
  - constructor.
  - constructor; [apply Hfg, Hab|apply IH].
Qed.

Lemma imap_from_ext {A B : Type} (f g : Z -> A -> B) (l : list A) :
  forall s,
    (forall n a, nth_error l n = Some a ->
                 f (s + Z.of_nat n) a = g (s + Z.of_nat n) a) ->
    imap_from s f l = imap_from s g l.
Proof.
  induction l as [|a l IH]; intros s Hfg; simpl; [reflexivity|].
  f_equal.
  - specialize (Hfg 0%nat a eq_refl). rewrite Z.add_0_r in Hfg. exact Hfg.
  - apply IH. intros n a' Hn. specialize (Hfg (S n) a' Hn).
    replace (s + 1 + Z.of_nat n) with (s + Z.of_nat (S n)) by lia. exact Hfg.
Qed.

Lemma imap_from_const {A B : Type} (h : A -> B) (l : list A) :
  forall s, imap_from s (fun _ a => h a) l = map h l.
Proof. induction l as [|a l IH]; intros s; simpl; [reflexivity|]. f_equal. apply IH. Qed.

Lemma rel2_refl_shape (R : Z -> Z -> Prop) (m : Mat) :
  (forall v, R v v) -> rel2 R m m.
Proof.
  intros HR. unfold rel2. induction m as [|row m IH]; constructor; [|exact IH].
  induction row; constructor; auto.
Qed.

Lemma rel2_impl (R S : Z -> Z -> Prop) (a b : Mat) :
  (forall u v, R u v -> S u v) -> rel2 R a b -> rel2 S a b.
Proof.
  intros HRS H. unfold rel2 in *.
  eapply Forall2_impl; [|exact H]. intros r r' Hr.
  eapply Forall2_impl; [|exact Hr]. exact HRS.
Qed.

Lemma Forall2_nth_error {A B : Type} (R : A -> B -> Prop) (l : list A) (l' : list B) :
  Forall2 R l l' ->
  forall n,
    match nth_error l n, nth_error l' n with
    | Some u, Some v => R u v
    | None, None => True
    | _, _ => False
    end.
Proof.
  induction 1 as [|u v l l' Huv _ IH]; intros n.
  - destruct n; exact I.
  - destruct n as [|n]; [exact Huv|apply IH].
Qed.

(** Related images have related samples at every position. *)
Lemma rel2_pixel (R : Z -> Z -> Prop) (a b : Mat) (r c : Z) :
  rel2 R a b ->
  match pixel a r c, pixel b r c with
  | Some u, Some v => R u v
  | None, None => True
  | _, _ => False
  end.
Proof.
  intros H. unfold pixel. destruct ((r <? 0) || (c <? 0)); [exact I|].
  pose proof (Forall2_nth_error _ _ _ H (Z.to_nat r)) as Hrow.
  destruct (nth_error a (Z.to_nat r)) as [ra|], (nth_error b (Z.to_nat r)) as [rb|];
    try contradiction; [|exact I].
  apply (Forall2_nth_error _ _ _ Hrow).
Qed.

Lemma rel2_neighbourhood (R : Z -> Z -> Prop) (k : Kernel) (a b : Mat) (r c : Z) :
  rel2 R a b -> Forall2 R (neighbourhood k a r c) (neighbourhood k b r c).
Proof.
  intros H. unfold neighbourhood. induction k as [|d k IH]; simpl; [constructor|].
  pose proof (rel2_pixel R a b (r + fst d) (c + snd d) H) as Hp.
  destruct (pixel a (r + fst d) (c + snd d)), (pixel b (r + fst d) (c + snd d));
    try contradiction; simpl; [constructor; assumption|exact IH].
Qed.

Lemma build_rel2 (R S : Z -> Z -> Prop) (f g : Z -> Z -> Z) (a b : Mat) :
  rel2 S a b -> (forall r c, R (f r c) (g r c)) -> rel2 R (build f a) (build g b).
Proof.
  intros Hab Hfg. unfold rel2, build.
  apply (imap_from_Forall2 (Forall2 S) (Forall2 R)); [exact Hab|].
  intros r ra rb Hr.
  apply (imap_from_Forall2 S R); [exact Hr|]. intros c u v _. apply Hfg.
Qed.

Lemma minimum_mono (l l' : list Z) :
  Forall2 Z.le l l' -> minimum l <= minimum l'.
Proof.
  unfold minimum. induction 1; simpl; lia.
Qed.

Lemma maximum_mono (l l' : list Z) :
  Forall2 Z.le l l' -> maximum l <= maximum l'.
Proof.
  unfold maximum. induction 1; simpl; lia.
Qed.

Lemma erode_mono (k : Kernel) (a b : Mat) :
  rel2 Z.le a b -> rel2 Z.le (erode k a) (erode k b).
Proof.
  intros H. unfold erode. apply (build_rel2 Z.le Z.le); [exact H|].
  intros r c. apply minimum_mono, rel2_neighbourhood, H.
Qed.

Lemma dilate_mono (k : Kernel) (a b : Mat) :
  rel2 Z.le a b -> rel2 Z.le (dilate k a) (dilate k b).
Proof.
  intros H. unfold dilate. apply (build_rel2 Z.le Z.le); [exact H|].
  intros r c. apply maximum_mono, rel2_neighbourhood, H.
Qed.

Lemma morph_open_mono (k : Kernel) (a b : Mat) :
  rel2 Z.le a b -> rel2 Z.le (morph_open k a) (morph_open k b).
Proof. intros H. unfold morph_open. apply dilate_mono, erode_mono, H. Qed.


(** *** Shapes *)

Lemma imap_from_length {A B : Type} (f : Z -> A -> B) (l : list A) :
  forall s, List.length (imap_from s f l) = List.length l.
Proof. induction l; intros s; simpl; [reflexivity|]. f_equal. auto. Qed.

Lemma size_build (f : Z -> Z -> Z) (m : Mat) : size (build f m) = size m.
Proof.
  unfold size, build. generalize 0 at 1. induction m as [|row m IH]; intros s; simpl.
  - reflexivity.
  - f_equal; [apply imap_from_length|apply IH].
Qed.

Lemma size_map (h : Z -> Z) (m : Mat) : size (map (map h) m) = size m.
Proof.
  unfold size. induction m as [|row m IH]; simpl; [reflexivity|].
  f_equal; [apply length_map|exact IH].
Qed.

Lemma zip_with_length {A B C : Type} (f : A -> B -> C) (a : list A) (b : list B) :
  List.length a = List.length b -> List.length (zip_with f a b) = List.length a.
Proof.
  revert b. induction a as [|u a IH]; intros [|v b] E; simpl in *; try discriminate;
    [reflexivity|]. f_equal. apply IH. congruence.
Qed.

Lemma size_zip (f : Z -> Z -> Z) (a b : Mat) :
  size a = size b -> size (zip_with (zip_with f) a b) = size a.
Proof.
  unfold size. revert b. induction a as [|ra a IH]; intros [|rb b] E; simpl in *;
    try discriminate; [reflexivity|].
  inversion E. f_equal; [apply zip_with_length; assumption|apply IH; assumption].
Qed.

Lemma size_erode (k : Kernel) (m : Mat) : size (erode k m) = size m.
Proof. apply size_build. Qed.

Lemma size_dilate (k : Kernel) (m : Mat) : size (dilate k m) = size m.
Proof. apply size_build. Qed.

Lemma size_morph_open (k : Kernel) (m : Mat) : size (morph_open k m) = size m.
Proof. unfold morph_open. rewrite size_dilate. apply size_erode. Qed.

Lemma size_morph_close (k : Kernel) (m : Mat) : size (morph_close k m) = size m.
Proof. unfold morph_close. rewrite size_erode. apply size_dilate. Qed.

Lemma size_morph_tophat (k : Kernel) (m : Mat) : size (morph_tophat k m) = size m.
Proof.
  unfold morph_tophat, subtract. apply size_zip. symmetry. apply size_morph_open.
Qed.

Lemma size_threshold (m : Mat) (t v : Z) : size (threshold m t v) = size m.
Proof. apply size_map. Qed.

Lemma size_zeros (m : Mat) : size (zeros m) = size m.
Proof. apply size_map. Qed.

Lemma same_size_true (a b : Mat) : same_size a b = true <-> size a = size b.
Proof.
  unfold same_size. destruct (list_eq_dec Nat.eq_dec (size a) (size b)); split;
    congruence.
Qed.

Lemma length_Forall2_True {A B : Type} (l : list A) (l' : list B) :
  List.length l = List.length l' -> Forall2 (fun _ _ => True) l l'.
Proof.
  revert l'. induction l as [|a l IH]; intros [|b l'] E; simpl in E; try discriminate;
    constructor; [exact I|apply IH; congruence].
Qed.

Lemma size_rel2 (a b : Mat) : size a = size b -> rel2 (fun _ _ => True) a b.
Proof.
  unfold size, rel2. revert b. induction a as [|ra a IH]; intros [|rb b] E;
    simpl in E; try discriminate; constructor.
  - apply length_Forall2_True. congruence.
  - apply IH. congruence.
Qed.

Lemma rel2_size (R : Z -> Z -> Prop) (a b : Mat) : rel2 R a b -> size a = size b.
Proof.
  unfold size, rel2. induction 1 as [|ra rb a b Hr _ IH]; simpl; [reflexivity|].
  f_equal; [|exact IH]. induction Hr; simpl; congruence.
Qed.

(** *** Samples with a property *)

Lemma all_pixels_pixel (P : Z -> Prop) (m : Mat) (r c v : Z) :
  all_pixels P m -> pixel m r c = Some v -> P v.
Proof.
  unfold all_pixels, pixel. intros H.
  destruct ((r <? 0) || (c <? 0)); [discriminate|].
  destruct (nth_error m (Z.to_nat r)) as [row|] eqn:E; [|discriminate].
  intros Hv. apply nth_error_In in E, Hv.
  rewrite Forall_forall in H. specialize (H _ E).
  rewrite Forall_forall in H. exact (H _ Hv).
Qed.

Lemma all_pixels_neighbourhood (P : Z -> Prop) (k : Kernel) (m : Mat) (r c : Z) :
  all_pixels P m -> Forall P (neighbourhood k m r c).
Proof.
  intros H. unfold neighbourhood. induction k as [|d k IH]; simpl; [constructor|].
  destruct (pixel m (r + fst d) (c + snd d)) as [v|] eqn:E; simpl; [|exact IH].
  constructor; [exact (all_pixels_pixel P m _ _ v H E)|exact IH].
Qed.

Lemma imap_from_Forall {A B : Type} (P : B -> Prop) (f : Z -> A -> B) (l : list A) :
  (forall i a, P (f i a)) -> forall s, Forall P (imap_from s f l).
Proof. intros H. induction l; intros s; simpl; constructor; auto. Qed.

Lemma all_pixels_build (P : Z -> Prop) (f : Z -> Z -> Z) (m : Mat) :
  (forall r c, P (f r c)) -> all_pixels P (build f m).
Proof.
  intros H. unfold all_pixels, build. apply imap_from_Forall. intros r row.
  apply imap_from_Forall. intros c _. apply H.
Qed.

Lemma all_pixels_map (P : Z -> Prop) (h : Z -> Z) (m : Mat) :
  (forall v, P (h v)) -> all_pixels P (map (map h) m).
Proof.
  intros H. unfold all_pixels. apply Forall_map, Forall_forall. intros row _.
  apply Forall_map, Forall_forall. intros v _. apply H.
Qed.

Lemma minimum_binary (l : list Z) : Forall is_binary l -> is_binary (minimum l).
Proof.
  unfold minimum, is_binary. induction 1 as [|v l Hv _ IH]; simpl; [right; reflexivity|].
  destruct Hv, IH; lia.
Qed.

Lemma maximum_binary (l : list Z) : Forall is_binary l -> is_binary (maximum l).
Proof.
  unfold maximum, is_binary. induction 1 as [|v l Hv _ IH]; simpl; [left; reflexivity|].
  destruct Hv, IH; lia.
Qed.

Lemma erode_binary (k : Kernel) (m : Mat) :
  all_pixels is_binary m -> all_pixels is_binary (erode k m).
Proof.
  intros H. apply all_pixels_build. intros r c.
  apply minimum_binary, all_pixels_neighbourhood, H.
Qed.

Lemma dilate_binary (k : Kernel) (m : Mat) :
  all_pixels is_binary m -> all_pixels is_binary (dilate k m).
Proof.
  intros H. apply all_pixels_build. intros r c.
  apply maximum_binary, all_pixels_neighbourhood, H.
Qed.

Lemma threshold_binary (m : Mat) (t : Z) : all_pixels is_binary (threshold m t 255).
Proof.
  apply all_pixels_map. intros v. unfold is_binary. destruct (t <? v); auto.
Qed.

Lemma threshold_antitone (m : Mat) (t1 t2 : Z) :
  t1 <= t2 -> rel2 Z.le (threshold m t2 255) (threshold m t1 255).
Proof.
  intros Ht. unfold rel2, threshold.
  induction m as [|row m IH]; simpl; constructor; [|exact IH].
  induction row as [|v row IHr]; simpl; constructor; [|exact IHr].
  destruct (Z.ltb_spec t2 v), (Z.ltb_spec t1 v); lia.
Qed.

Lemma Forall2_and_l {A B : Type} (R : A -> B -> Prop) (P : A -> Prop)
    (l : list A) (l' : list B) :
  Forall2 R l l' -> Forall P l -> Forall2 (fun u v => R u v /\ P u) l l'.
Proof.
  induction 1 as [|u v l l' Huv _ IH]; intros Hall; constructor;
    inversion Hall; subst; [split; assumption|apply IH; assumption].
Qed.

Lemma Forall2_and_r {A B : Type} (R : A -> B -> Prop) (P : B -> Prop)
    (l : list A) (l' : list B) :
  Forall2 R l l' -> Forall P l' -> Forall2 (fun u v => R u v /\ P v) l l'.
Proof.
  induction 1 as [|u v l l' Huv _ IH]; intros Hall; constructor;
    inversion Hall; subst; [split; assumption|apply IH; assumption].
Qed.

Lemma rel2_all_l (R : Z -> Z -> Prop) (P : Z -> Prop) (a b : Mat) :
  rel2 R a b -> all_pixels P a -> rel2 (fun u v => R u v /\ P u) a b.
Proof.
  unfold rel2, all_pixels. intros H Hall.
  pose proof (Forall2_and_l _ _ _ _ H Hall) as H2.
  eapply Forall2_impl; [|exact H2]. intros ra rb [Hr Hra].
  apply Forall2_and_l; assumption.
Qed.

Lemma rel2_all_r (R : Z -> Z -> Prop) (P : Z -> Prop) (a b : Mat) :
  rel2 R a b -> all_pixels P b -> rel2 (fun u v => R u v /\ P v) a b.
Proof.
  unfold rel2, all_pixels. intros H Hall.
  pose proof (Forall2_and_r _ _ _ _ H Hall) as H2.
  eapply Forall2_impl; [|exact H2]. intros ra rb [Hr Hrb].
  apply Forall2_and_r; assumption.
Qed.

(** *** Sample-wise combination *)

Lemma zip_with_rel_r {A : Type} (S T : A -> A -> Prop) (f : A -> A -> A)
    (a b : list A) :
  Forall2 S a b -> (forall u q, S u q -> T (f u q) q) ->
  Forall2 T (zip_with f a b) b.
Proof. intros H Hf. induction H; simpl; constructor; auto. Qed.

Lemma zip2_rel_r (S T : Z -> Z -> Prop) (f : Z -> Z -> Z) (a b : Mat) :
  rel2 S a b -> (forall u q, S u q -> T (f u q) q) ->
  rel2 T (zip_with (zip_with f) a b) b.
Proof.
  intros H Hf. unfold rel2 in *.
  apply (zip_with_rel_r (Forall2 S) (Forall2 T)); [exact H|].
  intros ra rb Hr. apply (zip_with_rel_r S T); assumption.
Qed.

Lemma zip_with_rel_l {A : Type} (R S T : A -> A -> Prop) (f : A -> A -> A)
    (a a' b : list A) :
  Forall2 R a a' -> Forall2 S a b ->
  (forall u u' q, R u u' -> S u q -> T (f u q) (f u' q)) ->
  Forall2 T (zip_with f a b) (zip_with f a' b).
Proof.
  intros H. revert b. induction H as [|u u' a a' Hu _ IH]; intros b Hb Hf;
    inversion Hb; subst; simpl; constructor; eauto.
Qed.

Lemma zip2_rel_l (R S T : Z -> Z -> Prop) (f : Z -> Z -> Z) (a a' b : Mat) :
  rel2 R a a' -> rel2 S a b ->
  (forall u u' q, R u u' -> S u q -> T (f u q) (f u' q)) ->
  rel2 T (zip_with (zip_with f) a b) (zip_with (zip_with f) a' b).
Proof.
  intros H Hb Hf. unfold rel2 in *.
  apply (zip_with_rel_l (Forall2 R) (Forall2 S) (Forall2 T)); [exact H|exact Hb|].
  intros ra ra' rb Hr Hs. apply (zip_with_rel_l R S T); assumption.
Qed.

(** *** Counting *)

Lemma filter_nonzero_le (ra rb : list Z) :
  Forall2 (fun p q => p <> 0 -> q <> 0) ra rb ->
  (List.length (filter nonzero ra) <= List.length (filter nonzero rb))%nat.
Proof.
  induction 1 as [|p q ra rb Hpq _ IH]; simpl; [lia|].
  destruct (nonzero p) eqn:Ep, (nonzero q) eqn:Eq; simpl; try lia.
  unfold nonzero in Ep, Eq.
  apply negb_true_iff, Z.eqb_neq in Ep. apply negb_false_iff, Z.eqb_eq in Eq.
  destruct (Hpq Ep Eq).
Qed.

Lemma countNonZero_mono (a b : Mat) :
  rel2 (fun p q => p <> 0 -> q <> 0) a b -> countNonZero a <= countNonZero b.
Proof.
  unfold rel2, countNonZero. induction 1 as [|ra rb a b Hr _ IH]; simpl; [lia|].
  pose proof (filter_nonzero_le _ _ Hr). lia.
Qed.

Lemma countNonZero_nonneg (m : Mat) : 0 <= countNonZero m.
Proof. unfold countNonZero. induction m; simpl; lia. Qed.

End ImageLemmas.

(** ** The defect extractor *)

Lemma bitwise_and_Some (a b r : Mat) :
  bitwise_and a b = Some r ->
  size a = size b /\ r = zip_with (zip_with Z.land) a b.
Proof.
  unfold bitwise_and. destruct (same_size a b) eqn:E; [|discriminate].
  intros Hr. inversion Hr. split; [apply same_size_true, E|reflexivity].
Qed.

Lemma land_not8_binary (u q : Z) :
  is_binary u -> Z.land (Z.land u q) (not8 q) = 0.
Proof.
  intros [->| ->]; [reflexivity|]. unfold not8.
  apply Z.bits_inj'. intros n Hn.
  rewrite !Z.land_spec, Z.lxor_spec, Z.bits_0.
  change 255 with (Z.ones 8).
  destruct (Z.ltb_spec n 8).
  - rewrite Z.ones_spec_low by lia. destruct (Z.testbit q n); reflexivity.
  - rewrite Z.ones_spec_high by lia. reflexivity.
Qed.

Lemma land_nonzero_r (u q : Z) : Z.land u q <> 0 -> q <> 0.
Proof. intros H ->. apply H, Z.land_0_r. Qed.

Lemma land_nonzero_l (u q : Z) : Z.land u q <> 0 -> u <> 0.
Proof. intros H ->. apply H, Z.land_0_l. Qed.

(** The thresholded and opened top-hat response is a binary image of the
    shape of the enhanced image. *)
Lemma opened_response_binary (k : Kernel) (m : Mat) (t : Z) :
  all_pixels is_binary (morph_open k (threshold m t 255)).
Proof. unfold morph_open. apply dilate_binary, erode_binary, threshold_binary. Qed.

Lemma opened_response_size (k : Kernel) (m : Mat) (t : Z) :
  size (morph_open k (threshold m t 255)) = size m.
Proof. rewrite size_morph_open. apply size_threshold. Qed.

Lemma detect_defects_returns `{OpenCV} (corrected mask : Mat) (threshold : Z) :
  same_size (clahe_apply 3 (8, 8) corrected) mask = true <->
  exists cand, detect_defects corrected mask threshold = Some cand.
Proof.
  unfold detect_defects, bitwise_and.
  set (x := morph_open _ _).
  assert (Hs : size x = size (clahe_apply 3 (8, 8) corrected)).
  { unfold x. rewrite opened_response_size. apply size_morph_tophat. }
  split.
  - intros E. apply same_size_true in E.
    assert (E' : same_size x mask = true) by (apply same_size_true; congruence).
    rewrite E'. eexists; reflexivity.
  - intros [cand Hc]. destruct (same_size x mask) eqn:E; [|discriminate].
    apply same_size_true in E. apply same_size_true. congruence.
Qed.

(** C3: a candidate mask that [detect_defects] returns has the shape of
    the lens mask, and at every position its sample [p] and the sample [q]
    of the lens mask satisfy [p AND NOT q = 0]; a foreground sample of the
    candidate mask lies on a foreground sample of the lens mask. *)
Theorem C3_candidates_inside_mask `{OpenCV} (corrected mask : Mat) (threshold : Z)
    (cand : Mat) :
  detect_defects corrected mask threshold = Some cand ->
  size cand = size mask /\
  forall r c p, pixel cand r c = Some p ->
    exists q, pixel mask r c = Some q /\
              Z.land p (not8 q) = 0 /\ (p <> 0 -> q <> 0).
Proof.
  unfold detect_defects. intros Hd.
  apply bitwise_and_Some in Hd. destruct Hd as [Hsize ->].
  set (x := morph_open _ _) in *.
  assert (Hrel : rel2 (fun p q => Z.land p (not8 q) = 0 /\ (p <> 0 -> q <> 0))
                   (zip_with (zip_with Z.land) x mask) mask).
  { apply (zip2_rel_r (fun u _ => True /\ is_binary u)).
    - apply rel2_all_l; [apply size_rel2, Hsize|apply opened_response_binary].
    - intros u q [_ Hu]. split; [apply land_not8_binary, Hu|apply land_nonzero_r]. }
  split; [apply (rel2_size _ _ _ Hrel)|].
  intros r c p Hp. pose proof (rel2_pixel _ _ _ r c Hrel) as Hpix.
  rewrite Hp in Hpix. destruct (pixel mask r c) as [q|]; [|contradiction].
  exists q. split; [reflexivity|exact Hpix].
Qed.

Lemma C3_candidates_inside_mask_witness :
  exists cand,
    @detect_defects demo_cv speck7 full7 10 = Some cand /\
    size cand = size full7 /\
    forall r c p, pixel cand r c = Some p ->
      exists q, pixel full7 r c = Some q /\
                Z.land p (not8 q) = 0 /\ (p <> 0 -> q <> 0).
Proof.
  eexists. split; [vm_compute; reflexivity|].
  apply (@C3_candidates_inside_mask demo_cv speck7 full7 10).
  vm_compute; reflexivity.
Defined.

(** C5: raising the threshold can only remove foreground samples from the
    candidate mask, so its count of foreground samples does not grow. *)
Theorem C5_threshold_monotone `{OpenCV} (corrected mask : Mat) (t1 t2 : Z)
    (cand1 : Mat) :
  t1 <= t2 ->
  detect_defects corrected mask t1 = Some cand1 ->
  exists cand2,
    detect_defects corrected mask t2 = Some cand2 /\
    rel2 (fun p2 p1 => p2 <> 0 -> p1 <> 0) cand2 cand1 /\
    countNonZero cand2 <= countNonZero cand1.
Proof.
  intros Ht Hd1.
  destruct (proj1 (detect_defects_returns corrected mask t2)) as [cand2 Hd2].
  { apply (detect_defects_returns corrected mask t1). exists cand1. exact Hd1. }
  exists cand2. split; [exact Hd2|].
  unfold detect_defects in Hd1, Hd2.
  apply bitwise_and_Some in Hd1, Hd2.
  destruct Hd1 as [Hs1 ->], Hd2 as [Hs2 ->].
  set (nk := getStructuringElement MORPH_ELLIPSE (3, 3)) in *.
  set (tophat := morph_tophat _ _) in *.
  assert (Hrel : rel2 (fun p2 p1 => p2 <> 0 -> p1 <> 0)
                   (zip_with (zip_with Z.land) (morph_open nk (Cv.threshold tophat t2 255)) mask)
                   (zip_with (zip_with Z.land) (morph_open nk (Cv.threshold tophat t1 255)) mask)).
  { apply (zip2_rel_l (fun u2 u1 => (u2 <= u1 /\ is_binary u2) /\ is_binary u1)
                      (fun _ _ => True)).
    - apply rel2_all_r; [|apply opened_response_binary].
      apply rel2_all_l; [|apply opened_response_binary].
      apply morph_open_mono, threshold_antitone, Ht.
    - apply size_rel2, Hs2.
    - intros u2 u1 q [[Hle Hb2] Hb1] _ Hnz.
      assert (u2 = 255) by (apply land_nonzero_l in Hnz; destruct Hb2; lia).
      assert (u1 = 255) by (destruct Hb1; lia).
      subst. exact Hnz. }
  split; [exact Hrel|apply countNonZero_mono, Hrel].
Qed.

Lemma C5_threshold_monotone_witness :
  exists cand1 cand2,
    @detect_defects demo_cv speck7 full7 10 = Some cand1 /\
    @detect_defects demo_cv speck7 full7 160 = Some cand2 /\
    countNonZero cand1 = 9 /\
    countNonZero cand2 <= countNonZero cand1.
Proof.
  eexists.
  destruct (@C5_threshold_monotone demo_cv speck7 full7 10 160 _ ltac:(lia)
              ltac:(vm_compute; reflexivity)) as (cand2 & H2 & _ & Hle).
  exists cand2. split; [reflexivity|]. split; [exact H2|]. split; [reflexivity|exact Hle].
Defined.

(** ** The all-black image *)

Lemma map2_ext_all (f g : Z -> Z) (m : Mat) :
  all_pixels (fun v => f v = g v) m -> map (map f) m = map (map g) m.
Proof.
  unfold all_pixels. intros H. apply map_ext_in. intros row Hrow.
  rewrite Forall_forall in H. specialize (H _ Hrow). rewrite Forall_forall in H.
  apply map_ext_in. exact H.
Qed.

Lemma zeros_all_zero (m : Mat) : all_pixels is_zero m -> zeros m = m.
Proof.
  intros H. unfold zeros. rewrite (map2_ext_all _ (fun v => v)).
  - rewrite <- (map_id m) at 2. apply map_ext. intros row. apply map_id.
  - eapply Forall_impl; [|exact H]. intros row Hr.
    eapply Forall_impl; [|exact Hr]. intros v Hv. symmetry. exact Hv.
Qed.

Lemma all_zero_zeros (m : Mat) : all_pixels is_zero (zeros m).
Proof. apply all_pixels_map. reflexivity. Qed.

Lemma threshold_all_zero (m : Mat) (t : Z) :
  0 <= t -> all_pixels is_zero m -> threshold m t 255 = zeros m.
Proof.
  intros Ht H. unfold threshold, zeros. apply map2_ext_all.
  eapply Forall_impl; [|exact H]. intros row Hr.
  eapply Forall_impl; [|exact Hr]. intros v ->.
  destruct (Z.ltb_spec t 0); [lia|reflexivity].
Qed.

Lemma build_ext (f g : Z -> Z -> Z) (m : Mat) :
  (forall r c v, pixel m r c = Some v -> f r c = g r c) -> build f m = build g m.
Proof.
  intros H. unfold build. apply imap_from_ext. intros n row Hrow.
  apply imap_from_ext. intros k v Hv. simpl. apply (H _ _ v).
  unfold pixel.
  destruct (Z.ltb_spec (Z.of_nat n) 0); [lia|].
  destruct (Z.ltb_spec (Z.of_nat k) 0); [lia|]. simpl.
  rewrite !Nat2Z.id, Hrow. exact Hv.
Qed.

Lemma build_zero (m : Mat) : build (fun _ _ => 0) m = zeros m.
Proof.
  unfold build, zeros. rewrite imap_from_const. apply map_ext. intros row.
  apply imap_from_const.
Qed.

Lemma maximum_all_zero (l : list Z) : Forall is_zero l -> maximum l = 0.
Proof. unfold maximum, is_zero. induction 1; simpl; lia. Qed.

Lemma minimum_all_zero (l : list Z) (v : Z) :
  Forall is_zero l -> In v l -> minimum l = 0.
Proof.
  unfold minimum, is_zero. intros H Hin.
  assert (Hb : forall l', Forall (fun v => v = 0) l' -> 0 <= fold_right Z.min 255 l').
  { induction 1; simpl; lia. }
  destruct H as [|u l Hu Hl]; [destruct Hin|]. simpl.
  specialize (Hb _ Hl). lia.
Qed.

Lemma neighbourhood_centre (k : Kernel) (m : Mat) (r c v : Z) :
  In (0, 0) k -> pixel m r c = Some v -> In v (neighbourhood k m r c).
Proof.
  intros Hk Hp. unfold neighbourhood. apply in_flat_map. exists (0, 0).
  split; [exact Hk|]. simpl. rewrite !Z.add_0_r, Hp. left; reflexivity.
Qed.

Lemma dilate_all_zero (k : Kernel) (m : Mat) :
  all_pixels is_zero m -> dilate k m = zeros m.
Proof.
  intros H. unfold dilate. rewrite <- build_zero. apply build_ext.
  intros r c v _. apply maximum_all_zero, all_pixels_neighbourhood, H.
Qed.

Lemma erode_all_zero (k : Kernel) (m : Mat) :
  In (0, 0) k -> all_pixels is_zero m -> erode k m = zeros m.
Proof.
  intros Hk H. unfold erode. rewrite <- build_zero. apply build_ext.
  intros r c v Hp. apply (minimum_all_zero _ v).
  - apply all_pixels_neighbourhood, H.
  - apply neighbourhood_centre; assumption.
Qed.

Lemma countNonZero_all_zero (m : Mat) : all_pixels is_zero m -> countNonZero m = 0.
Proof.
  unfold all_pixels, countNonZero. induction 1 as [|row m Hrow _ IH]; simpl; [reflexivity|].
  rewrite IH. replace (filter nonzero row) with (@nil Z); [reflexivity|].
  induction Hrow as [|v row Hv _ IHr]; simpl; [reflexivity|].
  unfold is_zero in Hv. subst v. simpl. exact IHr.
Qed.

Lemma zip_land_all_zero (a z : Mat) :
  size a = size z -> all_pixels is_zero z -> zip_with (zip_with Z.land) a z = z.
Proof.
  unfold size, all_pixels. revert z.
  induction a as [|ra a IH]; intros [|rz z] E Hz; simpl in *; try discriminate;
    [reflexivity|]. inversion E as [[El Et]]. inversion Hz as [|? ? Hrz Hz']; subst.
  f_equal; [|apply IH; assumption]. clear -El Hrz. revert rz El Hrz.
  induction ra as [|u ra IHr]; intros [|q rz] El Hrz; simpl in *; try discriminate;
    [reflexivity|]. inversion Hrz as [|? ? Hq Hrz']; subst.
  unfold is_zero in Hq. subst q. rewrite Z.land_0_r. f_equal.
  apply IHr; [congruence|assumption].
Qed.

Lemma extract_lens_mask_all_zero `{OpenCV} (gray : Mat) :
  all_pixels is_zero gray ->
  In (0, 0) (getStructuringElement MORPH_ELLIPSE (15, 15)) ->
  findContours (zeros gray) = [] ->
  extract_lens_mask gray = zeros gray.
Proof.
  intros Hz Hk Hc. unfold extract_lens_mask.
  rewrite (threshold_all_zero gray 8) by (lia || exact Hz).
  unfold morph_close, morph_open.
  pose proof (zeros_all_zero gray Hz) as Egray. rewrite Egray.
  rewrite (dilate_all_zero _ gray Hz), Egray.
  rewrite (erode_all_zero _ gray Hk Hz), Egray.
  rewrite (erode_all_zero _ gray Hk Hz), Egray.
  rewrite (dilate_all_zero _ gray Hz), Egray.
  rewrite Egray in Hc. rewrite Hc. reflexivity.
Qed.

(** C7: on an all-zero image the lens mask is the all-zero image of the
    same dimensions, and the analysis then ends with no defect, a ratio of
    +0 and a pass, whatever the form held before the image was loaded. *)
Theorem C7_all_zero_image `{OpenCV} (ui0 : Ui) (gray corrected : Mat)
    (blur_size threshold : Z) :
  all_pixels is_zero gray ->
  In (0, 0) (getStructuringElement MORPH_ELLIPSE (15, 15)) ->
  findContours (zeros gray) = [] ->
  correct_illumination gray (zeros gray) blur_size = Some corrected ->
  size (clahe_apply 3 (8, 8) corrected) = size gray ->
  extract_lens_mask gray = zeros gray /\
  size (extract_lens_mask gray) = size gray /\
  exists ui,
    btn_analyze_click (btn_load_click ui0 gray) blur_size threshold = Some ui /\
    stored_defects_ ui = [] /\
    lbl_verdict_ ui = Some (mkVerdict true (S754_zero false) 0).
Proof.
  intros Hz Hk Hc Hcorr Hsize.
  pose proof (extract_lens_mask_all_zero gray Hz Hk Hc) as Hmask.
  split; [exact Hmask|]. split; [rewrite Hmask; apply size_zeros|].
  unfold btn_analyze_click, btn_load_click. simpl.
  rewrite Hmask, Hcorr.
  destruct (proj1 (detect_defects_returns corrected (zeros gray) threshold))
    as [cand Hcand].
  { apply same_size_true. rewrite size_zeros. exact Hsize. }
  rewrite Hcand.
  assert (Ecand : cand = zeros gray).
  { unfold detect_defects in Hcand. apply bitwise_and_Some in Hcand.
    destruct Hcand as [Hs ->]. apply zip_land_all_zero; [exact Hs|].
    apply all_zero_zeros. }
  subst cand. unfold analyze_defects. rewrite Hc. cbn [flat_map].
  unfold populate_defect_list. cbn [stored_corrected_ stored_defects_ populate_loop].
  eexists. split; [reflexivity|]. cbn [stored_defects_ lbl_verdict_].
  split; [reflexivity|]. unfold verdict.
  rewrite (countNonZero_all_zero _ (all_zero_zeros gray)). reflexivity.
Qed.

Lemma C7_all_zero_image_witness :
  @extract_lens_mask demo_cv (zeros full5) = zeros (zeros full5) /\
  size (@extract_lens_mask demo_cv (zeros full5)) = size (zeros full5) /\
  exists ui,
    @btn_analyze_click demo_cv (btn_load_click demo_ui (zeros full5)) 101 25 = Some ui /\
    stored_defects_ ui = [] /\
    lbl_verdict_ ui = Some (mkVerdict true (S754_zero false) 0).
Proof.
  apply (@C7_all_zero_image demo_cv demo_ui (zeros full5) (zeros full5) 101 25).
  - repeat constructor.
  - vm_compute. tauto.
  - reflexivity.
  - reflexivity.
  - reflexivity.
Defined.

(** ** Rounding to binary32 *)

Lemma digits2_pos_bounds (p : positive) :
  2 ^ (Zpos (digits2_pos p) - 1) <= Zpos p < 2 ^ Zpos (digits2_pos p).
Proof.
  induction p as [p IH|p IH|]; simpl digits2_pos.
  - rewrite Pos2Z.inj_succ.
    replace (Z.succ (Zpos (digits2_pos p)) - 1) with (Zpos (digits2_pos p)) by lia.
    rewrite Z.pow_succ_r by lia.
    assert (E : 2 ^ Zpos (digits2_pos p) = 2 * 2 ^ (Zpos (digits2_pos p) - 1)).
    { rewrite <- Z.pow_succ_r by lia. f_equal. lia. }
    lia.
  - rewrite Pos2Z.inj_succ.
    replace (Z.succ (Zpos (digits2_pos p)) - 1) with (Zpos (digits2_pos p)) by lia.
    rewrite Z.pow_succ_r by lia.
    assert (E : 2 ^ Zpos (digits2_pos p) = 2 * 2 ^ (Zpos (digits2_pos p) - 1)).
    { rewrite <- Z.pow_succ_r by lia. f_equal. lia. }
    lia.
  - simpl. lia.
Qed.

(** The number of binary digits is determined by the enclosing powers. *)
Lemma Zdigits2_unique (n d : Z) :
  0 < d -> 2 ^ (d - 1) <= n < 2 ^ d -> Zdigits2 n = d.
Proof.
  intros Hd [Hlo Hhi].
  assert (Hn : 0 < n) by (pose proof (Z.pow_pos_nonneg 2 (d - 1)); lia).
  destruct n as [|p|p]; try lia. simpl.
  pose proof (digits2_pos_bounds p) as [Plo Phi].
  set (k := Zpos (digits2_pos p)) in *.
  assert (Hk : 0 < k) by (unfold k; lia).
  destruct (Z.lt_trichotomy k d) as [L|[E|G]]; [|exact E|].
  - assert (2 ^ k <= 2 ^ (d - 1)) by (apply Z.pow_le_mono_r; lia). lia.
  - assert (2 ^ d <= 2 ^ (k - 1)) by (apply Z.pow_le_mono_r; lia). lia.
Qed.

(** One step of the right shift, on a non-negative mantissa. *)
Lemma shr_1_nonneg (m : Z) (r s : bool) :
  0 <= m ->
  shr_1 (Build_shr_record m r s) = Build_shr_record (m / 2) (Z.odd m) (r || s).
Proof.
  intros Hm. rewrite <- Z.div2_div.
  destruct m as [|[p|p|]|p]; try lia; reflexivity.
Qed.

Lemma shr_1_shifted (x j : Z) :
  0 <= x -> 0 <= j -> shr_1 (shifted x j) = shifted x (j + 1).
Proof.
  intros Hx Hj. unfold shifted.
  assert (P1 : 0 < 2 ^ (j + 1)) by (apply Z.pow_pos_nonneg; lia).
  assert (P2 : 2 ^ (j + 2) = 2 * 2 ^ (j + 1)).
  { replace (j + 2) with (Z.succ (j + 1)) by lia. apply Z.pow_succ_r. lia. }
  assert (P3 : 2 ^ (j + 1 + 2) = 2 * 2 ^ (j + 2)).
  { replace (j + 1 + 2) with (Z.succ (j + 2)) by lia. apply Z.pow_succ_r. lia. }
  rewrite shr_1_nonneg by (apply Z.div_pos; lia).
  replace (j + 1 + 1) with (j + 2) by lia.
  f_equal.
  - rewrite Z.div_div by lia. f_equal. lia.
  - assert (P4 : 2 ^ (j + 2) = 2 ^ (j + 1) * 2) by lia.
    rewrite P4, Z.rem_mul_r by lia.
    pose proof (Z.mod_pos_bound x (2 ^ (j + 1)) P1) as B1.
    rewrite Zmod_odd.
    destruct (Z.odd (x / 2 ^ (j + 1)));
      destruct (Z.eqb_spec (x mod 2 ^ (j + 1)) 0) as [E0|E0]; simpl;
      match goal with |- _ = negb (?a =? 0) => destruct (Z.eqb_spec a 0) end;
      simpl; try reflexivity; lia.
Qed.

Lemma iter_shr_1_shifted (x : Z) (k : positive) :
  0 <= x -> forall j, 0 <= j -> iter_pos shr_1 k (shifted x j) = shifted x (j + Zpos k).
Proof.
  intros Hx. induction k as [k IH|k IH|]; intros j Hj; cbn [iter_pos].
  - rewrite shr_1_shifted, IH, IH by lia. f_equal. lia.
  - rewrite IH, IH by lia. f_equal. lia.
  - apply shr_1_shifted; assumption.
Qed.

Lemma loc_bits_range (l : location) : 0 <= loc_bits l < 4.
Proof. destruct l as [|[]]; simpl; lia. Qed.

Lemma shr_record_of_loc_shifted (m : Z) (l : location) :
  shr_record_of_loc m l = shifted (4 * m + loc_bits l) 0.
Proof.
  unfold shifted. simpl (0 + 2). simpl (0 + 1). change (2 ^ 2) with 4. change (2 ^ 1) with 2.
  assert (E4 : (4 * m + loc_bits l) / 4 = m).
  { pose proof (loc_bits_range l). symmetry. apply (Z.div_unique _ 4 m (loc_bits l)); lia. }
  rewrite E4.
  destruct l as [|[]]; simpl loc_bits; simpl shr_record_of_loc; f_equal.
  - replace (4 * m + 0) with (2 * m * 2) by lia. rewrite Z.div_mul by lia.
    replace (2 * m) with (0 + 2 * m) by lia. now rewrite Z.odd_add_mul_2.
  - replace (4 * m + 0) with (0 + 2 * m * 2) by lia. now rewrite Z.mod_add by lia.
  - replace (4 * m + 2) with ((2 * m + 1) * 2) by lia. rewrite Z.div_mul by lia.
    replace (2 * m + 1) with (1 + 2 * m) by lia. now rewrite Z.odd_add_mul_2.
  - replace (4 * m + 2) with (0 + (2 * m + 1) * 2) by lia. now rewrite Z.mod_add by lia.
  - replace (4 * m + 1) with (1 + 2 * m * 2) by lia. rewrite Z.div_add by lia.
    change (1 / 2) with 0. replace (0 + 2 * m) with (0 + 2 * m) by lia.
    now rewrite Z.odd_add_mul_2.
  - replace (4 * m + 1) with (1 + 2 * m * 2) by lia. now rewrite Z.mod_add by lia.
  - replace (4 * m + 3) with (1 + (2 * m + 1) * 2) by lia. rewrite Z.div_add by lia.
    change (1 / 2) with 0. replace (0 + (2 * m + 1)) with (1 + 2 * m) by lia.
    now rewrite Z.odd_add_mul_2.
  - replace (4 * m + 3) with (1 + (2 * m + 1) * 2) by lia. now rewrite Z.mod_add by lia.
Qed.

Lemma shr_shifted (x e sh : Z) :
  0 <= x -> 0 <= sh -> shr (shifted x 0) e sh = (shifted x sh, e + sh).
Proof.
  intros Hx Hsh. destruct sh as [|p|p]; try lia; simpl shr.
  - now rewrite Z.add_0_r.
  - rewrite iter_shr_1_shifted by lia. reflexivity.
Qed.

Lemma round_nearest_even_record (m : Z) (r s : bool) :
  round_nearest_even m (loc_of_shr_record (Build_shr_record m r s))
  = if r && (s || Z.odd m) then m + 1 else m.
Proof.
  destruct r, s; simpl; try reflexivity.
  rewrite <- Z.negb_odd. destruct (Z.odd m); reflexivity.
Qed.

Lemma fexp32 (d : Z) : -125 <= d -> fexp 24 128 d = d - 24.
Proof. intros H. unfold fexp, emin. lia. Qed.

Lemma pow2_split (a b : Z) : 0 <= a -> 0 <= b -> 2 ^ (a + b) = 2 ^ a * 2 ^ b.
Proof. intros. apply Z.pow_add_r; assumption. Qed.

Lemma shifted_quotient_bounds (q sh : Z) :
  0 <= sh -> 2 ^ (23 + sh) <= q < 2 ^ (24 + sh) ->
  2 ^ 23 <= q / 2 ^ sh < 2 ^ 24.
Proof.
  intros Hsh [Hlo Hhi].
  assert (P : 0 < 2 ^ sh) by (apply Z.pow_pos_nonneg; lia).
  rewrite pow2_split in Hlo, Hhi by lia.
  split.
  - apply Z.div_le_lower_bound; lia.
  - apply Z.div_lt_upper_bound; lia.
Qed.

Lemma binary_round_aux_normal (q e : Z) (l : location) (sh : Z) :
  0 <= sh -> 2 ^ (23 + sh) <= q < 2 ^ (24 + sh) ->
  -149 <= e + sh -> e + sh + 1 <= 104 ->
  binary_round_aux 24 128 false q e l
  = if rounded q l sh <? 2 ^ 24
    then S754_finite false (Z.to_pos (rounded q l sh)) (e + sh)
    else S754_finite false (Z.to_pos (2 ^ 23)) (e + sh + 1).
Proof.
  intros Hsh Hq He1 He2.
  pose proof (shifted_quotient_bounds q sh Hsh Hq) as Hm1.
  assert (Hq0 : 0 < q) by (pose proof (Z.pow_pos_nonneg 2 (23 + sh)); lia).
  unfold binary_round_aux, shr_fexp.
  rewrite (Zdigits2_unique q (24 + sh)) by (replace (24 + sh - 1) with (23 + sh); lia).
  rewrite fexp32 by lia.
  replace (24 + sh + e - 24 - e) with sh by lia.
  rewrite shr_record_of_loc_shifted.
  rewrite shr_shifted by (pose proof (loc_bits_range l); lia).
  assert (Em : (4 * q + loc_bits l) / 2 ^ (sh + 2) = q / 2 ^ sh).
  { replace (sh + 2) with (2 + sh) by lia. rewrite pow2_split by lia.
    rewrite <- Z.div_div by (try apply Z.pow_pos_nonneg; lia).
    f_equal. pose proof (loc_bits_range l).
    symmetry. apply (Z.div_unique _ (2 ^ 2) q (loc_bits l)); simpl; lia. }
  assert (Hrne : round_nearest_even (shr_m (shifted (4 * q + loc_bits l) sh))
                   (loc_of_shr_record (shifted (4 * q + loc_bits l) sh))
                 = rounded q l sh).
  { unfold shifted. cbn [shr_m]. rewrite Em, round_nearest_even_record. reflexivity. }
  rewrite !Hrne.
  assert (Hr : 2 ^ 23 <= rounded q l sh <= 2 ^ 24).
  { unfold rounded. destruct (round_up q l sh); lia. }
  destruct (Z.ltb_spec (rounded q l sh) (2 ^ 24)) as [Hlt|Hge].
  - rewrite (Zdigits2_unique (rounded q l sh) 24) by (simpl; lia).
    rewrite fexp32 by lia.
    replace (24 + (e + sh) - 24 - (e + sh)) with 0 by lia.
    cbn [shr shr_record_of_loc shr_m].
    destruct (rounded q l sh) as [|p|p] eqn:E; try (simpl in Hr; lia).
    destruct (Z.leb_spec (e + sh) (128 - 24)); [reflexivity|lia].
  - assert (E : rounded q l sh = 2 ^ 24) by lia. rewrite E.
    rewrite (Zdigits2_unique (2 ^ 24) 25) by (simpl; lia).
    rewrite fexp32 by lia.
    replace (25 + (e + sh) - 24 - (e + sh)) with 1 by lia.
    cbn [shr shr_record_of_loc shr_m iter_pos].
    simpl (shr_m _).
    destruct (Z.leb_spec (e + sh + 1) (128 - 24)); [reflexivity|lia].
Qed.

(** The exact remainder form of the rounding decision. *)
Lemma round_up_arith (q : Z) (l : location) (sh : Z) :
  0 <= q -> 0 <= sh ->
  let x := 4 * q + loc_bits l in
  let half := 2 ^ (sh + 1) in
  round_up q l sh
  = (half <? x mod (2 * half)) || ((x mod (2 * half) =? half) && Z.odd (x / (2 * half))).
Proof.
  intros Hq Hsh x half. unfold round_up. fold x. fold half.
  assert (Ph : 0 < half) by (apply Z.pow_pos_nonneg; lia).
  assert (Eq : q / 2 ^ sh = x / (2 * half)).
  { unfold half, x. rewrite <- Z.pow_succ_r by lia.
    replace (Z.succ (sh + 1)) with (2 + sh) by lia. rewrite pow2_split by lia.
    rewrite <- Z.div_div by (try apply Z.pow_pos_nonneg; lia).
    f_equal. pose proof (loc_bits_range l).
    apply (Z.div_unique _ (2 ^ 2) q (loc_bits l)); simpl; lia. }
  rewrite Eq.
  rewrite (Z.mul_comm 2 half), Z.rem_mul_r by lia.
  rewrite (Zmod_odd (x / half)).
  pose proof (Z.mod_pos_bound x half Ph) as B.
  destruct (Z.odd (x / half)); simpl.
  - destruct (Z.eqb_spec (x mod half) 0) as [E|E]; simpl.
    + rewrite E. simpl. rewrite Z.mul_1_r, Z.ltb_irrefl, Z.eqb_refl. reflexivity.
    + destruct (Z.ltb_spec half (x mod half + half * 1)); [reflexivity|lia].
  - rewrite Z.mul_0_r, Z.add_0_r.
    destruct (Z.ltb_spec half (x mod half)); [lia|].
    destruct (Z.eqb_spec (x mod half) half); [lia|reflexivity].
Qed.

Lemma rounded_arith (q : Z) (l : location) (sh : Z) :
  0 <= q -> 0 <= sh ->
  let x := 4 * q + loc_bits l in
  let half := 2 ^ (sh + 1) in
  rounded q l sh
  = x / (2 * half)
    + (if (half <? x mod (2 * half)) || ((x mod (2 * half) =? half) && Z.odd (x / (2 * half)))
       then 1 else 0).
Proof.
  intros Hq Hsh x half. unfold rounded.
  rewrite (round_up_arith q l sh Hq Hsh). fold x. fold half.
  assert (Eq : q / 2 ^ sh = x / (2 * half)).
  { unfold half, x. rewrite <- Z.pow_succ_r by lia.
    replace (Z.succ (sh + 1)) with (2 + sh) by lia. rewrite pow2_split by lia.
    rewrite <- Z.div_div by (try apply Z.pow_pos_nonneg; lia).
    f_equal. pose proof (loc_bits_range l).
    apply (Z.div_unique _ (2 ^ 2) q (loc_bits l)); simpl; lia. }
  rewrite Eq.
  destruct ((half <? x mod (2 * half)) || _); lia.
Qed.

(** Rounding to nearest, ties to even, is monotone. *)
Lemma rounded_mono (q1 q2 : Z) (l1 l2 : location) (sh : Z) :
  0 <= q1 -> 0 <= sh ->
  4 * q1 + loc_bits l1 <= 4 * q2 + loc_bits l2 ->
  rounded q1 l1 sh <= rounded q2 l2 sh.
Proof.
  intros Hq1 Hsh Hle.
  assert (Hq2 : 0 <= q2).
  { pose proof (loc_bits_range l1). pose proof (loc_bits_range l2). lia. }
  rewrite !rounded_arith by assumption. cbv zeta.
  set (x1 := 4 * q1 + loc_bits l1) in *. set (x2 := 4 * q2 + loc_bits l2) in *.
  set (half := 2 ^ (sh + 1)).
  assert (Ph : 0 < half) by (apply Z.pow_pos_nonneg; lia).
  pose proof (Z.div_mod x1 (2 * half) ltac:(lia)) as D1.
  pose proof (Z.div_mod x2 (2 * half) ltac:(lia)) as D2.
  pose proof (Z.mod_pos_bound x1 (2 * half) ltac:(lia)) as B1.
  pose proof (Z.mod_pos_bound x2 (2 * half) ltac:(lia)) as B2.
  assert (Hdiv : x1 / (2 * half) <= x2 / (2 * half)) by (apply Z.div_le_mono; lia).
  destruct (Z.eq_dec (x1 / (2 * half)) (x2 / (2 * half))) as [E|NE].
  - rewrite E in *.
    assert (Hmod : x1 mod (2 * half) <= x2 mod (2 * half)) by lia.
    destruct (Z.odd (x2 / (2 * half)));
      destruct (Z.ltb_spec half (x1 mod (2 * half)));
      destruct (Z.ltb_spec half (x2 mod (2 * half)));
      destruct (Z.eqb_spec (x1 mod (2 * half)) half);
      destruct (Z.eqb_spec (x2 mod (2 * half)) half); simpl; lia.
  - destruct ((half <? x1 mod (2 * half)) || _);
      destruct ((half <? x2 mod (2 * half)) || _); lia.
Qed.

Lemma rounded_exact_0 (q : Z) : 0 <= q -> rounded q loc_Exact 0 = q.
Proof.
  intros Hq. unfold rounded, round_up. simpl loc_bits. simpl (0 + 1).
  change (2 ^ 1) with 2. change (2 ^ 0) with 1.
  replace (4 * q + 0) with (2 * q * 2) by lia. rewrite Z.div_mul by lia.
  replace (2 * q) with (0 + 2 * q) by lia. rewrite Z.odd_add_mul_2. simpl.
  apply Z.div_1_r.
Qed.

Lemma Zdigits2_bounds (n : Z) :
  0 < n -> 0 < Zdigits2 n /\ 2 ^ (Zdigits2 n - 1) <= n < 2 ^ Zdigits2 n.
Proof.
  intros Hn. destruct n as [|p|p]; try lia. simpl Zdigits2.
  split; [lia|apply digits2_pos_bounds].
Qed.

Lemma Zdigits2_mono (n1 n2 : Z) : 0 < n1 -> n1 <= n2 -> Zdigits2 n1 <= Zdigits2 n2.
Proof.
  intros H1 H12.
  destruct (Zdigits2_bounds n1 H1) as [P1 [L1 U1]].
  destruct (Zdigits2_bounds n2 ltac:(lia)) as [P2 [L2 U2]].
  destruct (Z.le_gt_cases (Zdigits2 n1) (Zdigits2 n2)) as [H|H]; [exact H|].
  assert (2 ^ Zdigits2 n2 <= 2 ^ (Zdigits2 n1 - 1)) by (apply Z.pow_le_mono_r; lia).
  lia.
Qed.

Lemma pos_iter_xO (p k : positive) : Zpos (Pos.iter xO p k) = Zpos p * 2 ^ Zpos k.
Proof.
  revert p. induction k as [|k IH] using Pos.peano_ind; intros p.
  - simpl. lia.
  - rewrite Pos.iter_succ, Pos2Z.inj_succ, Z.pow_succ_r by lia.
    rewrite Pos2Z.inj_xO, IH. lia.
Qed.

Lemma nearest_canonical (n : Z) :
  0 < n -> 2 ^ 23 <= fst (nearest n) < 2 ^ 24 /\ -23 <= snd (nearest n) <= Zdigits2 n - 23.
Proof.
  intros Hn. destruct (Zdigits2_bounds n Hn) as [Pd [Lo Hi]].
  unfold nearest. set (d := Zdigits2 n) in *.
  destruct (Z.leb_spec d 24) as [Hd|Hd]; cbn [fst snd].
  - assert (P : 0 < 2 ^ (24 - d)) by (apply Z.pow_pos_nonneg; lia).
    assert (E1 : 2 ^ 23 = 2 ^ (d - 1) * 2 ^ (24 - d)).
    { rewrite <- pow2_split by lia. f_equal. lia. }
    assert (E2 : 2 ^ 24 = 2 ^ d * 2 ^ (24 - d)).
    { rewrite <- pow2_split by lia. f_equal. lia. }
    split; [split; nia|lia].
  - pose proof (shifted_quotient_bounds n (d - 24) ltac:(lia)) as Hq.
    replace (23 + (d - 24)) with (d - 1) in Hq by lia.
    replace (24 + (d - 24)) with d in Hq by lia.
    specialize (Hq (conj Lo Hi)).
    assert (Hr : 2 ^ 23 <= rounded n loc_Exact (d - 24) <= 2 ^ 24).
    { unfold rounded. destruct (round_up n loc_Exact (d - 24)); lia. }
    destruct (Z.ltb_spec (rounded n loc_Exact (d - 24)) (2 ^ 24)); cbn [fst snd];
      (split; [simpl; lia|lia]).
Qed.

(** [(float) n], and [(float)] of a double holding [n * 2 ^ e0], for
    a positive [n]. *)
Lemma binary_normalize_nearest (n e0 : Z) :
  0 < n -> Zdigits2 n <= 100 -> -100 <= e0 <= 0 ->
  binary_normalize 24 128 n e0 false
  = S754_finite false (Z.to_pos (fst (nearest n))) (snd (nearest n) + e0).
Proof.
  intros Hn Hd He0. destruct (Zdigits2_bounds n Hn) as [Pd [Lo Hi]].
  destruct n as [|p|p]; try lia.
  unfold binary_normalize, binary_round, nearest.
  change (Zpos (digits2_pos p)) with (Zdigits2 (Zpos p)).
  set (d := Zdigits2 (Zpos p)) in *. clearbody d.
  rewrite fexp32 by lia. unfold shl_align.
  replace (d + e0 - 24 - e0) with (d - 24) by lia.
  destruct (Z.leb_spec d 24) as [Hle|Hgt]; cbn [fst snd].
  - assert (E1 : 2 ^ 23 = 2 ^ (d - 1) * 2 ^ (24 - d)).
    { rewrite <- pow2_split by lia. f_equal. lia. }
    assert (E2 : 2 ^ 24 = 2 ^ d * 2 ^ (24 - d)).
    { rewrite <- pow2_split by lia. f_equal. lia. }
    assert (P : 0 < 2 ^ (24 - d)) by (apply Z.pow_pos_nonneg; lia).
    destruct (d - 24) as [|k|k] eqn:Ek; try lia.
    + assert (Hd24 : d = 24) by lia. rewrite Hd24 in *.
      rewrite (binary_round_aux_normal (Zpos p) e0 loc_Exact 0) by (simpl in *; lia).
      rewrite rounded_exact_0 by lia.
      simpl (24 - 24). rewrite Z.mul_1_r.
      destruct (Z.ltb_spec (Zpos p) (2 ^ 24)); [|lia].
      f_equal. lia.
    + assert (Ek' : 24 - d = Zpos k) by lia. rewrite Ek' in *.
      rewrite (binary_round_aux_normal (Zpos (Pos.iter xO p k)) (d + e0 - 24) loc_Exact 0);
        try (rewrite pos_iter_xO; simpl (23 + 0); simpl (24 + 0); nia); try lia.
      rewrite rounded_exact_0 by lia. rewrite pos_iter_xO.
      destruct (Z.ltb_spec (Zpos p * 2 ^ Zpos k) (2 ^ 24)); [|nia].
      f_equal. lia.
  - destruct (d - 24) as [|k|k] eqn:Ek; try lia. rewrite <- Ek.
    rewrite (binary_round_aux_normal (Zpos p) e0 loc_Exact (d - 24)); try lia.
    + destruct (Z.ltb_spec (rounded (Zpos p) loc_Exact (d - 24)) (2 ^ 24));
        cbn [fst snd]; f_equal; lia.
    + replace (23 + (d - 24)) with (d - 1) by lia.
      replace (24 + (d - 24)) with d by lia. lia.
Qed.

Lemma nearest_mono (n1 n2 : Z) :
  0 < n1 -> n1 <= n2 -> lex_le (nearest n1) (nearest n2).
Proof.
  intros H1 H12. assert (H2 : 0 < n2) by lia.
  pose proof (Zdigits2_mono n1 n2 H1 H12) as Hd.
  pose proof (nearest_canonical n1 H1) as [[Lo1 Hi1] [Le1 Ue1]].
  pose proof (nearest_canonical n2 H2) as [[Lo2 Hi2] [Le2 Ue2]].
  destruct (Zdigits2_bounds n1 H1) as [Pd1 _].
  destruct (Z.eq_dec (Zdigits2 n1) (Zdigits2 n2)) as [E|NE].
  - unfold lex_le, nearest in *. rewrite <- E in *.
    set (d := Zdigits2 n1) in *.
    destruct (Z.leb_spec d 24) as [Hle|Hgt]; cbn [fst snd] in *.
    + right. split; [reflexivity|].
      assert (0 < 2 ^ (24 - d)) by (apply Z.pow_pos_nonneg; lia). nia.
    + pose proof (rounded_mono n1 n2 loc_Exact loc_Exact (d - 24)
                    ltac:(lia) ltac:(lia) ltac:(lia)) as Hr.
      destruct (Z.ltb_spec (rounded n1 loc_Exact (d - 24)) (2 ^ 24));
        destruct (Z.ltb_spec (rounded n2 loc_Exact (d - 24)) (2 ^ 24));
        cbn [fst snd] in *; lia.
  - unfold lex_le.
    assert (Hlt : Zdigits2 n1 < Zdigits2 n2) by lia.
    (* the exponent of n2 is at least d2 - 24 *)
    assert (Hlow2 : Zdigits2 n2 - 24 <= snd (nearest n2)).
    { unfold nearest. destruct (Zdigits2 n2 <=? 24); cbn [snd]; [lia|].
      destruct (rounded n2 loc_Exact (Zdigits2 n2 - 24) <? 2 ^ 24); cbn [snd]; lia. }
    (* the exponent of n1 is d1 - 23 only with the mantissa 2^23 *)
    assert (Hup1 : snd (nearest n1) = Zdigits2 n1 - 23 -> fst (nearest n1) = 2 ^ 23).
    { unfold nearest. destruct (Zdigits2 n1 <=? 24); cbn [fst snd]; [lia|].
      destruct (rounded n1 loc_Exact (Zdigits2 n1 - 24) <? 2 ^ 24); cbn [fst snd];
        [lia|reflexivity]. }
    destruct (Z.eq_dec (snd (nearest n1)) (snd (nearest n2))) as [Ee|Ne]; [|left; lia].
    right. split; [exact Ee|]. rewrite Hup1 by lia. lia.
Qed.

Lemma rounded_bounds (q : Z) (l : location) (sh : Z) :
  0 <= sh -> 2 ^ (23 + sh) <= q < 2 ^ (24 + sh) ->
  2 ^ 23 <= rounded q l sh <= 2 ^ 24.
Proof.
  intros Hsh Hq. pose proof (shifted_quotient_bounds q sh Hsh Hq).
  unfold rounded. destruct (round_up q l sh); lia.
Qed.

(** The quotient of two positive binary32 values with 24-bit mantissas is
    a positive finite value; it is at most 1 when the first is not above
    the second. *)
Lemma div_canonical (p1 p2 : positive) (e1 e2 : Z) :
  2 ^ 23 <= Zpos p1 < 2 ^ 24 -> 2 ^ 23 <= Zpos p2 < 2 ^ 24 ->
  -23 <= e1 <= 80 -> -23 <= e2 <= 80 ->
  exists m e,
    SFdiv 24 128 (S754_finite false p1 e1) (S754_finite false p2 e2)
    = S754_finite false m e /\
    (lex_le (Zpos p1, e1) (Zpos p2, e2) ->
     e < -23 \/ (e = -23 /\ Zpos m = 2 ^ 23)).
Proof.
  intros H1 H2 He1 He2. unfold lex_le. cbn [fst snd].
  unfold SFdiv, SFdiv_core_binary.
  rewrite (Zdigits2_unique (Zpos p1) 24), (Zdigits2_unique (Zpos p2) 24) by (simpl; lia).
  rewrite fexp32 by lia.
  replace (Z.min (24 + e1 - (24 + e2) - 24) (e1 - e2)) with (e1 - e2 - 24) by lia.
  replace (e1 - e2 - (e1 - e2 - 24)) with 24 by lia.
  rewrite Z.shiftl_mul_pow2 by lia.
  pose proof (Z_div_mod (Zpos p1 * 2 ^ 24) (Zpos p2) ltac:(lia)) as Hdm.
  destruct (Z.div_eucl (Zpos p1 * 2 ^ 24) (Zpos p2)) as [q r].
  destruct Hdm as [Hq Hr]. cbn [xorb].
  set (l := new_location (Zpos p2) r).
  set (e' := e1 - e2 - 24).
  assert (P23 : 2 ^ 23 = 8388608) by reflexivity.
  assert (P24 : 2 ^ 24 = 16777216) by reflexivity.
  assert (P25 : 2 ^ 25 = 33554432) by reflexivity.
  destruct (Z_lt_le_dec (Zpos p1) (Zpos p2)) as [Hlt|Hge].
  - (* the quotient has 24 digits *)
    assert (Hqb : 2 ^ (23 + 0) <= q < 2 ^ (24 + 0)) by (simpl (23 + 0); simpl (24 + 0); nia).
    rewrite (binary_round_aux_normal q e' l 0) by (unfold e'; lia).
    pose proof (rounded_bounds q l 0 ltac:(lia) Hqb) as Hrb.
    destruct (Z.ltb_spec (rounded q l 0) (2 ^ 24)).
    + eexists _, _. split; [reflexivity|]. intros Hle. left. unfold e'. lia.
    + eexists _, _. split; [reflexivity|]. intros Hle. unfold e'.
      destruct Hle as [Hle|[Hle _]]; [left; lia|right; split; [lia|reflexivity]].
  - (* the quotient has 25 digits *)
    assert (Hqb : 2 ^ (23 + 1) <= q < 2 ^ (24 + 1)) by (simpl (23 + 1); simpl (24 + 1); nia).
    rewrite (binary_round_aux_normal q e' l 1) by (unfold e'; lia).
    pose proof (rounded_bounds q l 1 ltac:(lia) Hqb) as Hrb.
    destruct (Z.eq_dec (Zpos p1) (Zpos p2)) as [Epp|Npp].
    + (* equal mantissas: the quotient of the mantissas is exactly 1 *)
      assert (Eq : q = 2 ^ 24) by nia.
      assert (Er : r = 0) by nia.
      assert (El : l = loc_Exact).
      { unfold l, new_location, new_location_even, new_location_odd. rewrite Er.
        destruct (Z.even (Zpos p2)); reflexivity. }
      rewrite El, Eq. change (rounded (2 ^ 24) loc_Exact 1) with (2 ^ 23).
      simpl (2 ^ 23 <? 2 ^ 24). cbv iota.
      eexists _, _. split; [reflexivity|]. intros Hle. unfold e'.
      destruct Hle as [Hle|[Hle _]]; [left; lia|right; split; [lia|reflexivity]].
    + destruct (Z.ltb_spec (rounded q l 1) (2 ^ 24)).
      * eexists _, _. split; [reflexivity|]. intros Hle. left. unfold e'. lia.
      * eexists _, _. split; [reflexivity|]. intros Hle. unfold e'.
        destruct Hle as [Hle|[Hle Hm]]; [|lia].
        destruct (Z.eq_dec (e1 - e2 - 24 + 1 + 1) (-23));
          [right; split; [assumption|reflexivity]|left; lia].
Qed.

(** [(float) n] for a positive [int]. *)
Lemma of_int_positive (n : Z) :
  0 < n < 2 ^ 31 ->
  exists (p : positive) (e : Z),
    Float32.of_int n = S754_finite false p e /\
    (Zpos p, e) = nearest n /\
    2 ^ 23 <= Zpos p < 2 ^ 24 /\ -23 <= e <= 8.
Proof.
  intros [Hn Hhi].
  assert (Hd : Zdigits2 n <= 31).
  { destruct (Zdigits2_bounds n Hn) as [Pd [Lo _]].
    destruct (Z.le_gt_cases (Zdigits2 n) 31) as [H|H]; [exact H|].
    assert (2 ^ 31 <= 2 ^ (Zdigits2 n - 1)) by (apply Z.pow_le_mono_r; lia). lia. }
  pose proof (nearest_canonical n Hn) as [[Lo Hi] [Le Ue]].
  exists (Z.to_pos (fst (nearest n))), (snd (nearest n)).
  assert (P : 0 < 2 ^ 23) by reflexivity.
  split.
  - unfold Float32.of_int, Float32.prec, Float32.emax.
    rewrite binary_normalize_nearest by lia. f_equal. lia.
  - rewrite Z2Pos.id by lia. split; [destruct (nearest n); reflexivity|].
    split; [split; assumption|lia].
Qed.

Lemma leb_zero_finite (m : positive) (e : Z) :
  Float32.leb Float32.zero (S754_finite false m e) = true.
Proof. reflexivity. Qed.

Lemma leb_one_bound (m : positive) (e : Z) :
  e < -23 \/ (e = -23 /\ Zpos m = 2 ^ 23) ->
  Float32.leb (S754_finite false m e) Float32.one = true.
Proof.
  intros H. unfold Float32.leb, SFleb. change Float32.one with (S754_finite false 8388608 (-23)).
  cbn [SFcompare]. destruct H as [H|[-> H]].
  - destruct (Z.compare_spec e (-23)); try lia; reflexivity.
  - simpl Z.compare. cbv iota. assert (m = 8388608%positive) by (simpl in H; lia).
    subst m. reflexivity.
Qed.

Lemma max_one_canonical (p : positive) (e : Z) :
  2 ^ 23 <= Zpos p -> -23 <= e ->
  Float32.max (S754_finite false p e) Float32.one = S754_finite false p e.
Proof.
  intros Hp He. unfold Float32.max, Float32.ltb, SFltb.
  change Float32.one with (S754_finite false 8388608 (-23)). cbn [SFcompare].
  destruct (Z.compare_spec e (-23)); try lia; [|reflexivity].
  change (Pos.compare_cont Eq p 8388608) with (Pos.compare p 8388608).
  destruct (Pos.compare_spec p 8388608); try reflexivity.
  simpl in Hp. lia.
Qed.

(** ** The verdict *)

Lemma verdict_ratio (stored_mask defect_mask : Mat) (stored_defects : list Defect) :
  defectAreaRatio (verdict stored_mask defect_mask stored_defects)
  = ratio_of (countNonZero stored_mask) (countNonZero defect_mask).
Proof. reflexivity. Qed.

Lemma ratio_of_zero (lens : Z) :
  0 <= lens <= INT_MAX -> ratio_of lens 0 = S754_zero false.
Proof.
  intros [Hl Hu]. unfold ratio_of, INT_MAX in *.
  destruct (Z.eq_dec lens 0) as [->|Hz]; [reflexivity|].
  destruct (of_int_positive lens ltac:(lia)) as (p & e & -> & _ & Hp & He).
  rewrite max_one_canonical by lia. reflexivity.
Qed.

Lemma ratio_of_nonneg (lens defect : Z) :
  0 <= lens <= INT_MAX -> 0 <= defect <= INT_MAX ->
  Float32.leb Float32.zero (ratio_of lens defect) = true.
Proof.
  intros Hl Hd.
  destruct (Z.eq_dec defect 0) as [->|Hdz]; [rewrite ratio_of_zero by assumption; reflexivity|].
  unfold ratio_of, INT_MAX in *.
  destruct (of_int_positive defect ltac:(lia)) as (pd & ed & -> & _ & Hpd & Hed).
  destruct (Z.eq_dec lens 0) as [->|Hlz].
  - change (Float32.max (Float32.of_int 0) Float32.one)
      with (S754_finite false 8388608 (-23)).
    destruct (div_canonical pd 8388608 ed (-23)) as (m & e & E & _);
      try (simpl; lia). unfold Float32.div, Float32.prec, Float32.emax. rewrite E. reflexivity.
  - destruct (of_int_positive lens ltac:(lia)) as (pl & el & -> & _ & Hpl & Hel).
    rewrite max_one_canonical by lia.
    destruct (div_canonical pd pl ed el) as (m & e & E & _); try lia.
    unfold Float32.div, Float32.prec, Float32.emax. rewrite E. reflexivity.
Qed.

Lemma ratio_of_le_one (lens defect : Z) :
  0 <= defect <= lens -> lens <= INT_MAX ->
  Float32.leb (ratio_of lens defect) Float32.one = true.
Proof.
  intros Hd Hl.
  destruct (Z.eq_dec defect 0) as [->|Hdz]; [rewrite ratio_of_zero by lia; reflexivity|].
  unfold ratio_of, INT_MAX in *.
  destruct (of_int_positive defect ltac:(lia)) as (pd & ed & -> & Nd & Hpd & Hed).
  destruct (of_int_positive lens ltac:(lia)) as (pl & el & -> & Nl & Hpl & Hel).
  rewrite max_one_canonical by lia.
  destruct (div_canonical pd pl ed el) as (m & e & E & Hb); try lia.
  unfold Float32.div, Float32.prec, Float32.emax. rewrite E. apply leb_one_bound, Hb.
  rewrite Nd, Nl. apply nearest_mono; lia.
Qed.

(** C4: the ratio is never negative, it is +0 for an empty candidate
    mask, it is at most 1 when the candidate mask lies inside the lens
    mask, and the verdict passes exactly when the ratio is below
    0.000005. *)
Theorem C4_ratio_bounds (stored_mask defect_mask : Mat) (stored_defects : list Defect) :
  countNonZero stored_mask <= INT_MAX ->
  countNonZero defect_mask <= INT_MAX ->
  let v := verdict stored_mask defect_mask stored_defects in
  Float32.leb Float32.zero (defectAreaRatio v) = true /\
  (rel2 (fun p q => p <> 0 -> q <> 0) defect_mask stored_mask ->
   Float32.leb (defectAreaRatio v) Float32.one = true) /\
  (countNonZero defect_mask = 0 -> defectAreaRatio v = S754_zero false) /\
  pass v = Float32.ltb (defectAreaRatio v) f0_000005.
Proof.
  intros Hl Hd v. unfold v. rewrite verdict_ratio.
  pose proof (countNonZero_nonneg stored_mask) as Pl.
  pose proof (countNonZero_nonneg defect_mask) as Pd.
  split; [apply ratio_of_nonneg; lia|]. split; [|split].
  - intros Hsub. apply countNonZero_mono in Hsub. apply ratio_of_le_one; lia.
  - intros ->. apply ratio_of_zero. lia.
  - reflexivity.
Qed.

Lemma C4_ratio_bounds_witness :
  let v := verdict full7 (threshold speck7 100 255) [] in
  Float32.leb Float32.zero (defectAreaRatio v) = true /\
  (rel2 (fun p q => p <> 0 -> q <> 0) (threshold speck7 100 255) full7 ->
   Float32.leb (defectAreaRatio v) Float32.one = true) /\
  (countNonZero (threshold speck7 100 255) = 0 ->
   defectAreaRatio v = S754_zero false) /\
  pass v = Float32.ltb (defectAreaRatio v) f0_000005.
Proof.
  apply (C4_ratio_bounds full7 (threshold speck7 100 255) []);
    vm_compute; discriminate.
Defined.

(** Outside the lens mask the bound is lost: two candidate samples over
    one lens sample give the ratio 2. *)
Example ratio_above_one :
  Float32.leb (defectAreaRatio (verdict [[0; 255]] [[255; 255]] [])) Float32.one = false.
Proof. reflexivity. Qed.

(** ** The area floor *)

Lemma iter_shr_1_nonneg (k : positive) :
  forall mrs, 0 <= shr_m mrs -> 0 <= shr_m (iter_pos shr_1 k mrs).
Proof.
  assert (Hstep : forall mrs, 0 <= shr_m mrs -> 0 <= shr_m (shr_1 mrs)).
  { intros [m r s] Hm. cbn [shr_m] in Hm. rewrite shr_1_nonneg by exact Hm.
    cbn [shr_m]. apply Z.div_pos; lia. }
  induction k as [k IH|k IH|]; intros mrs Hm; cbn [iter_pos]; auto.
Qed.

Lemma shr_fexp_nonneg (prec emax m e : Z) (l : location) :
  0 <= m -> 0 <= shr_m (fst (shr_fexp prec emax m e l)).
Proof.
  intros Hm. unfold shr_fexp, shr.
  assert (H0 : 0 <= shr_m (shr_record_of_loc m l)) by (destruct l as [|[]]; exact Hm).
  destruct (fexp prec emax (Zdigits2 m + e) - e); cbn [fst]; try exact H0.
  apply iter_shr_1_nonneg, H0.
Qed.

Lemma round_nearest_even_nonneg (m : Z) (l : location) :
  0 <= m -> 0 <= round_nearest_even m l.
Proof.
  intros Hm. destruct l as [|[]]; simpl; try lia. destruct (Z.even m); lia.
Qed.

Lemma binary_round_aux_not_nan (prec emax : Z) (sx : bool) (mx ex : Z) (lx : location) :
  0 <= mx -> binary_round_aux prec emax sx mx ex lx <> S754_nan.
Proof.
  intros Hm. unfold binary_round_aux.
  pose proof (shr_fexp_nonneg prec emax mx ex lx Hm) as H1.
  destruct (shr_fexp prec emax mx ex lx) as [mrs' e']. cbn [fst] in H1.
  pose proof (shr_fexp_nonneg prec emax _ e' loc_Exact
                (round_nearest_even_nonneg _ (loc_of_shr_record mrs') H1)) as H2.
  destruct (shr_fexp prec emax _ e' loc_Exact) as [mrs'' e'']. cbn [fst] in H2.
  destruct (shr_m mrs'') as [|m|m]; try lia; try discriminate.
  destruct (e'' <=? emax - prec); discriminate.
Qed.

Lemma binary_normalize_not_nan (prec emax n e : Z) (szero : bool) :
  binary_normalize prec emax n e szero <> S754_nan.
Proof.
  unfold binary_normalize, binary_round. destruct n as [|p|p]; [discriminate| |];
    destruct (shl_align p e _) as [mz ez]; apply binary_round_aux_not_nan; lia.
Qed.

Lemma of_half_below_two (n : Z) :
  0 <= n < 4 -> Float32.ltb (Float32.of_half n) f2_0 = true.
Proof.
  intros H. assert (E : n = 0 \/ n = 1 \/ n = 2 \/ n = 3) by lia.
  destruct E as [->|[->|[->| ->]]]; reflexivity.
Qed.

(** A contour that is not skipped: its area is at least 2.0 as a float and
    as the exact m00, and the centroid is a quotient by a non-zero m00. *)
Lemma retained_contour (c : Contour) :
  Float32.ltb (Float32.of_half (contourArea2 c)) f2_0 = false ->
  Float32.leb f2_0 (Float32.of_half (contourArea2 c)) = true /\
  (2 <= m00 (moments c))%Q /\
  ~ (m00 (moments c) == 0)%Q /\
  centroid (moments c)
  = Some ((m10 (moments c) / m00 (moments c))%Q, (m01 (moments c) / m00 (moments c))%Q).
Proof.
  intros Hlt.
  assert (H4 : 4 <= contourArea2 c).
  { destruct (Z_lt_le_dec (contourArea2 c) 4) as [Hs|Hs]; [|exact Hs].
    rewrite of_half_below_two in Hlt; [discriminate|].
    pose proof (contourArea2_nonneg c). lia. }
  assert (Hm : (2 <= m00 (moments c))%Q).
  { unfold moments. cbn [m00]. unfold Qle. simpl. lia. }
  assert (Hnz : ~ (m00 (moments c) == 0)%Q).
  { intros E. rewrite E in Hm. unfold Qle in Hm. simpl in Hm. lia. }
  split; [|split; [exact Hm|split; [exact Hnz|]]].
  - apply not_ltb_leb; [apply binary_normalize_not_nan|discriminate|exact Hlt].
  - unfold centroid. destruct (Qeq_bool (m00 (moments c)) 0) eqn:E; [|reflexivity].
    apply Qeq_bool_iff in E. contradiction.
Qed.

(** C6: every record of [analyze_defects] has an area of at least 2.0; it
    comes from a contour whose m00 is that area, at least 2, so the two
    quotients of the centroid have a non-zero divisor. *)
Theorem C6_area_floor `{OpenCV} (defect_mask : Mat) (d : Defect) :
  In d (analyze_defects defect_mask) ->
  Float32.leb f2_0 (area d) = true /\
  exists c,
    In c (findContours defect_mask) /\
    analyze_contour c = [d] /\
    area d = Float32.of_half (contourArea2 c) /\
    (m00 (moments c) == inject_Z (contourArea2 c) / 2)%Q /\
    (2 <= m00 (moments c))%Q /\
    ~ (m00 (moments c) == 0)%Q /\
    center d
    = Some ((m10 (moments c) / m00 (moments c))%Q, (m01 (moments c) / m00 (moments c))%Q).
Proof.
  unfold analyze_defects. intros Hin. apply in_flat_map in Hin.
  destruct Hin as (c & Hc & Hd). unfold analyze_contour in Hd.
  destruct (Float32.ltb (Float32.of_half (contourArea2 c)) f2_0) eqn:Hlt; [destruct Hd|].
  destruct Hd as [<-|[]]. cbn [area center].
  destruct (retained_contour c Hlt) as (Hge & Hm & Hnz & Hcen).
  split; [exact Hge|]. exists c. split; [exact Hc|]. split.
  - unfold analyze_contour. rewrite Hlt. reflexivity.
  - split; [reflexivity|]. split; [reflexivity|]. split; [exact Hm|].
    split; [exact Hnz|exact Hcen].
Qed.

Lemma C6_area_floor_witness :
  exists d,
    In d (@analyze_defects demo_cv full5) /\
    Float32.leb f2_0 (area d) = true /\
    area d = Float32.of_int 16 /\
    center d = Some (384 # 192, 384 # 192)%Q.
Proof.
  assert (Hin : exists d, In d (@analyze_defects demo_cv full5)).
  { eexists. vm_compute. left. reflexivity. }
  destruct Hin as [d Hd]. exists d. split; [exact Hd|].
  destruct (@C6_area_floor demo_cv full5 d Hd) as (Hge & c & Hc & Hrec & Ha & _ & _ & _ & Hcen).
  split; [exact Hge|].
  vm_compute in Hc. destruct Hc as [<-|[]].
  split; [rewrite Ha; reflexivity|]. rewrite Hcen. vm_compute. reflexivity.
Defined.

(** The older [analyzeDefects] has the same floor. *)
Lemma legacy_area_floor `{OpenCV} (defectMask : Mat) (d : Legacy.Defect) :
  In d (Legacy.analyzeDefects defectMask) ->
  Float32.leb f2_0 (Legacy.area d) = true /\
  exists c,
    In c (findContours defectMask) /\
    (2 <= m00 (moments c))%Q /\
    Legacy.center d
    = Some ((m10 (moments c) / m00 (moments c))%Q, (m01 (moments c) / m00 (moments c))%Q).
Proof.
  unfold Legacy.analyzeDefects. intros Hin. apply in_flat_map in Hin.
  destruct Hin as (c & Hc & Hd). unfold Legacy.analyze_contour in Hd.
  destruct (Float32.ltb (Float32.of_half (contourArea2 c)) f2_0) eqn:Hlt; [destruct Hd|].
  destruct Hd as [<-|[]]. cbn [Legacy.area Legacy.center].
  destruct (retained_contour c Hlt) as (Hge & Hm & _ & Hcen).
  split; [exact Hge|]. exists c. split; [exact Hc|]. split; [exact Hm|exact Hcen].
Qed.


(** * Further properties *)

(** ** Order of binary32 values *)

Ltac compare_cases :=
  repeat match goal with
    | |- context [(?x ?= ?y)%Z] => destruct (Z.compare_spec x y)
    | H : context [(?x ?= ?y)%Z] |- _ => destruct (Z.compare_spec x y)
    | |- context [Pos.compare_cont Eq ?x ?y] =>
        change (Pos.compare_cont Eq x y) with (Pos.compare x y);
        destruct (Pos.compare_spec x y)
    | H : context [Pos.compare_cont Eq ?x ?y] |- _ =>
        change (Pos.compare_cont Eq x y) with (Pos.compare x y) in H;
        destruct (Pos.compare_spec x y)
    end;
  simpl in *; try discriminate; try congruence; try lia.

Lemma SFcompare_trans (a b c : spec_float) (x y : comparison) :
  SFcompare a b = Some x -> SFcompare b c = Some y -> x <> Gt -> y <> Gt ->
  SFcompare a c = Some (match x, y with Eq, Eq => Eq | _, _ => Lt end).
Proof.
  destruct a as [[]|[]| |[] ma ea], b as [[]|[]| |[] mb eb], c as [[]|[]| |[] mc ec];
    simpl; try discriminate;
    intros H1 H2 Hx Hy; inversion H1; inversion H2; subst; clear H1 H2;
    try congruence; try reflexivity; f_equal; compare_cases.
Qed.

Lemma ltb_trans (a b c : Float32.float) :
  Float32.ltb a b = true -> Float32.ltb b c = true -> Float32.ltb a c = true.
Proof.
  unfold Float32.ltb, SFltb.
  destruct (SFcompare a b) as [[]|] eqn:E1; try discriminate.
  destruct (SFcompare b c) as [[]|] eqn:E2; try discriminate. intros _ _.
  rewrite (SFcompare_trans a b c Lt Lt E1 E2); [reflexivity|discriminate|discriminate].
Qed.

Lemma ltb_leb (a b : Float32.float) : Float32.ltb a b = true -> Float32.leb a b = true.
Proof.
  unfold Float32.ltb, Float32.leb, SFltb, SFleb.
  destruct (SFcompare a b) as [[]|]; congruence.
Qed.

Lemma ltb_leb_trans (a b c : Float32.float) :
  Float32.ltb a b = true -> Float32.leb b c = true -> Float32.ltb a c = true.
Proof.
  unfold Float32.ltb, Float32.leb, SFltb, SFleb.
  destruct (SFcompare a b) as [[]|] eqn:E1; try discriminate.
  destruct (SFcompare b c) as [[]|] eqn:E2; try discriminate; intros _ _.
  - rewrite (SFcompare_trans a b c Lt Eq E1 E2); [reflexivity|discriminate|discriminate].
  - rewrite (SFcompare_trans a b c Lt Lt E1 E2); [reflexivity|discriminate|discriminate].
Qed.

(** ** The classifier as a filter *)

Lemma analyze_contour_skipped (c : Contour) :
  retained c = false -> analyze_contour c = [].
Proof.
  unfold retained, analyze_contour. intros H. apply negb_false_iff in H.
  rewrite H. reflexivity.
Qed.

Lemma analyze_contour_kept (c : Contour) :
  retained c = true ->
  exists d, analyze_contour c = [d] /\
            area d = Float32.of_half (contourArea2 c) /\
            boundingBox d = boundingRect c /\
            center d = centroid (moments c).
Proof.
  unfold retained, analyze_contour. intros H. apply negb_true_iff in H.
  rewrite H. eexists. repeat split.
Qed.

(** X1: [analyze_defects] gives one record for each contour it does not
    skip, in the order of the contours: the areas and the bounding boxes
    of the records are those of the contours that pass the area test. *)
Theorem analyze_defects_keeps_order `{OpenCV} (defect_mask : Mat) :
  let kept := filter retained (findContours defect_mask) in
  map area (analyze_defects defect_mask)
  = map (fun c => Float32.of_half (contourArea2 c)) kept /\
  map boundingBox (analyze_defects defect_mask) = map boundingRect kept /\
  map center (analyze_defects defect_mask) = map (fun c => centroid (moments c)) kept /\
  (List.length (analyze_defects defect_mask) <= List.length (findContours defect_mask))%nat.
Proof.
  unfold analyze_defects. induction (findContours defect_mask) as [|c cs IH]; cbn zeta.
  - repeat split. simpl. lia.
  - cbn zeta in IH. destruct IH as (Ha & Hb & Hc & Hl).
    cbn [flat_map filter]. destruct (retained c) eqn:R.
    + destruct (analyze_contour_kept c R) as (d & -> & Da & Db & Dc).
      cbn [app map List.length]. rewrite Ha, Hb, Hc, Da, Db, Dc.
      repeat split. lia.
    + rewrite (analyze_contour_skipped c R). cbn [app List.length].
      repeat split; try assumption. lia.
Qed.

(** ** The two classifiers *)

Lemma f0_40_below_f0_70 : Float32.ltb f0_40 f0_70 = true.
Proof. reflexivity. Qed.

Lemma f5_0_below_f20_0 : Float32.ltb f5_0 f20_0 = true.
Proof. reflexivity. Qed.

(** X2: the two classifiers keep the same contours and measure them
    alike; they differ only in the label, and only one way: what the older
    one calls a scratch is a scratch for [analyze_defects], and what
    [analyze_defects] calls a cluster or a speck has that label in the
    older one too. *)
Theorem classifiers_differ_one_way `{OpenCV} (defect_mask : Mat) :
  Forall2 (fun (old : Legacy.Defect) (new : Defect) =>
             Legacy.area old = area new /\
             Legacy.boundingBox old = boundingBox new /\
             Legacy.center old = center new /\
             (Legacy.type old = "scratch"%string -> type new = "scratch"%string) /\
             (type new = "cluster"%string -> Legacy.type old = "cluster"%string) /\
             (type new = "speck"%string -> Legacy.type old = "speck"%string))
          (Legacy.analyzeDefects defect_mask) (analyze_defects defect_mask).
Proof.
  unfold Legacy.analyzeDefects, analyze_defects.
  induction (findContours defect_mask) as [|c cs IH]; [constructor|].
  cbn [flat_map]. unfold Legacy.analyze_contour at 1, analyze_contour at 1.
  destruct (Float32.ltb (Float32.of_half (contourArea2 c)) f2_0); [exact IH|].
  cbn [app]. constructor; [|exact IH]. clear IH.
  cbn [Legacy.area Legacy.boundingBox Legacy.center Legacy.type
       area boundingBox center type].
  set (a := Float32.of_half (contourArea2 c)).
  set (r := Float32.div _ _).
  split; [reflexivity|]. split; [reflexivity|]. split; [reflexivity|].
  assert (Hel : Float32.ltb r f0_40 = true -> Float32.leb r f0_70 = true).
  { intros Hr. apply ltb_leb, (ltb_trans r f0_40 f0_70 Hr f0_40_below_f0_70). }
  assert (Hla : Float32.gtb a f20_0 = true -> Float32.gtb a f5_0 = true).
  { unfold Float32.gtb. intros Ha. apply (ltb_trans f5_0 f20_0 a f5_0_below_f20_0 Ha). }
  destruct (Float32.gtb r f2_5) eqn:E1; destruct (Float32.ltb r f0_40) eqn:E2;
    destruct (Float32.gtb a f20_0) eqn:E3;
    try rewrite (Hel eq_refl); try rewrite (Hla eq_refl);
    cbn [orb andb];
    destruct (Float32.leb r f0_70); destruct (Float32.gtb a f5_0);
    destruct (Float32.gtb a f150_0); cbn [orb andb];
    repeat split; intros; congruence.
Qed.

(** ** The aspect ratio *)

Lemma min_of_le (d : Z) (l : list Z) : min_of d l <= d.
Proof. unfold min_of. induction l; simpl; lia. Qed.

Lemma max_of_ge (d : Z) (l : list Z) : d <= max_of d l.
Proof. unfold max_of. induction l; simpl; lia. Qed.

Lemma boundingRect_positive (c : Contour) :
  c <> [] -> 1 <= width (boundingRect c) /\ 1 <= height (boundingRect c).
Proof.
  destruct c as [|p t]; [congruence|]. intros _. unfold boundingRect. cbn [width height].
  pose proof (min_of_le (fst p) (map fst t)). pose proof (max_of_ge (fst p) (map fst t)).
  pose proof (min_of_le (snd p) (map snd t)). pose proof (max_of_ge (snd p) (map snd t)).
  lia.
Qed.

Lemma retained_nonempty (c : Contour) : retained c = true -> c <> [].
Proof. intros R ->. discriminate R. Qed.

(** X3: the aspect ratio of a record is a positive finite number: the
    width is at least 1 and the divisor [max (h, 1)] is never zero. *)
Theorem aspect_ratio_positive_finite `{OpenCV} (defect_mask : Mat) (d : Defect) :
  In d (analyze_defects defect_mask) ->
  width (boundingBox d) <= INT_MAX -> height (boundingBox d) <= INT_MAX ->
  1 <= width (boundingBox d) /\ 1 <= height (boundingBox d) /\
  exists m e, ar d = S754_finite false m e.
Proof.
  unfold analyze_defects. intros Hin. apply in_flat_map in Hin.
  destruct Hin as (c & _ & Hd). unfold analyze_contour in Hd.
  destruct (Float32.ltb (Float32.of_half (contourArea2 c)) f2_0) eqn:Hlt; [destruct Hd|].
  destruct Hd as [<-|[]]. cbn [boundingBox ar]. intros Hw Hh.
  assert (R : retained c = true) by (unfold retained; rewrite Hlt; reflexivity).
  destruct (boundingRect_positive c (retained_nonempty c R)) as [Pw Ph].
  split; [exact Pw|]. split; [exact Ph|]. unfold INT_MAX in *.
  destruct (of_int_positive (width (boundingRect c)) ltac:(lia)) as (pw & ew & -> & _ & Bw & Ew).
  destruct (of_int_positive (height (boundingRect c)) ltac:(lia)) as (ph & eh & -> & _ & Bh & Eh).
  rewrite max_one_canonical by lia.
  destruct (div_canonical pw ph ew eh) as (m & e & E & _); try lia.
  exists m, e. exact E.
Qed.

Lemma aspect_ratio_positive_finite_witness :
  exists d m e,
    In d (@analyze_defects demo_cv full5) /\
    width (boundingBox d) = 5 /\ ar d = S754_finite false m e.
Proof.
  assert (Hin : exists d, In d (@analyze_defects demo_cv full5)).
  { eexists. vm_compute. left. reflexivity. }
  destruct Hin as [d Hd].
  assert (Hb : boundingBox d = mkRect 0 0 5 5).
  { vm_compute in Hd. destruct Hd as [<-|[]]. reflexivity. }
  destruct (@aspect_ratio_positive_finite demo_cv full5 d Hd) as (_ & _ & m & e & E).
  - rewrite Hb. vm_compute. discriminate.
  - rewrite Hb. vm_compute. discriminate.
  - exists d, m, e. split; [exact Hd|]. split; [rewrite Hb; reflexivity|exact E].
Defined.

(** ** More on the defect extractor *)

Lemma Forall2_transfer {A B : Type} (R : A -> B -> Prop) (P : A -> Prop) (Q : B -> Prop)
    (l : list A) (l' : list B) :
  Forall2 R l l' -> Forall Q l' -> (forall u v, R u v -> Q v -> P u) -> Forall P l.
Proof.
  intros H HQ HP. induction H as [|u v l l' Huv _ IH]; constructor;
    inversion HQ; subst; eauto.
Qed.

Lemma rel2_transfer (R : Z -> Z -> Prop) (P Q : Z -> Prop) (a b : Mat) :
  rel2 R a b -> all_pixels Q b -> (forall u v, R u v -> Q v -> P u) -> all_pixels P a.
Proof.
  unfold rel2, all_pixels. intros H HQ HP.
  apply (Forall2_transfer (Forall2 R) (Forall P) (Forall Q) a b H HQ).
  intros ra rb Hr Hq. exact (Forall2_transfer R P Q ra rb Hr Hq HP).
Qed.

Lemma land_255_byte (q : Z) : is_byte q -> Z.land 255 q = q.
Proof.
  intros [Hlo Hhi]. rewrite Z.land_comm. change 255 with (Z.ones 8).
  rewrite Z.land_ones by lia. apply Z.mod_small. simpl. lia.
Qed.

(** The relation between a returned candidate mask and an 8-bit lens
    mask: each sample is 0 or the sample of the lens mask. *)
Lemma detect_defects_samples `{OpenCV} (corrected mask : Mat) (threshold : Z) (cand : Mat) :
  detect_defects corrected mask threshold = Some cand ->
  all_pixels is_byte mask ->
  rel2 (fun p q => p = 0 \/ p = q) cand mask.
Proof.
  unfold detect_defects. intros Hd Hb.
  apply bitwise_and_Some in Hd. destruct Hd as [Hsize ->].
  apply (zip2_rel_r (fun u q => ((True /\ is_binary u) /\ is_byte q))).
  - apply rel2_all_r; [|exact Hb].
    apply rel2_all_l; [apply size_rel2, Hsize|apply opened_response_binary].
  - intros u q [[_ [->| ->]] Hq]; [left; reflexivity|right; apply land_255_byte, Hq].
Qed.

(** X4: over an 8-bit lens mask every sample of the candidate mask is 0
    or the sample of the lens mask at that place; over a {0, 255} lens
    mask the candidate mask is a {0, 255} image too. *)
Theorem candidate_samples_from_mask `{OpenCV} (corrected mask : Mat) (threshold : Z)
    (cand : Mat) :
  detect_defects corrected mask threshold = Some cand ->
  all_pixels is_byte mask ->
  (forall r c p, pixel cand r c = Some p ->
     exists q, pixel mask r c = Some q /\ (p = 0 \/ p = q)) /\
  (all_pixels is_binary mask -> all_pixels is_binary cand).
Proof.
  intros Hd Hb. pose proof (detect_defects_samples corrected mask threshold cand Hd Hb) as Hrel.
  split.
  - intros r c p Hp. pose proof (rel2_pixel _ _ _ r c Hrel) as Hpix.
    rewrite Hp in Hpix. destruct (pixel mask r c) as [q|]; [|contradiction].
    exists q. split; [reflexivity|exact Hpix].
  - intros Hbin. apply (rel2_transfer _ is_binary is_binary cand mask Hrel Hbin).
    intros u v [->| ->] Hv; [left; reflexivity|exact Hv].
Qed.

Lemma candidate_samples_from_mask_witness :
  exists cand,
    @detect_defects demo_cv speck7 full7 10 = Some cand /\
    pixel cand 3 3 = Some 255 /\
    all_pixels is_binary cand.
Proof.
  eexists. split; [vm_compute; reflexivity|]. split; [reflexivity|].
  apply (@candidate_samples_from_mask demo_cv speck7 full7 10).
  - vm_compute; reflexivity.
  - repeat (apply Forall_cons || apply Forall_nil); unfold is_byte; lia.
  - repeat (apply Forall_cons || apply Forall_nil); right; reflexivity.
Defined.

(** ** Thresholds outside the range of the samples *)

Lemma all_pixels_zip (Pa Pb P : Z -> Prop) (f : Z -> Z -> Z) (a b : Mat) :
  all_pixels Pa a -> all_pixels Pb b -> (forall u v, Pa u -> Pb v -> P (f u v)) ->
  all_pixels P (zip_with (zip_with f) a b).
Proof.
  unfold all_pixels. intros Ha. revert b.
  induction Ha as [|ra a Hra _ IH]; intros [|rb b] Hb Hf; simpl; try constructor.
  - inversion Hb as [|? ? Hrb _]; subst. clear -Hra Hrb Hf. revert rb Hrb.
    induction Hra as [|u ra Hu _ IHr]; intros [|v rb] Hrb; simpl; constructor;
      inversion Hrb; subst; auto.
  - inversion Hb; subst. apply IH; assumption.
Qed.

Lemma maximum_nonneg (l : list Z) : 0 <= maximum l.
Proof. unfold maximum. induction l; simpl; lia. Qed.

Lemma dilate_nonneg (k : Kernel) (m : Mat) : all_pixels (fun v => 0 <= v) (dilate k m).
Proof. apply all_pixels_build. intros r c. apply maximum_nonneg. Qed.

(** The top-hat response is not negative, and not above the image. *)
Lemma morph_tophat_range (k : Kernel) (m : Mat) (hi : Z) :
  0 <= hi -> all_pixels (fun v => v <= hi) m ->
  all_pixels (fun v => 0 <= v <= hi) (morph_tophat k m).
Proof.
  intros Hhi Hm. unfold morph_tophat, subtract.
  apply (all_pixels_zip (fun v => v <= hi) (fun v => 0 <= v)); [exact Hm| |].
  - unfold morph_open. apply dilate_nonneg.
  - intros u v Hu Hv. lia.
Qed.

Lemma filled_all (v : Z) (m : Mat) : all_pixels (fun u => u = v) (map (map (fun _ => v)) m).
Proof. apply all_pixels_map. reflexivity. Qed.

Lemma all_const_filled (v : Z) (m : Mat) :
  all_pixels (fun u => u = v) m -> map (map (fun _ => v)) m = m.
Proof.
  intros H. rewrite (map2_ext_all _ (fun u => u)).
  - rewrite <- (map_id m) at 2. apply map_ext. intros row. apply map_id.
  - eapply Forall_impl; [|exact H]. intros row Hr.
    eapply Forall_impl; [|exact Hr]. intros u Hu. symmetry. exact Hu.
Qed.

Lemma threshold_above_all (m : Mat) (t : Z) :
  all_pixels (fun v => v <= t) m -> threshold m t 255 = zeros m.
Proof.
  intros H. unfold threshold, zeros. apply map2_ext_all.
  eapply Forall_impl; [|exact H]. intros row Hr.
  eapply Forall_impl; [|exact Hr]. intros v Hv. simpl in Hv.
  destruct (Z.ltb_spec t v); [lia|reflexivity].
Qed.

Lemma threshold_below_all (m : Mat) (t : Z) :
  all_pixels (fun v => t < v) m -> threshold m t 255 = map (map (fun _ => 255)) m.
Proof.
  intros H. unfold threshold. apply map2_ext_all.
  eapply Forall_impl; [|exact H]. intros row Hr.
  eapply Forall_impl; [|exact Hr]. intros v Hv. simpl in Hv.
  destruct (Z.ltb_spec t v); [reflexivity|lia].
Qed.

Lemma morph_open_all_zero (k : Kernel) (m : Mat) :
  In (0, 0) k -> all_pixels is_zero m -> morph_open k m = m.
Proof.
  intros Hk Hz. unfold morph_open.
  rewrite (erode_all_zero k m Hk Hz), (zeros_all_zero m Hz).
  rewrite (dilate_all_zero k m Hz). apply zeros_all_zero, Hz.
Qed.

Lemma minimum_all_255 (l : list Z) : Forall (fun v => v = 255) l -> minimum l = 255.
Proof. unfold minimum. induction 1; simpl; lia. Qed.

Lemma maximum_all_255 (l : list Z) (v : Z) :
  Forall (fun v => v = 255) l -> In v l -> maximum l = 255.
Proof.
  unfold maximum. intros H Hin.
  assert (Hb : forall l', Forall (fun v => v = 255) l' -> fold_right Z.max 0 l' <= 255).
  { induction 1; simpl; lia. }
  destruct H as [|u l Hu Hl]; [destruct Hin|]. simpl. specialize (Hb _ Hl). lia.
Qed.

Lemma build_const (v : Z) (m : Mat) : build (fun _ _ => v) m = map (map (fun _ => v)) m.
Proof.
  unfold build. rewrite imap_from_const. apply map_ext. intros row.
  apply imap_from_const.
Qed.

Lemma morph_open_all_255 (k : Kernel) (m : Mat) :
  In (0, 0) k -> all_pixels (fun v => v = 255) m -> morph_open k m = m.
Proof.
  intros Hk H. unfold morph_open.
  assert (Hc : build (fun _ _ => 255) m = m).
  { rewrite build_const. apply all_const_filled, H. }
  assert (He : erode k m = m).
  { unfold erode. transitivity (build (fun _ _ => 255) m); [|exact Hc].
    apply build_ext. intros r c v _.
    apply minimum_all_255, (all_pixels_neighbourhood (fun v => v = 255)), H. }
  rewrite He. unfold dilate. transitivity (build (fun _ _ => 255) m); [|exact Hc].
  apply build_ext. intros r c v Hp. apply (maximum_all_255 _ v).
  - apply (all_pixels_neighbourhood (fun v => v = 255)), H.
  - apply neighbourhood_centre; assumption.
Qed.

Lemma zip_land_zero_l (z b : Mat) :
  size z = size b -> all_pixels is_zero z -> zip_with (zip_with Z.land) z b = zeros b.
Proof.
  unfold size, all_pixels, zeros. revert b.
  induction z as [|rz z IH]; intros [|rb b] E Hz; simpl in *; try discriminate;
    [reflexivity|]. inversion E as [[El Et]]. inversion Hz as [|? ? Hrz Hz']; subst.
  f_equal; [|apply IH; assumption]. clear -El Hrz. revert rb El.
  induction Hrz as [|u rz Hu _ IHr]; intros [|q rb] El; simpl in *; try discriminate;
    [reflexivity|]. unfold is_zero in Hu. subst u. rewrite Z.land_0_l. f_equal.
  apply IHr. congruence.
Qed.

Lemma zip_land_255_l (a b : Mat) :
  size a = size b -> all_pixels (fun v => v = 255) a -> all_pixels is_byte b ->
  zip_with (zip_with Z.land) a b = b.
Proof.
  unfold size, all_pixels. revert b.
  induction a as [|ra a IH]; intros [|rb b] E Ha Hb; simpl in *; try discriminate;
    [reflexivity|]. inversion E as [[El Et]].
  inversion Ha as [|? ? Hra Ha']; inversion Hb as [|? ? Hrb Hb']; subst.
  f_equal; [|apply IH; assumption]. clear -El Hra Hrb. revert rb El Hrb.
  induction Hra as [|u ra Hu _ IHr]; intros [|q rb] El Hrb; simpl in *; try discriminate;
    [reflexivity|]. inversion Hrb; subst. rewrite land_255_byte by assumption. f_equal.
  apply IHr; [congruence|assumption].
Qed.

(** X5: a threshold of 255 or more lets nothing through.  When the
    enhanced image is an 8-bit image the candidate mask is then the
    all-zero image, and the verdict is a pass with a ratio of +0. *)
Theorem threshold_255_empties `{OpenCV} (corrected mask : Mat) (threshold : Z)
    (cand : Mat) (defects : list Defect) :
  255 <= threshold ->
  all_pixels (fun v => v <= 255) (clahe_apply 3 (8, 8) corrected) ->
  In (0, 0) (getStructuringElement MORPH_ELLIPSE (3, 3)) ->
  countNonZero mask <= INT_MAX ->
  detect_defects corrected mask threshold = Some cand ->
  cand = zeros mask /\
  countNonZero cand = 0 /\
  defectAreaRatio (verdict mask cand defects) = S754_zero false /\
  pass (verdict mask cand defects) = true.
Proof.
  intros Ht He Hk Hcount Hd. unfold detect_defects in Hd.
  set (tophat := morph_tophat _ _) in Hd.
  assert (Hr : all_pixels (fun v => 0 <= v <= 255) tophat).
  { apply morph_tophat_range; [lia|exact He]. }
  assert (Hthr : Cv.threshold tophat threshold 255 = zeros tophat).
  { apply threshold_above_all. eapply Forall_impl; [|exact Hr]. intros row Hrow.
    eapply Forall_impl; [|exact Hrow]. intros v Hv. simpl in *. lia. }
  rewrite Hthr, (morph_open_all_zero _ _ Hk (all_zero_zeros tophat)) in Hd.
  apply bitwise_and_Some in Hd. destruct Hd as [Hs ->].
  rewrite (zip_land_zero_l _ _ Hs (all_zero_zeros tophat)).
  assert (Hc : countNonZero (zeros mask) = 0) by apply countNonZero_all_zero, all_zero_zeros.
  split; [reflexivity|]. split; [exact Hc|].
  assert (Hv : defectAreaRatio (verdict mask (zeros mask) defects) = S754_zero false).
  { rewrite verdict_ratio, Hc. apply ratio_of_zero.
    pose proof (countNonZero_nonneg mask). lia. }
  split; [exact Hv|]. unfold verdict in *. cbn [pass defectAreaRatio] in *.
  rewrite Hv. reflexivity.
Qed.

Lemma threshold_255_empties_witness :
  exists cand,
    @detect_defects demo_cv speck7 full7 255 = Some cand /\
    cand = zeros full7 /\
    pass (verdict full7 cand []) = true.
Proof.
  eexists. split; [vm_compute; reflexivity|].
  destruct (@threshold_255_empties demo_cv speck7 full7 255 _ []
              ltac:(lia)
              ltac:(repeat (apply Forall_cons || apply Forall_nil); simpl; lia)
              ltac:(vm_compute; tauto)
              ltac:(vm_compute; discriminate)
              ltac:(vm_compute; reflexivity)) as (E & _ & _ & P).
  split; [exact E|exact P].
Defined.

(** X6: a negative threshold lets everything through: over an 8-bit lens
    mask the candidate mask is the lens mask itself. *)
Theorem negative_threshold_gives_mask `{OpenCV} (corrected mask : Mat) (threshold : Z)
    (cand : Mat) :
  threshold < 0 ->
  In (0, 0) (getStructuringElement MORPH_ELLIPSE (3, 3)) ->
  all_pixels is_byte mask ->
  detect_defects corrected mask threshold = Some cand ->
  cand = mask.
Proof.
  intros Ht Hk Hb Hd. unfold detect_defects in Hd.
  set (tophat := morph_tophat _ _) in Hd.
  assert (Hr : all_pixels (fun v => threshold < v) tophat).
  { unfold tophat, morph_tophat, subtract.
    apply (all_pixels_zip (fun _ => True) (fun _ => True)).
    - apply Forall_forall. intros row _. apply Forall_forall. intros v _. exact I.
    - apply Forall_forall. intros row _. apply Forall_forall. intros v _. exact I.
    - intros u v _ _. lia. }
  rewrite (threshold_below_all _ _ Hr) in Hd.
  rewrite (morph_open_all_255 _ _ Hk (filled_all 255 tophat)) in Hd.
  apply bitwise_and_Some in Hd. destruct Hd as [Hs ->].
  apply zip_land_255_l; [exact Hs|apply filled_all|exact Hb].
Qed.

Lemma negative_threshold_gives_mask_witness :
  @detect_defects demo_cv speck7 full7 (-1) = Some full7.
Proof.
  assert (E : exists cand, @detect_defects demo_cv speck7 full7 (-1) = Some cand).
  { eexists. vm_compute. reflexivity. }
  destruct E as [cand E]. rewrite E. f_equal.
  apply (@negative_threshold_gives_mask demo_cv speck7 full7 (-1) cand).
  - lia.
  - vm_compute; tauto.
  - repeat (apply Forall_cons || apply Forall_nil); unfold is_byte; lia.
  - exact E.
Defined.

(** ** The blur kernel *)

Lemma rem2_zero_even (b : Z) : Z.rem b 2 = 0 -> Z.even b = true.
Proof.
  intros R. pose proof (Z.quot_rem' b 2) as Q. rewrite R, Z.add_0_r in Q.
  apply Z.even_spec. exists (Z.quot b 2). exact Q.
Qed.

Lemma correct_illumination_kernel `{OpenCV} (gray mask : Mat) (blur_size : Z) :
  correct_illumination gray mask blur_size
  = illumination_with_kernel gray mask
      (if Z.even blur_size then blur_size + 1 else blur_size).
Proof.
  unfold correct_illumination, illumination_with_kernel.
  destruct (Z.even blur_size) eqn:E.
  - rewrite (rem2_even _ E). reflexivity.
  - destruct (Z.eqb_spec (Z.rem blur_size 2) 0) as [R|R]; [|reflexivity].
    rewrite (rem2_zero_even _ R) in E. discriminate.
Qed.

(** X7: whatever blur size is asked for, the Gaussian blur is run with a
    square kernel of odd size [k], the blur size itself or the next
    integer; asking for [k] gives the same result. *)
Theorem blur_kernel_is_odd `{OpenCV} (gray mask : Mat) (blur_size : Z) :
  exists k,
    Z.odd k = true /\ blur_size <= k <= blur_size + 1 /\
    correct_illumination gray mask blur_size = illumination_with_kernel gray mask k /\
    correct_illumination gray mask k = correct_illumination gray mask blur_size.
Proof.
  exists (if Z.even blur_size then blur_size + 1 else blur_size).
  assert (Hodd : Z.odd (if Z.even blur_size then blur_size + 1 else blur_size) = true).
  { destruct (Z.even blur_size) eqn:E.
    - rewrite Z.add_1_r, Z.odd_succ. exact E.
    - rewrite <- Z.negb_even, E. reflexivity. }
  split; [exact Hodd|]. split; [destruct (Z.even blur_size); lia|].
  split; [apply correct_illumination_kernel|].
  rewrite (correct_illumination_kernel gray mask (if Z.even blur_size then _ else _)).
  rewrite <- Z.negb_odd, Hodd. cbn [negb]. symmetry. apply correct_illumination_kernel.
Qed.

(** ** Dark images *)

(** X8: a sample counts as lens only above 8.  On an image with no
    sample above 8 the lens mask is the all-zero image of the same
    dimensions, as on an all-zero image. *)
Theorem dark_image_has_no_lens `{OpenCV} (gray : Mat) :
  all_pixels (fun v => v <= 8) gray ->
  In (0, 0) (getStructuringElement MORPH_ELLIPSE (15, 15)) ->
  findContours (zeros gray) = [] ->
  extract_lens_mask gray = zeros gray /\
  countNonZero (extract_lens_mask gray) = 0.
Proof.
  intros Hd Hk Hc.
  assert (E : extract_lens_mask gray = zeros gray).
  { unfold extract_lens_mask. rewrite (threshold_above_all gray 8 Hd).
    pose proof (all_zero_zeros gray) as Hz.
    unfold morph_close.
    rewrite (dilate_all_zero _ _ Hz), (zeros_all_zero _ Hz).
    rewrite (erode_all_zero _ _ Hk Hz), (zeros_all_zero _ Hz).
    rewrite (morph_open_all_zero _ _ Hk Hz), Hc. reflexivity. }
  split; [exact E|]. rewrite E. apply countNonZero_all_zero, all_zero_zeros.
Qed.

Lemma dark_image_has_no_lens_witness :
  @extract_lens_mask demo_cv (repeat (repeat 8 5%nat) 5%nat)
  = zeros (repeat (repeat 8 5%nat) 5%nat) /\
  countNonZero (@extract_lens_mask demo_cv (repeat (repeat 8 5%nat) 5%nat)) = 0.
Proof.
  apply (@dark_image_has_no_lens demo_cv (repeat (repeat 8 5%nat) 5%nat)).
  - repeat (apply Forall_cons || apply Forall_nil); simpl; lia.
  - vm_compute; tauto.
  - reflexivity.
Defined.

(** ** The pass threshold *)

Lemma rounded_ge_quotient (q : Z) (l : location) (sh : Z) : q / 2 ^ sh <= rounded q l sh.
Proof. unfold rounded. destruct (round_up q l sh); lia. Qed.

(** The quotient of two positive binary32 values is not below a binary32
    value [cm * 2 ^ ce] that the exact quotient is not below. *)
Lemma div_canonical_ge (p1 p2 : positive) (e1 e2 cm ce : Z) :
  2 ^ 23 <= Zpos p1 < 2 ^ 24 -> 2 ^ 23 <= Zpos p2 < 2 ^ 24 ->
  -23 <= e1 <= 80 -> -23 <= e2 <= 80 ->
  2 ^ 23 <= cm < 2 ^ 24 ->
  (0 <= ce - (e1 - e2 - 24) ->
   cm * 2 ^ (ce - (e1 - e2 - 24)) * Zpos p2 <= Zpos p1 * 2 ^ 24) ->
  exists m e,
    SFdiv 24 128 (S754_finite false p1 e1) (S754_finite false p2 e2)
    = S754_finite false m e /\
    lex_le (cm, ce) (Zpos m, e).
Proof.
  intros H1 H2 He1 He2 Hc Hx. unfold lex_le. cbn [fst snd].
  unfold SFdiv, SFdiv_core_binary.
  rewrite (Zdigits2_unique (Zpos p1) 24), (Zdigits2_unique (Zpos p2) 24) by (simpl; lia).
  rewrite fexp32 by lia.
  replace (Z.min (24 + e1 - (24 + e2) - 24) (e1 - e2)) with (e1 - e2 - 24) by lia.
  replace (e1 - e2 - (e1 - e2 - 24)) with 24 by lia.
  rewrite Z.shiftl_mul_pow2 by lia.
  pose proof (Z_div_mod (Zpos p1 * 2 ^ 24) (Zpos p2) ltac:(lia)) as Hdm.
  destruct (Z.div_eucl (Zpos p1 * 2 ^ 24) (Zpos p2)) as [q r].
  destruct Hdm as [Hq Hr]. cbn [xorb].
  set (l := new_location (Zpos p2) r).
  set (e' := e1 - e2 - 24) in *.
  assert (P23 : 2 ^ 23 = 8388608) by reflexivity.
  assert (P24 : 2 ^ 24 = 16777216) by reflexivity.
  assert (P25 : 2 ^ 25 = 33554432) by reflexivity.
  (* the scaled bound is below the integer quotient *)
  assert (Hcq : 0 <= ce - e' -> cm * 2 ^ (ce - e') <= q).
  { intros Ha. specialize (Hx Ha).
    destruct (Z_lt_le_dec q (cm * 2 ^ (ce - e'))) as [Hlt|Hge]; [|exact Hge]. nia. }
  assert (Hpow : forall a, 1 <= a -> 2 <= 2 ^ a).
  { intros a Ha. change 2 with (2 ^ 1) at 1. apply Z.pow_le_mono_r; lia. }
  assert (Hpow2 : forall a, 2 <= a -> 4 <= 2 ^ a).
  { intros a Ha. change 4 with (2 ^ 2). apply Z.pow_le_mono_r; lia. }
  destruct (Z_lt_le_dec (Zpos p1) (Zpos p2)) as [Hlt|Hge].
  - assert (Hqb : 2 ^ (23 + 0) <= q < 2 ^ (24 + 0)) by (simpl (23 + 0); simpl (24 + 0); nia).
    rewrite (binary_round_aux_normal q e' l 0) by (unfold e'; lia).
    pose proof (rounded_bounds q l 0 ltac:(lia) Hqb) as Hrb.
    pose proof (rounded_ge_quotient q l 0) as Hrq. rewrite Z.div_1_r in Hrq.
    assert (Hce : ce <= e').
    { destruct (Z_le_gt_dec ce e') as [H|H]; [exact H|].
      specialize (Hcq ltac:(lia)). specialize (Hpow (ce - e') ltac:(lia)). simpl in Hqb. nia. }
    destruct (Z.ltb_spec (rounded q l 0) (2 ^ 24)).
    + eexists _, _. split; [reflexivity|]. rewrite Z2Pos.id by lia.
      destruct (Z.eq_dec ce e') as [E|NE]; [|left; lia]. right. split; [lia|].
      specialize (Hcq ltac:(lia)). replace (ce - e') with 0 in Hcq by lia.
      simpl in Hcq. lia.
    + eexists _, _. split; [reflexivity|]. left. lia.
  - assert (Hqb : 2 ^ (23 + 1) <= q < 2 ^ (24 + 1)) by (simpl (23 + 1); simpl (24 + 1); nia).
    rewrite (binary_round_aux_normal q e' l 1) by (unfold e'; lia).
    pose proof (rounded_bounds q l 1 ltac:(lia) Hqb) as Hrb.
    pose proof (rounded_ge_quotient q l 1) as Hrq. change (2 ^ 1) with 2 in Hrq.
    assert (Hce : ce <= e' + 1).
    { destruct (Z_le_gt_dec ce (e' + 1)) as [H|H]; [exact H|].
      specialize (Hcq ltac:(lia)). specialize (Hpow2 (ce - e') ltac:(lia)).
      simpl in Hqb. nia. }
    destruct (Z.ltb_spec (rounded q l 1) (2 ^ 24)).
    + eexists _, _. split; [reflexivity|]. rewrite Z2Pos.id by lia.
      destruct (Z.eq_dec ce (e' + 1)) as [E|NE]; [|left; lia]. right. split; [lia|].
      specialize (Hcq ltac:(lia)). replace (ce - e') with 1 in Hcq by lia.
      change (2 ^ 1) with 2 in Hcq.
      assert (cm <= q / 2) by (apply Z.div_le_lower_bound; lia). lia.
    + eexists _, _. split; [reflexivity|]. left. lia.
Qed.

Lemma not_ltb_of_lex_le (m cm : positive) (e ce : Z) :
  lex_le (Zpos cm, ce) (Zpos m, e) ->
  Float32.ltb (S754_finite false m e) (S754_finite false cm ce) = false.
Proof.
  unfold lex_le, Float32.ltb, SFltb. cbn [fst snd SFcompare]. intros H.
  destruct (Z.compare_spec e ce) as [Ee|Ee|Ee].
  - change (Pos.compare_cont Eq m cm) with (Pos.compare m cm).
    destruct (Pos.compare_spec m cm); try reflexivity. lia.
  - lia.
  - reflexivity.
Qed.

(** [(float) n] is exact below 2 ^ 24. *)
Lemma nearest_exact (n : Z) :
  0 < n < 2 ^ 24 ->
  nearest n = (n * 2 ^ (24 - Zdigits2 n), Zdigits2 n - 24) /\ 0 < Zdigits2 n <= 24.
Proof.
  intros [Hn Hhi]. destruct (Zdigits2_bounds n Hn) as [Pd [Lo _]].
  assert (Hd : Zdigits2 n <= 24).
  { destruct (Z.le_gt_cases (Zdigits2 n) 24) as [H|H]; [exact H|].
    assert (2 ^ 24 <= 2 ^ (Zdigits2 n - 1)) by (apply Z.pow_le_mono_r; lia). lia. }
  split; [|lia]. unfold nearest. destruct (Z.leb_spec (Zdigits2 n) 24); [reflexivity|lia].
Qed.

Lemma ratio_of_floor (lens defect : Z) :
  0 <= lens <= INT_MAX -> ratio_of lens defect = ratio_of (Z.max lens 1) defect.
Proof.
  intros [Hl Hu]. destruct (Z.eq_dec lens 0) as [->|Hz]; [reflexivity|].
  rewrite Z.max_l by lia. reflexivity.
Qed.

(** A ratio that is at least 10995116 * 2 ^ -41, the binary32 value of
    [0.000005f], is not below the pass threshold. *)
Lemma ratio_of_not_below (lens defect : Z) :
  0 < lens < 2 ^ 24 -> 0 < defect < 2 ^ 24 ->
  10995116 * lens <= 2 ^ 41 * defect ->
  Float32.ltb (ratio_of lens defect) f0_000005 = false.
Proof.
  intros Hl Hd Hx. unfold ratio_of.
  destruct (of_int_positive defect ltac:(simpl in *; lia)) as (pd & ed & -> & Nd & Hpd & Hed).
  destruct (of_int_positive lens ltac:(simpl in *; lia)) as (pl & el & -> & Nl & Hpl & Hel).
  rewrite max_one_canonical by lia.
  destruct (nearest_exact defect Hd) as [Ed Dd]. destruct (nearest_exact lens Hl) as [El Dl].
  rewrite Ed in Nd. rewrite El in Nl.
  apply pair_equal_spec in Nd, Nl. destruct Nd as [Mpd Eed], Nl as [Mpl Eel].
  set (dd := Zdigits2 defect) in *. set (dl := Zdigits2 lens) in *.
  destruct (div_canonical_ge pd pl ed el 10995116 (-41)) as (m & e & E & Hlex);
    try lia; try (simpl; lia).
  - intros Ha. rewrite Mpd, Mpl, Eed, Eel in *.
    replace (-41 - (dd - 24 - (dl - 24) - 24)) with (dl - dd - 17) in * by lia.
    (* both sides carry the factor 2 ^ (7 - dd) *)
    assert (P1 : 2 ^ (dl - dd - 17) * 2 ^ (24 - dl) = 2 ^ (7 - dd)).
    { rewrite <- pow2_split by lia. f_equal. lia. }
    assert (P2 : 2 ^ (24 - dd) * 2 ^ 24 = 2 ^ 41 * 2 ^ (7 - dd)).
    { rewrite <- !pow2_split by lia. f_equal. lia. }
    assert (P3 : 0 < 2 ^ (7 - dd)) by (apply Z.pow_pos_nonneg; lia).
    replace (10995116 * 2 ^ (dl - dd - 17) * (lens * 2 ^ (24 - dl)))
      with (10995116 * lens * (2 ^ (dl - dd - 17) * 2 ^ (24 - dl))) by ring.
    replace (defect * 2 ^ (24 - dd) * 2 ^ 24)
      with (defect * (2 ^ (24 - dd) * 2 ^ 24)) by ring.
    rewrite P1, P2. nia.
  - unfold Float32.div, Float32.prec, Float32.emax. rewrite E.
    change f0_000005 with (S754_finite false 10995116 (-41)).
    apply not_ltb_of_lex_le. exact Hlex.
Qed.

Lemma ratio_of_pass_bound (lens defect : Z) :
  0 <= lens < 2 ^ 24 -> 0 <= defect < 2 ^ 24 ->
  Float32.ltb (ratio_of lens defect) f0_000005 = true ->
  2 ^ 41 * defect < 10995116 * Z.max lens 1.
Proof.
  intros Hl Hd Hp.
  assert (P24 : 2 ^ 24 = 16777216) by reflexivity.
  assert (P41 : 2 ^ 41 = 2199023255552) by reflexivity.
  rewrite ratio_of_floor in Hp by (unfold INT_MAX; lia).
  destruct (Z_lt_le_dec (2 ^ 41 * defect) (10995116 * Z.max lens 1)) as [H|H]; [exact H|].
  assert (Hd0 : 0 < defect) by lia.
  rewrite ratio_of_not_below in Hp; [discriminate|lia|lia|exact H].
Qed.

Lemma verdict_pass (stored_mask defect_mask : Mat) (stored_defects : list Defect) :
  pass (verdict stored_mask defect_mask stored_defects)
  = Float32.ltb (ratio_of (countNonZero stored_mask) (countNonZero defect_mask)) f0_000005.
Proof. reflexivity. Qed.

(** X9: a pass bounds the exact ratio of the two counts.  For counts below
    2 ^ 24 (which the cast to float keeps exact) a pass means
    defect / max (lens, 1) < 10995116 * 2 ^ -41, the binary32 value of
    0.000005. *)
Theorem pass_bounds_exact_ratio (stored_mask defect_mask : Mat)
    (stored_defects : list Defect) :
  countNonZero stored_mask < 2 ^ 24 -> countNonZero defect_mask < 2 ^ 24 ->
  pass (verdict stored_mask defect_mask stored_defects) = true ->
  2 ^ 41 * countNonZero defect_mask < 10995116 * Z.max (countNonZero stored_mask) 1.
Proof.
  intros Hl Hd Hp. rewrite verdict_pass in Hp.
  pose proof (countNonZero_nonneg stored_mask) as Pl.
  pose proof (countNonZero_nonneg defect_mask) as Pd.
  apply ratio_of_pass_bound; [lia|lia|exact Hp].
Qed.

Lemma pass_bounds_exact_ratio_witness :
  countNonZero lens449 = 201601 /\ countNonZero dot449 = 1 /\
  pass (verdict lens449 dot449 []) = true /\
  2 ^ 41 * countNonZero dot449 < 10995116 * Z.max (countNonZero lens449) 1.
Proof.
  split; [vm_compute; reflexivity|]. split; [vm_compute; reflexivity|].
  assert (Hp : pass (verdict lens449 dot449 []) = true) by (vm_compute; reflexivity).
  split; [exact Hp|].
  apply (pass_bounds_exact_ratio lens449 dot449 []);
    [vm_compute; reflexivity|vm_compute; reflexivity|exact Hp].
Defined.

(** X10: when the lens mask has at most 200000 samples, one defect sample
    is enough to fail: the verdict is a pass exactly when the candidate
    mask is empty. *)
Theorem small_lens_passes_only_clean (stored_mask defect_mask : Mat)
    (stored_defects : list Defect) :
  countNonZero stored_mask <= 200000 -> countNonZero defect_mask < 2 ^ 24 ->
  (pass (verdict stored_mask defect_mask stored_defects) = true
   <-> countNonZero defect_mask = 0).
Proof.
  intros Hl Hd. rewrite verdict_pass.
  pose proof (countNonZero_nonneg stored_mask) as Pl.
  pose proof (countNonZero_nonneg defect_mask) as Pd.
  assert (P24 : 2 ^ 24 = 16777216) by reflexivity.
  assert (P41 : 2 ^ 41 = 2199023255552) by reflexivity.
  split.
  - intros Hp.
    pose proof (ratio_of_pass_bound (countNonZero stored_mask) (countNonZero defect_mask)
                  ltac:(lia) ltac:(lia) Hp) as H. lia.
  - intros Hz. rewrite Hz, ratio_of_zero by (unfold INT_MAX; lia). reflexivity.
Qed.

Lemma small_lens_passes_only_clean_witness :
  pass (verdict full7 (threshold speck7 100 255) []) = true
  <-> countNonZero (threshold speck7 100 255) = 0.
Proof.
  apply (small_lens_passes_only_clean full7 (threshold speck7 100 255) []);
    vm_compute; (discriminate || reflexivity).
Defined.

Example of_Q_third : Float32Ops.of_Q (1 # 3) = S754_finite false 11184811 (-25).
Proof. reflexivity. Qed.

Example of_Q_two : Float32Ops.of_Q (384 # 192) = S754_finite false 8388608 (-22).
Proof. reflexivity. Qed.

Example of_Q_seven_tenths : Float32Ops.of_Q (7 # 10) = f0_70.
Proof. reflexivity. Qed.

Example FLT_MAX_bits : Float32Ops.FLT_MAX = S754_finite false 16777215 104.
Proof. reflexivity. Qed.

(** ** Small integers as binary32 values *)

Lemma binary_round_aux_opp (prec emax : Z) (m e : Z) (l : location) :
  binary_round_aux prec emax true m e l = SFopp (binary_round_aux prec emax false m e l).
Proof.
  unfold binary_round_aux.
  destruct (shr_fexp prec emax m e l) as [mrs' e'].
  destruct (shr_fexp prec emax _ e' loc_Exact) as [mrs'' e''].
  destruct (shr_m mrs''); try reflexivity.
  destruct (e'' <=? emax - prec); reflexivity.
Qed.

Lemma binary_round_opp (prec emax : Z) (p : positive) (e : Z) :
  binary_round prec emax true p e = SFopp (binary_round prec emax false p e).
Proof.
  unfold binary_round. destruct (shl_align p e _) as [mz ez]. apply binary_round_aux_opp.
Qed.

Lemma of_int_opp (n : Z) : 0 < n -> Float32.of_int (- n) = SFopp (Float32.of_int n).
Proof.
  intros Hn. destruct n as [|p|p]; try lia.
  unfold Float32.of_int, binary_normalize. simpl Z.opp. cbv iota.
  apply binary_round_opp.
Qed.

(** [(float) n] for [0 < n < 2 ^ 24], written out. *)
Lemma of_int_exact (n : Z) :
  0 < n < 2 ^ 24 ->
  exists p : positive,
    Float32.of_int n = S754_finite false p (Zdigits2 n - 24) /\
    Zpos p = n * 2 ^ (24 - Zdigits2 n) /\ 0 < Zdigits2 n <= 24.
Proof.
  intros Hn.
  destruct (of_int_positive n ltac:(simpl in *; lia)) as (p & e & E & N & _ & _).
  destruct (nearest_exact n Hn) as [En Hd]. rewrite En in N.
  apply pair_equal_spec in N. destruct N as [Np Ne]. subst e.
  exists p. split; [exact E|]. split; [exact Np|exact Hd].
Qed.

Lemma to_int_of_int (n : Z) : 0 < n < 2 ^ 24 -> Float32.to_int (Float32.of_int n) = n.
Proof.
  intros Hn. destruct (of_int_exact n Hn) as (p & -> & Hp & Hd).
  unfold Float32.to_int. rewrite Hp.
  assert (P : 0 < 2 ^ (24 - Zdigits2 n)) by (apply Z.pow_pos_nonneg; lia).
  destruct (Z.leb_spec 0 (Zdigits2 n - 24)) as [H|H].
  - replace (24 - Zdigits2 n) with 0 by lia. replace (Zdigits2 n - 24) with 0 by lia.
    simpl. lia.
  - replace (- (Zdigits2 n - 24)) with (24 - Zdigits2 n) by lia.
    apply Z.div_mul. lia.
Qed.

Lemma of_int_ltb_exact (a b : Z) :
  0 < a < 2 ^ 24 -> 0 < b < 2 ^ 24 ->
  Float32.ltb (Float32.of_int a) (Float32.of_int b) = (a <? b).
Proof.
  intros Ha Hb.
  destruct (of_int_exact a Ha) as (pa & -> & Hpa & Hda).
  destruct (of_int_exact b Hb) as (pb & -> & Hpb & Hdb).
  destruct (Zdigits2_bounds a ltac:(lia)) as [_ [La Ua]].
  destruct (Zdigits2_bounds b ltac:(lia)) as [_ [Lb Ub]].
  unfold Float32.ltb, SFltb. cbn [SFcompare].
  set (da := Zdigits2 a) in *. set (db := Zdigits2 b) in *.
  destruct (Z.compare_spec (da - 24) (db - 24)) as [E|L|G].
  - assert (Ed : da = db) by lia. rewrite Ed in *.
    assert (P : 0 < 2 ^ (24 - db)) by (apply Z.pow_pos_nonneg; lia).
    change (Pos.compare_cont Eq pa pb) with (Pos.compare pa pb).
    destruct (Pos.compare_spec pa pb) as [E'|L'|G'];
      destruct (Z.ltb_spec a b); try reflexivity; nia.
  - assert (2 ^ da <= 2 ^ (db - 1)) by (apply Z.pow_le_mono_r; lia).
    destruct (Z.ltb_spec a b); [reflexivity|lia].
  - assert (2 ^ db <= 2 ^ (da - 1)) by (apply Z.pow_le_mono_r; lia).
    destruct (Z.ltb_spec a b); [lia|reflexivity].
Qed.

(** [std::max<float> (0, k)] and [std::min<float> (a, b)] on small
    integers, cast back to [int]. *)
Lemma to_int_max_zero (k : Z) :
  - 2 ^ 24 < k < 2 ^ 24 ->
  Float32.to_int (Float32.max (Float32.of_int 0) (Float32.of_int k)) = Z.max 0 k.
Proof.
  intros Hk. destruct (Z.lt_trichotomy k 0) as [Hn|[->|Hp]].
  - replace k with (- (- k)) by lia. rewrite of_int_opp by lia.
    destruct (of_int_exact (- k) ltac:(lia)) as (p & -> & _ & _).
    rewrite Z.max_l by lia. reflexivity.
  - reflexivity.
  - destruct (of_int_exact k ltac:(lia)) as (p & E & _ & _).
    unfold Float32.max. rewrite E. change (Float32.ltb (Float32.of_int 0) _) with true.
    cbv iota. rewrite <- E, to_int_of_int by lia. lia.
Qed.

Lemma to_int_min (a b : Z) :
  0 < a < 2 ^ 24 -> 0 < b < 2 ^ 24 ->
  Float32.to_int (Float32Ops.min (Float32.of_int a) (Float32.of_int b)) = Z.min a b.
Proof.
  intros Ha Hb. unfold Float32Ops.min. rewrite of_int_ltb_exact by assumption.
  destruct (Z.ltb_spec b a); rewrite to_int_of_int by assumption; lia.
Qed.

(** ** The crop around a defect *)

Lemma crop_axis (c : Float32.float) (dim padding : Z) :
  1 <= padding < 2 ^ 22 -> dim < 2 ^ 24 -> 0 <= Float32.to_int c < dim ->
  let o := Float32.to_int
             (Float32.max (Float32.of_int 0) (Float32.of_int (Float32.to_int c - padding))) in
  let e := Float32.to_int
             (Float32Ops.min (Float32.of_int (dim - o)) (Float32.of_int (padding * 2))) in
  o = Z.max 0 (Float32.to_int c - padding) /\
  e = Z.min (dim - o) (padding * 2) /\
  0 <= o /\ 1 <= e <= 2 * padding /\ o + e <= dim /\
  o <= Float32.to_int c < o + e.
Proof.
  intros Hp Hdim Hc o e.
  assert (P22 : 2 ^ 22 = 4194304) by reflexivity.
  assert (P24 : 2 ^ 24 = 16777216) by reflexivity.
  assert (Ho : o = Z.max 0 (Float32.to_int c - padding)).
  { unfold o. apply to_int_max_zero. lia. }
  assert (He : e = Z.min (dim - o) (padding * 2)).
  { unfold e. apply to_int_min; lia. }
  split; [exact Ho|]. split; [exact He|]. lia.
Qed.

Lemma crop_rect_fits (corrected : Mat) (d : Defect) (padding : Z) :
  1 <= padding < 2 ^ 22 ->
  cols corrected < 2 ^ 24 -> rows corrected < 2 ^ 24 ->
  centre_inside corrected d ->
  roi_ok corrected (crop_rect corrected d padding) = true.
Proof.
  intros Hp Hc Hr [Hx Hy].
  destruct (crop_axis (center_x d) (cols corrected) padding Hp Hc Hx)
    as (_ & _ & X0 & Xw & Xs & _).
  destruct (crop_axis (center_y d) (rows corrected) padding Hp Hr Hy)
    as (_ & _ & Y0 & Yh & Ys & _).
  unfold crop_rect, roi_ok. cbn [x y width height].
  repeat (apply andb_true_intro; split);
    try (apply Z.leb_le; lia); apply Z.ltb_lt; lia.
Qed.

(** X11: around a defect whose centre lies in the corrected image, the
    rectangle that is cut (padding 50 for the zoom, 30 for a thumbnail)
    lies inside the image, is not empty, is at most twice the padding
    wide and high, and holds the centre. *)
Theorem crop_rect_inside (corrected : Mat) (d : Defect) (padding : Z) :
  1 <= padding < 2 ^ 22 ->
  cols corrected < 2 ^ 24 -> rows corrected < 2 ^ 24 ->
  centre_inside corrected d ->
  let r := crop_rect corrected d padding in
  roi_ok corrected r = true /\
  1 <= width r <= 2 * padding /\ 1 <= height r <= 2 * padding /\
  x r <= Float32.to_int (center_x d) < x r + width r /\
  y r <= Float32.to_int (center_y d) < y r + height r.
Proof.
  intros Hp Hc Hr [Hx Hy] r.
  destruct (crop_axis (center_x d) (cols corrected) padding Hp Hc Hx)
    as (_ & _ & X0 & Xw & Xs & Xc).
  destruct (crop_axis (center_y d) (rows corrected) padding Hp Hr Hy)
    as (_ & _ & Y0 & Yh & Ys & Yc).
  unfold r, crop_rect, roi_ok. cbn [x y width height].
  split; [|split; [exact Xw|split; [exact Yh|split; [exact Xc|exact Yc]]]].
  repeat (apply andb_true_intro; split);
    try (apply Z.leb_le; lia); apply Z.ltb_lt; lia.
Qed.

Lemma crop_rect_inside_witness :
  exists d,
    @analyze_defects demo_cv full5 = [d] /\
    roi_ok full5 (crop_rect full5 d 50) = true /\
    crop_rect full5 d 50 = mkRect 0 0 5 5.
Proof.
  assert (H : exists d, @analyze_defects demo_cv full5 = [d]
                        /\ centre_inside full5 d
                        /\ crop_rect full5 d 50 = mkRect 0 0 5 5).
  { eexists. split; [vm_compute; reflexivity|]. split; [|vm_compute; reflexivity].
    vm_compute. repeat split; discriminate. }
  destruct H as (d & Hd & Hc & Hr). exists d. split; [exact Hd|]. split; [|exact Hr].
  apply (crop_rect_inside full5 d 50); [vm_compute|vm_compute|vm_compute|exact Hc];
    repeat split; discriminate || reflexivity.
Defined.

(** ** The defect cards *)

Lemma populate_loop_spec (corrected : Mat) (defects : list Defect) :
  cols corrected < 2 ^ 24 -> rows corrected < 2 ^ 24 ->
  Forall (centre_inside corrected) defects ->
  forall i,
  exists cards,
    populate_loop corrected defects i = Some cards /\
    map card_tag cards = map (fun k => i + Z.of_nat k) (seq 0 (List.length defects)) /\
    Forall2 (fun d c => thumb c = crop_rect corrected d 30 /\
                        type_color c = card_colour d /\
                        card_number c = card_tag c + 1) defects cards.
Proof.
  intros Hc Hr Hall. induction Hall as [|d rest Hd _ IH]; intros i.
  - exists []. repeat split. constructor.
  - cbn [populate_loop].
    pose proof (crop_rect_fits corrected d 30 ltac:(simpl; lia) Hc Hr Hd) as Hok.
    rewrite Hok. destruct (IH (i + 1)) as (cards & -> & Ht & Hf).
    eexists. split; [reflexivity|]. split.
    + cbn [map List.length seq card_tag]. f_equal; [simpl; lia|].
      rewrite Ht, <- seq_shift, map_map. apply map_ext. intros k. lia.
    + constructor; [|exact Hf]. repeat split.
Qed.

Lemma select_defect_spec `{OpenCV} (ui : Ui) (corrected : Mat) (d : Defect) (idx : Z) :
  stored_corrected_ ui = Some corrected ->
  cols corrected < 2 ^ 24 -> rows corrected < 2 ^ 24 ->
  0 <= idx -> nth_error (stored_defects_ ui) (Z.to_nat idx) = Some d ->
  centre_inside corrected d ->
  exists z, select_defect ui idx = Some z /\
            crop z = crop_rect corrected d 50 /\ info_number z = idx + 1.
Proof.
  intros Hcor Hc Hr Hi Hn Hd. unfold select_defect.
  destruct (Z.ltb_spec idx 0); [lia|]. rewrite Hn, Hcor.
  pose proof (crop_rect_fits corrected d 50 ltac:(simpl; lia) Hc Hr Hd) as Hok.
  rewrite Hok. eexists. repeat split.
Qed.

(** X12: when every defect has its centre in the corrected image, the
    list gets one card for each defect, tagged 0, 1, 2, ... in the order of
    the defects.  The card with tag [t] carries the number [t + 1], the
    colour of the type of defect [t] and the thumbnail cut around defect
    [t]; a click on it enlarges the crop around that same defect and shows
    the number that is written on the card. *)
Theorem cards_select_their_defect `{OpenCV} (ui : Ui) (corrected : Mat) :
  stored_corrected_ ui = Some corrected ->
  cols corrected < 2 ^ 24 -> rows corrected < 2 ^ 24 ->
  Forall (centre_inside corrected) (stored_defects_ ui) ->
  exists cards,
    populate_defect_list ui = Some cards /\
    map card_tag cards = map Z.of_nat (seq 0 (List.length (stored_defects_ ui))) /\
    Forall2 (fun d c => type_color c = card_colour d /\
                        thumb c = crop_rect corrected d 30)
            (stored_defects_ ui) cards /\
    forall c, In c cards ->
      card_number c = card_tag c + 1 /\
      exists d z,
        nth_error (stored_defects_ ui) (Z.to_nat (card_tag c)) = Some d /\
        type_color c = card_colour d /\
        thumb c = crop_rect corrected d 30 /\
        defect_card_click ui (card_tag c) = Some z /\
        crop z = crop_rect corrected d 50 /\
        info_number z = card_number c.
Proof.
  intros Hcor Hc Hr Hall.
  destruct (populate_loop_spec corrected (stored_defects_ ui) Hc Hr Hall 0)
    as (cards & Hp & Ht & Hf).
  exists cards. split; [unfold populate_defect_list; rewrite Hcor; exact Hp|].
  split; [rewrite Ht; apply map_ext; intros k; lia|]. split.
  - eapply Forall2_impl; [|exact Hf]. intros d c (Hth & Hcol & _).
    split; [exact Hcol|exact Hth].
  - intros c Hin.
    assert (Hlen : List.length cards = List.length (stored_defects_ ui)).
    { rewrite <- (length_map card_tag), Ht, length_map, length_seq. reflexivity. }
    destruct (In_nth_error _ _ Hin) as [k Hk].
    assert (Hklt : (k < List.length cards)%nat).
    { apply nth_error_Some. rewrite Hk. discriminate. }
    assert (Htag : card_tag c = Z.of_nat k).
    { pose proof (map_nth_error card_tag _ _ Hk) as Hm. rewrite Ht in Hm.
      rewrite nth_error_map, nth_error_seq in Hm.
      destruct (Nat.ltb_spec k (List.length (stored_defects_ ui))); [|lia].
      simpl in Hm. inversion Hm. lia. }
    pose proof (Forall2_nth_error _ _ _ Hf k) as Hfk. rewrite Hk in Hfk.
    destruct (nth_error (stored_defects_ ui) k) as [d|] eqn:Hd; [|contradiction].
    destruct Hfk as (Hth & Hcol & Hnum).
    split; [exact Hnum|].
    assert (Hin_d : centre_inside corrected d).
    { rewrite Forall_forall in Hall. apply Hall. eapply nth_error_In, Hd. }
    assert (Hnth : nth_error (stored_defects_ ui) (Z.to_nat (card_tag c)) = Some d).
    { rewrite Htag, Nat2Z.id. exact Hd. }
    destruct (select_defect_spec ui corrected d (card_tag c) Hcor Hc Hr
                ltac:(rewrite Htag; lia) Hnth Hin_d) as (z & Hz & Hcrop & Hinfo).
    exists d, z. split; [exact Hnth|]. split; [exact Hcol|]. split; [exact Hth|].
    split; [exact Hz|]. split; [exact Hcrop|]. rewrite Hinfo, Hnum. reflexivity.
Qed.

Lemma cards_select_their_defect_witness :
  map (fun t => option_map crop (@defect_card_click blobs_cv blobs_ui t)) [0; 1; 2; 3]
  = [Some (mkRect 0 0 100 100); Some (mkRect 51 0 100 100);
     Some (mkRect 0 51 100 100); Some (mkRect 148 148 52 52)] /\
  option_map (map type_color) (@populate_defect_list blobs_cv blobs_ui)
  = Some [(220, 80, 220); (255, 80, 80); (220, 80, 220); (220, 80, 220)] /\
  exists cards,
    @populate_defect_list blobs_cv blobs_ui = Some cards /\
    map card_tag cards = [0; 1; 2; 3] /\
    forall c, In c cards ->
      card_number c = card_tag c + 1 /\
      exists d z,
        nth_error (stored_defects_ blobs_ui) (Z.to_nat (card_tag c)) = Some d /\
        type_color c = card_colour d /\
        thumb c = crop_rect full200 d 30 /\
        @defect_card_click blobs_cv blobs_ui (card_tag c) = Some z /\
        crop z = crop_rect full200 d 50 /\
        info_number z = card_number c.
Proof.
  split; [vm_compute; reflexivity|]. split; [vm_compute; reflexivity|].
  destruct (@cards_select_their_defect blobs_cv blobs_ui full200)
    as (cards & Hp & Ht & _ & Hs).
  - reflexivity.
  - vm_compute; reflexivity.
  - vm_compute; reflexivity.
  - apply Forall_forall. intros d Hd. vm_compute in Hd.
    destruct Hd as [<-|[<-|[<-|[<-|[]]]]];
      vm_compute; split; split; (discriminate || reflexivity).
  - exists cards. split; [exact Hp|]. split; [|exact Hs].
    refine (eq_trans Ht _). vm_compute. reflexivity.
Defined.

(** ** The click on the analysed image *)

Lemma ltb_irrefl (a : Float32.float) : Float32.ltb a a = false.
Proof.
  unfold Float32.ltb, SFltb.
  destruct a as [[]|[]| |[] m e]; simpl; try reflexivity;
    rewrite Z.compare_refl;
    change (Pos.compare_cont Eq m m) with (Pos.compare m m);
    rewrite Pos.compare_refl; reflexivity.
Qed.

Lemma leb_ltb_trans (a b c : Float32.float) :
  Float32.leb a b = true -> Float32.ltb b c = true -> Float32.ltb a c = true.
Proof.
  unfold Float32.ltb, Float32.leb, SFltb, SFleb.
  destruct (SFcompare a b) as [[]|] eqn:E1; try discriminate;
    destruct (SFcompare b c) as [[]|] eqn:E2; try discriminate; intros _ _.
  - rewrite (SFcompare_trans a b c Eq Lt E1 E2); [reflexivity|discriminate|discriminate].
  - rewrite (SFcompare_trans a b c Lt Lt E1 E2); [reflexivity|discriminate|discriminate].
Qed.

Lemma not_true_false (b : bool) : (b = true -> False) -> b = false.
Proof. destruct b; intros H; [destruct (H eq_refl)|reflexivity]. Qed.

Lemma nearest_inv_step (seen : list Float32.float) (d : Float32.float) (idx : Z)
    (dist : Float32.float) :
  nearest_inv seen idx dist ->
  nearest_inv (seen ++ [d])
    (if Float32.ltb d dist then Z.of_nat (List.length seen) else idx)
    (if Float32.ltb d dist then d else dist).
Proof.
  intros Hinv. destruct (Float32.ltb d dist) eqn:Hlt.
  - (* the new defect is nearer *)
    assert (Hmax : Float32.ltb d Float32Ops.FLT_MAX = true).
    { destruct Hinv as [(-> & _ & _)|(_ & _ & Hd & _ & _)]; [exact Hlt|].
      exact (ltb_trans _ _ _ Hlt Hd). }
    assert (Hseen : forall e, In e seen -> Float32.leb e d = false).
    { intros e He. apply not_true_false. intros Hle.
      pose proof (leb_ltb_trans e d dist Hle Hlt) as Hc.
      destruct Hinv as [(-> & _ & Hall)|(_ & _ & _ & Hall & _)];
        rewrite (Hall e He) in Hc; discriminate. }
    right. split; [lia|]. split.
    { rewrite Nat2Z.id, nth_error_app2 by lia. rewrite Nat.sub_diag. reflexivity. }
    split; [exact Hmax|]. split.
    + intros e He. apply in_app_or in He. destruct He as [He|[<-|[]]].
      * apply not_true_false. intros Hc. apply ltb_leb in Hc.
        rewrite (Hseen e He) in Hc. discriminate.
      * apply ltb_irrefl.
    + intros j e. rewrite Nat2Z.id. intros Hj Hn.
      rewrite nth_error_app1 in Hn by exact Hj. apply Hseen. eapply nth_error_In, Hn.
  - (* the state is kept *)
    destruct Hinv as [(-> & -> & Hall)|(Hi & Hn & Hd & Hall & Hbefore)].
    + left. split; [reflexivity|]. split; [reflexivity|].
      intros e He. apply in_app_or in He. destruct He as [He|[<-|[]]];
        [apply Hall, He|exact Hlt].
    + right. split; [exact Hi|].
      assert (Hlen : (Z.to_nat idx < List.length seen)%nat).
      { apply nth_error_Some. rewrite Hn. discriminate. }
      split; [rewrite nth_error_app1 by exact Hlen; exact Hn|].
      split; [exact Hd|]. split.
      * intros e He. apply in_app_or in He. destruct He as [He|[<-|[]]];
          [apply Hall, He|exact Hlt].
      * intros j e Hj Hne. rewrite nth_error_app1 in Hne by lia.
        exact (Hbefore j e Hj Hne).
Qed.

Lemma nearest_loop_inv (img_x img_y : Float32.float) (defects seen : list Defect)
    (idx : Z) (dist : Float32.float) :
  let f := fun d => click_distance d img_x img_y in
  nearest_inv (map f seen) idx dist ->
  nearest_inv (map f (seen ++ defects))
    (fst (nearest_loop img_x img_y defects (Z.of_nat (List.length seen)) idx dist))
    (snd (nearest_loop img_x img_y defects (Z.of_nat (List.length seen)) idx dist)).
Proof.
  intros f. revert seen idx dist.
  induction defects as [|d rest IH]; intros seen idx dist Hinv.
  - rewrite app_nil_r. exact Hinv.
  - pose proof (nearest_inv_step (map f seen) (f d) idx dist Hinv) as Hstep.
    rewrite length_map in Hstep.
    replace (map f seen ++ [f d]) with (map f (seen ++ [d])) in Hstep
      by (rewrite map_app; reflexivity).
    specialize (IH (seen ++ [d]) _ _ Hstep).
    rewrite <- app_assoc in IH. simpl app in IH.
    rewrite length_app in IH. simpl List.length in IH.
    replace (Z.of_nat (List.length seen + 1)) with (Z.of_nat (List.length seen) + 1) in IH by lia.
    cbn [nearest_loop]. fold (f d).
    destruct (Float32.ltb (f d) dist); exact IH.
Qed.

Lemma nearest_inv_init : nearest_inv [] 0 Float32Ops.FLT_MAX.
Proof. left. repeat split. intros e []. Qed.

(** X13: a click on the analysed image, wherever it falls, selects a
    defect of the list: the index handed to [select_defect] is in range.
    No defect is strictly nearer to the click than the selected one and
    every defect before it is strictly farther, as long as some distance
    is below [FLT_MAX]; when none is, the first defect is selected. *)
Theorem click_selects_nearest `{OpenCV} (ui : Ui)
    (img_w img_h box_w box_h me_X me_Y : Z) (idx : Z) :
  pb_analyzed_target ui img_w img_h box_w box_h me_X me_Y = Some idx ->
  let p := click_to_image img_w img_h box_w box_h me_X me_Y in
  let dists := map (fun d => click_distance d (fst p) (snd p)) (stored_defects_ ui) in
  0 <= idx < Z.of_nat (List.length (stored_defects_ ui)) /\
  ((idx = 0 /\ forall e, In e dists -> Float32.ltb e Float32Ops.FLT_MAX = false)
   \/
   (exists dist,
      nth_error dists (Z.to_nat idx) = Some dist /\
      Float32.ltb dist Float32Ops.FLT_MAX = true /\
      (forall e, In e dists -> Float32.ltb e dist = false) /\
      (forall j e, (j < Z.to_nat idx)%nat -> nth_error dists j = Some e ->
                   Float32.leb e dist = false))).
Proof.
  intros Ht. cbv zeta. unfold pb_analyzed_target in Ht.
  set (p := click_to_image img_w img_h box_w box_h me_X me_Y) in *.
  destruct (stored_defects_ ui) as [|d0 rest] eqn:Hds; [discriminate|].
  destruct (has_image_ ui); [|discriminate]. cbn [negb] in Ht.
  rewrite (surjective_pairing p) in Ht.
  assert (Hidx : fst (nearest_loop (fst p) (snd p) (d0 :: rest) 0 0 Float32Ops.FLT_MAX) = idx)
    by congruence.
  clear Ht.
  pose proof (nearest_loop_inv (fst p) (snd p) (d0 :: rest) [] 0 Float32Ops.FLT_MAX
                nearest_inv_init) as Hinv.
  cbv zeta in Hinv. cbn [app List.length Z.of_nat] in Hinv.
  rewrite Hidx in Hinv.
  set (dists := map (fun d => click_distance d (fst p) (snd p)) (d0 :: rest)) in *.
  destruct Hinv as [(_ & E0 & Hall)|(Hi & Hn & Hd & Hall & Hbefore)].
  - split; [simpl List.length; lia|]. left. split; [exact E0|exact Hall].
  - assert (Hlen : (Z.to_nat idx < List.length dists)%nat).
    { apply nth_error_Some. rewrite Hn. discriminate. }
    unfold dists in Hlen. rewrite length_map in Hlen.
    split; [lia|]. right. eexists. split; [exact Hn|]. split; [exact Hd|].
    split; [exact Hall|exact Hbefore].
Qed.

Lemma click_selects_nearest_witness :
  let p := click_to_image 200 200 200 200 3 172 in
  let dists := map (fun d => click_distance d (fst p) (snd p)) (stored_defects_ blobs_ui) in
  List.length (stored_defects_ blobs_ui) = 4%nat /\
  @pb_analyzed_target blobs_cv blobs_ui 200 200 200 200 3 172 = Some 2 /\
  0 <= 2 < Z.of_nat (List.length (stored_defects_ blobs_ui)) /\
  ((2 = 0 /\ forall e, In e dists -> Float32.ltb e Float32Ops.FLT_MAX = false)
   \/
   (exists dist,
      nth_error dists (Z.to_nat 2) = Some dist /\
      Float32.ltb dist Float32Ops.FLT_MAX = true /\
      (forall e, In e dists -> Float32.ltb e dist = false) /\
      (forall j e, (j < Z.to_nat 2)%nat -> nth_error dists j = Some e ->
                   Float32.leb e dist = false))).
Proof.
  intros p dists.
  split; [vm_compute; reflexivity|]. split; [vm_compute; reflexivity|].
  apply (@click_selects_nearest blobs_cv blobs_ui 200 200 200 200 3 172 2).
  vm_compute. reflexivity.
Defined.

Lemma nearest_loop_range (img_x img_y : Float32.float) (d0 : Defect) (rest : list Defect) :
  0 <= fst (nearest_loop img_x img_y (d0 :: rest) 0 0 Float32Ops.FLT_MAX)
    < Z.of_nat (List.length (d0 :: rest)).
Proof.
  pose proof (nearest_loop_inv img_x img_y (d0 :: rest) [] 0 Float32Ops.FLT_MAX
                nearest_inv_init) as Hinv.
  cbv zeta in Hinv. cbn [app List.length Z.of_nat] in Hinv.
  destruct Hinv as [(_ & -> & _)|(Hi & Hn & _)].
  - simpl List.length. lia.
  - assert (Hlen : (Z.to_nat (fst (nearest_loop img_x img_y (d0 :: rest) 0 0
                                     Float32Ops.FLT_MAX))
                    < List.length (map (fun d => click_distance d img_x img_y)
                                       (d0 :: rest)))%nat).
    { apply nth_error_Some. rewrite Hn. discriminate. }
    rewrite length_map in Hlen. lia.
Qed.

(** X14: once an analysis has left defects whose centres lie in the
    corrected image, a click anywhere on the analysed image shows one of
    them: [pb_analyzed_click] reaches [select_defect] with a defect of the
    list, the crop it enlarges lies inside the corrected image, and the
    number shown is between 1 and the number of defects. *)
Theorem click_shows_a_defect `{OpenCV} (ui : Ui) (corrected : Mat)
    (img_w img_h box_w box_h me_X me_Y : Z) :
  has_image_ ui = true ->
  stored_defects_ ui <> [] ->
  stored_corrected_ ui = Some corrected ->
  cols corrected < 2 ^ 24 -> rows corrected < 2 ^ 24 ->
  Forall (centre_inside corrected) (stored_defects_ ui) ->
  exists z,
    pb_analyzed_click ui img_w img_h box_w box_h me_X me_Y = Some z /\
    1 <= info_number z <= Z.of_nat (List.length (stored_defects_ ui)) /\
    roi_ok corrected (crop z) = true.
Proof.
  intros Himg Hne Hcor Hc Hr Hall.
  unfold pb_analyzed_click, pb_analyzed_target. rewrite Himg. cbn [negb].
  destruct (stored_defects_ ui) as [|d0 rest] eqn:Hds; [destruct (Hne eq_refl)|].
  destruct (click_to_image img_w img_h box_w box_h me_X me_Y) as [img_x img_y].
  pose proof (nearest_loop_range img_x img_y d0 rest) as Hrange.
  set (idx := fst (nearest_loop img_x img_y (d0 :: rest) 0 0 Float32Ops.FLT_MAX)) in *.
  destruct (nth_error (d0 :: rest) (Z.to_nat idx)) as [d|] eqn:Hn.
  - assert (Hd : centre_inside corrected d).
    { rewrite Forall_forall in Hall. apply Hall. eapply nth_error_In, Hn. }
    destruct (select_defect_spec ui corrected d idx Hcor Hc Hr (proj1 Hrange)
                ltac:(rewrite Hds; exact Hn) Hd) as (z & Hz & Hcrop & Hinfo).
    exists z. split; [exact Hz|]. split; [lia|].
    rewrite Hcrop. apply crop_rect_fits; [simpl; lia|exact Hc|exact Hr|exact Hd].
  - apply nth_error_None in Hn. lia.
Qed.

Lemma click_shows_a_defect_witness :
  exists z,
    @pb_analyzed_click demo_cv demo_ui 5 5 400 400 200 270 = Some z /\
    1 <= info_number z <= Z.of_nat (List.length (stored_defects_ demo_ui)) /\
    roi_ok full5 (crop z) = true.
Proof.
  apply (@click_shows_a_defect demo_cv demo_ui full5 5 5 400 400 200 270).
  - reflexivity.
  - vm_compute. discriminate.
  - reflexivity.
  - vm_compute; reflexivity.
  - vm_compute; reflexivity.
  - apply Forall_forall. intros d Hd. vm_compute in Hd. destruct Hd as [<-|[]].
    vm_compute. split; split; (discriminate || reflexivity).
Defined.

(** ** The display bitmap *)

Lemma row_bytes_length (row : list (Z * Z * Z)) :
  List.length (row_bytes row) = (3 * List.length row)%nat.
Proof.
  induction row as [|[[c0 c1] c2] rest IH]; [reflexivity|].
  change (row_bytes (((c0, c1), c2) :: rest)) with (c0 :: c1 :: c2 :: row_bytes rest).
  simpl List.length. rewrite IH. lia.
Qed.

Lemma memcpy_length (buf : list Z) (off : nat) (src : list Z) :
  (off + List.length src <= List.length buf)%nat ->
  List.length (memcpy buf off src) = List.length buf.
Proof.
  intros Hin. unfold memcpy.
  rewrite !length_app, length_firstn, length_skipn. lia.
Qed.

Lemma memcpy_inside (buf : list Z) (off : nat) (src : list Z) (x : nat) :
  (off + List.length src <= List.length buf)%nat ->
  (x < List.length src)%nat ->
  nth_error (memcpy buf off src) (off + x) = nth_error src x.
Proof.
  intros Hin Hx. unfold memcpy.
  assert (Hoff : List.length (firstn off buf) = off) by (rewrite length_firstn; lia).
  rewrite nth_error_app2 by lia. rewrite Hoff.
  replace (off + x - off)%nat with x by lia.
  apply nth_error_app1. exact Hx.
Qed.

Lemma memcpy_outside (buf : list Z) (off : nat) (src : list Z) (i : nat) :
  (off + List.length src <= List.length buf)%nat ->
  (i < off \/ off + List.length src <= i)%nat ->
  nth_error (memcpy buf off src) i = nth_error buf i.
Proof.
  intros Hin Hi. unfold memcpy.
  assert (Hoff : List.length (firstn off buf) = off) by (rewrite length_firstn; lia).
  destruct Hi as [Hi|Hi].
  - rewrite nth_error_app1 by lia. rewrite nth_error_firstn.
    destruct (Nat.ltb_spec i off); [reflexivity|lia].
  - rewrite nth_error_app2 by lia. rewrite Hoff.
    rewrite nth_error_app2 by lia.
    rewrite nth_error_skipn. f_equal. lia.
Qed.

(** The copy loop writes the bytes of each row at the start of its line
    and nothing else. *)
Lemma copy_rows_spec (stride width : nat) (rws : Mat3) :
  (3 * width <= stride)%nat ->
  Forall (fun row => List.length row = width) rws ->
  forall (buf : list Z) (y : nat),
    ((y + List.length rws) * stride <= List.length buf)%nat ->
    List.length (copy_rows buf stride rws y) = List.length buf /\
    (forall k x row, nth_error rws k = Some row -> (x < 3 * width)%nat ->
       nth_error (copy_rows buf stride rws y) ((y + k) * stride + x) =
       nth_error (row_bytes row) x) /\
    (forall i,
       (forall k, (k < List.length rws)%nat ->
                  (i < (y + k) * stride \/ (y + k) * stride + 3 * width <= i)%nat) ->
       nth_error (copy_rows buf stride rws y) i = nth_error buf i).
Proof.
  intros Hstride Hw. induction Hw as [|row rest Hrow Hrest IH]; intros buf y Hbuf.
  - split; [reflexivity|]. split; [|reflexivity].
    intros [|k] x row Hk; discriminate.
  - cbn [copy_rows]. simpl List.length in Hbuf.
    assert (Hlen : List.length (row_bytes row) = (3 * width)%nat)
      by (rewrite row_bytes_length, Hrow; reflexivity).
    assert (Hin : (y * stride + List.length (row_bytes row) <= List.length buf)%nat)
      by (rewrite Hlen; nia).
    pose proof (memcpy_length buf (y * stride) (row_bytes row) Hin) as Hml.
    destruct (IH (memcpy buf (y * stride) (row_bytes row)) (S y)) as (IHl & IHa & IHb).
    { rewrite Hml. nia. }
    split; [rewrite IHl; exact Hml|]. split.
    + intros [|k] x row' Hk Hx.
      * cbn [nth_error] in Hk. injection Hk as <-.
        rewrite IHb.
        -- replace ((y + 0) * stride + x)%nat with (y * stride + x)%nat by lia.
           apply memcpy_inside; [exact Hin|rewrite Hlen; exact Hx].
        -- intros k _. left. nia.
      * cbn [nth_error] in Hk.
        replace ((y + S k) * stride + x)%nat with ((S y + k) * stride + x)%nat by lia.
        exact (IHa k x row' Hk Hx).
    + intros i Hi. rewrite IHb.
      * apply memcpy_outside; [exact Hin|].
        rewrite Hlen. specialize (Hi 0%nat ltac:(simpl; lia)).
        replace (y + 0)%nat with y in Hi by lia. exact Hi.
      * intros k Hk. specialize (Hi (S k) ltac:(simpl; lia)).
        replace (y + S k)%nat with (S y + k)%nat in Hi by lia. exact Hi.
Qed.

(** X15: [mat_to_bitmap] lays the converted image out line by line.  For
    an image whose rows have [width] pixels, in a bitmap with lines of
    [stride >= 3 * width] bytes, byte [x < 3 * width] of line [y] is byte
    [x] of row [y] of the RGB matrix, the padding bytes of every line keep
    what the bitmap held before, and the buffer keeps its length. *)
Theorem mat_to_bitmap_layout `{CvtColor} (mat : AnyMat) (scan0 : list Z)
    (stride width : nat) :
  Forall (fun row => List.length row = width) (to_rgb mat) ->
  (3 * width <= stride)%nat ->
  List.length scan0 = (List.length (to_rgb mat) * stride)%nat ->
  List.length (mat_to_bitmap mat scan0 stride) = List.length scan0 /\
  (forall y x row, nth_error (to_rgb mat) y = Some row -> (x < 3 * width)%nat ->
     nth_error (mat_to_bitmap mat scan0 stride) (y * stride + x) =
     nth_error (row_bytes row) x) /\
  (forall y x, (y < List.length (to_rgb mat))%nat -> (3 * width <= x < stride)%nat ->
     nth_error (mat_to_bitmap mat scan0 stride) (y * stride + x) =
     nth_error scan0 (y * stride + x)).
Proof.
  intros Hw Hstride Hlen. unfold mat_to_bitmap.
  destruct (copy_rows_spec stride width (to_rgb mat) Hstride Hw scan0 0)
    as (Hl & Ha & Hb).
  { rewrite Hlen. simpl. lia. }
  split; [exact Hl|]. split.
  - intros y x row Hy Hx. exact (Ha y x row Hy Hx).
  - intros y x Hy Hx. apply Hb. intros k Hk. simpl.
    destruct (Nat.lt_ge_cases k y) as [Hlt|Hge].
    + right. nia.
    + destruct (Nat.eq_dec k y) as [->|Hne]; [right; lia|left; nia].
Qed.

Lemma mat_to_bitmap_layout_witness :
  @mat_to_bitmap demo_cvtColor (Bgr [[(1, 2, 3); (4, 5, 6)]; [(7, 8, 9); (10, 11, 12)]])
    (repeat 0 16) 8
  = [3; 2; 1; 6; 5; 4; 0; 0; 9; 8; 7; 12; 11; 10; 0; 0] /\
  List.length
    (@mat_to_bitmap demo_cvtColor (Bgr [[(1, 2, 3); (4, 5, 6)]; [(7, 8, 9); (10, 11, 12)]])
       (repeat 0 16) 8) = 16%nat.
Proof.
  split; [reflexivity|].
  apply (@mat_to_bitmap_layout demo_cvtColor
           (Bgr [[(1, 2, 3); (4, 5, 6)]; [(7, 8, 9); (10, 11, 12)]]) (repeat 0 16) 8 2).
  - repeat (apply Forall_cons || apply Forall_nil); reflexivity.
  - simpl; lia.
  - reflexivity.
Defined.
